(** * cvat-core annotation actions: registry, parameter resolution and the
      single-frame chain runner

    A shallow embedding of the annotation actions module of cvat-core: the
    action base class, the built-in [RemoveFilteredShapes] action, the
    process-wide registry with [listActions] / [registerAction], and the
    asynchronous [runSingleFrameChain] / [runActions] pipeline.

    Conventions of the embedding.
    - JavaScript values that the module inspects are modelled by small
      inductive types ([JSNumber], [JSValue]).  A finite number is kept as
      the rational it denotes; the arithmetic of the module and unary plus
      round to the nearest binary64 number ([Binary64]).  A string is kept
      as the bytes of its UTF-8 encoding.
    - Asynchronous code is modelled sequentially, each [await] being a
      sequencing point.  A computation is a function on an explicit run
      state (the annotation store, the number of cancellation polls made so
      far and the trace of observable calls) that ends in a JavaScript
      completion: normal, early [return], or [throw].  A call of [init] or
      [destroy] inside [actionsChain.map] either throws at once or returns
      a promise, and [Promise.all] rejects with the rejection that comes
      first in time ([Started], [firstRejection]).
    - [throttle] and the [setTimeout] pauses are real-time devices; the
      trace records the calls made to the throttled wrapper, and the
      session tells for each of them whether the callback, run at once,
      threw.
    - Collaborators that live outside the module (logger, frame provider,
      [getAnnotations], the collection of the session) are fields of the
      [Session] record.  Actions and collaborators are taken to leave the
      store and the exported shapes alone: the store changes only through
      the calls the runner makes.  Frame numbers are integers that
      binary64 holds exactly, so that the loop counter steps through the
      range, and the cancellation predicate returns a boolean. *)

From Stdlib Require Import ZArith QArith Qround Qpower Lqa SpecFloat.
From Stdlib Require Import Ascii String List Bool Lia Permutation Sorted.
From stdpp Require Import base option gmap strings.
Import ListNotations.

Local Open Scope string_scope.
Local Open Scope list_scope.
Local Open Scope Z_scope.

(** ** JavaScript numbers and the values the module compares *)

(** A number: NaN, an infinity, the negative zero, or a finite number
    other than the negative zero, kept as the rational it denotes. *)
Inductive JSNumber :=
  | JNaN
  | JInfinity (negative : bool)
  | JNegZero
  | JFinite (q : Q).

Inductive JSValue :=
  | JUndefined
  | JNull
  | JNum (n : JSNumber).

Definition numEq (a b : JSNumber) : bool :=
  match a, b with
  | JNaN, JNaN => true
  | JInfinity s, JInfinity t => Bool.eqb s t
  | JNegZero, JNegZero => true
  | JNegZero, JFinite q | JFinite q, JNegZero => Qeq_bool q 0
  | JFinite p, JFinite q => Qeq_bool p q
  | _, _ => false
  end.

(** SameValueZero, the comparison used by [Array.prototype.includes]. *)
Definition sameValueZero (x y : JSValue) : bool :=
  match x, y with
  | JUndefined, JUndefined => true
  | JNull, JNull => true
  | JNum a, JNum b => numEq a b
  | _, _ => false
  end.

(** [arr.includes(x)] *)
Definition includes (arr : list JSValue) (x : JSValue) : bool :=
  existsb (fun y => sameValueZero y x) arr.

(** [Number.isInteger(v)] *)
Definition Number_isInteger (v : JSValue) : bool :=
  match v with
  | JNum JNegZero => true
  | JNum (JFinite q) => Qeq_bool q (inject_Z (Qfloor q))
  | _ => false
  end.

(** The number with integer value [z]. *)
Definition jsInt (z : Z) : JSValue := JNum (JFinite (inject_Z z)).

(** ** Binary64 arithmetic *)

(** The Number type is IEEE 754 binary64: every arithmetic operation gives
    the exact result rounded to the nearest number of the format, a tie
    going to the even significand. *)
Module Binary64.

Local Open Scope Q_scope.

Definition pow2 (e : Z) : Q := 2 ^ e.

(** The nearest integer, a tie going to the even one. *)
Definition roundHalfEven (m : Q) : Z :=
  let f := Qfloor m in
  match Qcompare (m - inject_Z f) (1 # 2) with
  | Lt => f
  | Gt => (f + 1)%Z
  | Eq => if Z.even f then f else (f + 1)%Z
  end.

(** For [x > 0], the exponent [b] with [2^b <= x < 2^(b+1)]. *)
Definition binade (x : Q) : Z :=
  let l := (Z.log2 (Qnum x) - Z.log2 (Zpos (Qden x)))%Z in
  if Qle_bool (pow2 l) x then l else (l - 1)%Z.

(** The exponent of the spacing of the binary64 numbers around [x > 0]:
    53 significant bits, and [2^-1074] among the subnormal numbers. *)
Definition ulpExponent (x : Q) : Z := Z.max (binade x - 52) (-1074).

Definition roundPositive (x : Q) : Q :=
  let e := ulpExponent x in
  inject_Z (roundHalfEven (x / pow2 e)) * pow2 e.

(** The multiple of the spacing nearest to [x], as a reduced fraction; it
    is the binary64 value of [x] unless it reaches [2^1024]. *)
Definition round (x : Q) : Q :=
  match Qnum x with
  | Z0 => 0
  | Zpos _ => Qred (roundPositive x)
  | Zneg _ => Qred (- roundPositive (- x))
  end.

(** The Number value for [x]: [2^1024] and beyond is an infinity, and a
    negative [x] that rounds to zero gives the negative zero. *)
Definition numberValue (x : Q) : JSNumber :=
  let r := round x in
  if Qle_bool (pow2 1024) r then JInfinity false
  else if Qle_bool r (- pow2 1024) then JInfinity true
  else if Qeq_bool r 0 then (if (Qnum x <? 0)%Z then JNegZero else JFinite 0)
  else JFinite r.

(** [a - b], [a + b], [a / b] and [a * b] on finite numbers whose result
    is finite. *)
Definition sub (a b : Q) : Q := round (a - b).
Definition add (a b : Q) : Q := round (a + b).
Definition div (a b : Q) : Q := round (a / b).
Definition mul (a b : Q) : Q := round (a * b).

(** The same numbers through the Standard Library's specification of
    IEEE 754 arithmetic, for comparison. *)
Definition ofSpecFloat (f : spec_float) : option Q :=
  match f with
  | S754_zero _ => Some 0
  | S754_finite s m e =>
      Some (Qred ((if s then -1 else 1) * inject_Z (Zpos m) * pow2 e))
  | _ => None
  end.

Definition specFloatOfZ (z : Z) : spec_float := binary_normalize 53 1024 z 0 false.

(** [(k / n) * 100] computed both ways gives the same number. *)
Definition agreesAt (k n : Z) : bool :=
  match ofSpecFloat (SFmul 53 1024
                       (SFdiv 53 1024 (specFloatOfZ k) (specFloatOfZ n))
                       (specFloatOfZ 100)) with
  | Some q => Qeq_bool q (mul (div (inject_Z k) (inject_Z n)) 100)
  | None => false
  end.

Definition agreesUpTo (total : nat) : bool :=
  forallb (fun n => forallb (fun k => agreesAt (Z.of_nat k) (Z.of_nat n)) (seq 0 n))
    (seq 1 total).

End Binary64.

(** ** Unary plus on a string: StringToNumber *)

Module StringToNumber.

Definition code (c : ascii) : Z := Z.of_N (N_of_ascii c).

(** StrWhiteSpaceChar, each code point as the bytes of its UTF-8 encoding:
    TAB, LF, VT, FF, CR, SP, U+00A0, U+1680, U+2000 to U+200A, U+2028,
    U+2029, U+202F, U+205F, U+3000 and U+FEFF. *)
Definition whiteSpaceChars : list (list Z) :=
  [[9]; [10]; [11]; [12]; [13]; [32];
   [194; 160];
   [225; 154; 128];
   [226; 128; 128]; [226; 128; 129]; [226; 128; 130]; [226; 128; 131];
   [226; 128; 132]; [226; 128; 133]; [226; 128; 134]; [226; 128; 135];
   [226; 128; 136]; [226; 128; 137]; [226; 128; 138];
   [226; 128; 168]; [226; 128; 169];
   [226; 128; 175];
   [226; 129; 159];
   [227; 128; 128];
   [239; 187; 191]].

(** What follows the given bytes at the head of the text, when they are
    there. *)
Fixpoint afterPrefix (bytes : list Z) (l : list ascii) : option (list ascii) :=
  match bytes, l with
  | [], _ => Some l
  | b :: bytes', c :: r => if code c =? b then afterPrefix bytes' r else None
  | _ :: _, [] => None
  end.

(** What follows a white space character at the head of the text; the
    characters are read in the given direction. *)
Fixpoint afterWhiteSpace (chars : list (list Z)) (l : list ascii)
  : option (list ascii) :=
  match chars with
  | [] => None
  | bytes :: chars' =>
      match afterPrefix bytes l with
      | Some r => Some r
      | None => afterWhiteSpace chars' l
      end
  end.

(** The text without its leading white space; [fuel] bounds the number of
    characters removed. *)
Fixpoint dropWhiteSpace (chars : list (list Z)) (fuel : nat) (l : list ascii)
  : list ascii :=
  match fuel with
  | O => l
  | S fuel' =>
      match afterWhiteSpace chars l with
      | Some r => dropWhiteSpace chars fuel' r
      | None => l
      end
  end.

Definition trimStart (l : list ascii) : list ascii :=
  dropWhiteSpace whiteSpaceChars (length l) l.

(** At the end the bytes are met in reverse. *)
Definition trimEnd (l : list ascii) : list ascii :=
  rev (dropWhiteSpace (map (@rev Z) whiteSpaceChars) (length l) (rev l)).

Definition trim (l : list ascii) : list ascii := trimEnd (trimStart l).

(** Value of a digit in the given radix, when it is one. *)
Definition digitValue (radix : Z) (c : ascii) : option Z :=
  let n := code c in
  let v :=
    if (48 <=? n) && (n <=? 57) then Some (n - 48)
    else if (97 <=? n) && (n <=? 102) then Some (n - 87)
    else if (65 <=? n) && (n <=? 70) then Some (n - 55)
    else None in
  match v with
  | Some d => if d <? radix then Some d else None
  | None => None
  end.

(** Longest prefix of digits: its value, its length and what follows. *)
Fixpoint digits (radix : Z) (l : list ascii) (acc : Z) (n : nat)
  : Z * nat * list ascii :=
  match l with
  | c :: r =>
      match digitValue radix c with
      | Some d => digits radix r (acc * radix + d) (S n)
      | None => (acc, n, l)
      end
  | [] => (acc, n, [])
  end.

(** A whole string of at least one digit of the radix. *)
Definition wholeDigits (radix : Z) (l : list ascii) : option Z :=
  match digits radix l 0 0%nat with
  | (v, S _, []) => Some v
  | _ => None
  end.

(** ExponentPart, which must reach the end of the literal. *)
Definition exponent (l : list ascii) : option Z :=
  match l with
  | [] => Some 0
  | e :: r =>
      if (code e =? 101) || (code e =? 69) then
        match r with
        | s :: r' =>
            if code s =? 43 then wholeDigits 10 r'
            else if code s =? 45 then option_map Z.opp (wholeDigits 10 r')
            else wholeDigits 10 r
        | [] => None
        end
      else None
  end.

(** The mathematical value of a StrUnsignedDecimalLiteral other than
    [Infinity]. *)
Definition unsignedDecimal (l : list ascii) : option Q :=
  let '(ip, ni, r1) := digits 10 l 0 0%nat in
  let '(fp, nf, r2) :=
    match r1 with
    | d :: r => if code d =? 46 then digits 10 r 0 0%nat else (0, 0%nat, r1)
    | [] => (0, 0%nat, r1)
    end in
  match (ni + nf)%nat with
  | O => None
  | S _ =>
      match exponent r2 with
      | Some e =>
          Some ((inject_Z ip + inject_Z fp / inject_Z (10 ^ Z.of_nat nf))
                * Qpower (inject_Z 10) e)%Q
      | None => None
      end
  end.

(** StrUnsignedDecimalLiteral: the Number value for its mathematical
    value. *)
Definition unsignedLiteral (l : list ascii) : JSNumber :=
  if decide (l = list_ascii_of_string "Infinity") then JInfinity false
  else match unsignedDecimal l with
       | Some q => Binary64.numberValue q
       | None => JNaN
       end.

(** [- StrUnsignedDecimalLiteral]: the negative zero for zero. *)
Definition negate (n : JSNumber) : JSNumber :=
  match n with
  | JNaN => JNaN
  | JInfinity s => JInfinity (negb s)
  | JNegZero => JFinite 0
  | JFinite q => if Qeq_bool q 0 then JNegZero else JFinite (- q)%Q
  end.

Definition nonDecimal (radix : Z) (l : list ascii) : JSNumber :=
  match wholeDigits radix l with
  | Some v => Binary64.numberValue (inject_Z v)
  | None => JNaN
  end.

(** StrNumericLiteral, after trimming; the empty literal is [0]. *)
Definition literal (l : list ascii) : JSNumber :=
  match l with
  | [] => JFinite 0
  | c :: r =>
      if code c =? 43 then unsignedLiteral r
      else if code c =? 45 then negate (unsignedLiteral r)
      else
        match r with
        | p :: r' =>
            if (code c =? 48) && ((code p =? 120) || (code p =? 88))
            then nonDecimal 16 r'
            else if (code c =? 48) && ((code p =? 111) || (code p =? 79))
            then nonDecimal 8 r'
            else if (code c =? 48) && ((code p =? 98) || (code p =? 66))
            then nonDecimal 2 r'
            else unsignedLiteral l
        | [] => unsignedLiteral l
        end
  end.

(** [+s] for a string [s]. *)
Definition toNumber (s : string) : JSNumber :=
  literal (trim (list_ascii_of_string s)).

End StringToNumber.

Definition numOfZ (z : Z) : JSNumber := JFinite (inject_Z z).

(** ** Exceptions ([exceptions.ts]) and results of fallible calls *)

Inductive Exception :=
  | JSError (message : string)
  | TypeError (message : string)
  | ArgumentError (message : string)
  | DataError (message : string)
  | ScriptingError (message : string)
  | ServerError (message : string) (code : Z).

(** What a call into a collaborator, a getter or an action method gives:
    a value, or a thrown exception (a rejected promise once awaited). *)
Inductive Result (A : Type) :=
  | Ok (a : A)
  | Err (e : Exception).
Arguments Ok {A} a.
Arguments Err {A} e.

(** ** Data model *)

(** [SerializedShape]: the two fields the module reads, [frame], and the
    remaining fields, which the module never inspects. *)
Record SerializedShape := mkShape {
  id : option Z;
  clientID : JSValue;
  frame : Z;
  rest : string;
}.

(** Tracks and tags are passed through untouched. *)
Definition SerializedTrack := string.
Definition SerializedTag := string.

Record SerializedCollection := mkCollection {
  shapes : list SerializedShape;
  tracks : list SerializedTrack;
  tags : list SerializedTag;
}.

Record FrameData := mkFrameData {
  width : Z;
  height : Z;
  number : Z;
  deleted : bool;
}.

Inductive ObjectType := SHAPE | TRACK | TAG.

Record ObjectState := mkState {
  objectType : ObjectType;
  state_clientID : JSValue;
}.

(** [SingleFrameActionInput]; its collection holds shapes only. *)
Record SingleFrameActionInput := mkInput {
  input_collection : list SerializedShape;
  input_width : Z;
  input_height : Z;
  input_number : Z;
}.

Inductive ActionParameterType := SELECT | NUMBER.

Record ParameterDeclaration := mkDecl {
  type : ActionParameterType;
  values : list string;
  defaultValue : string;
}.

(** [ActionParameters], as [Object.entries] enumerates it. *)
Definition ActionParameters := list (string * ParameterDeclaration).

(** A resolved parameter: [string | number]. *)
Inductive ParameterValue :=
  | PString (s : string)
  | PNumber (n : JSNumber).

(** What a call of a method that is to return a promise gives when the
    promise is not awaited at once: the call throws before there is a
    promise (a method that is not [async]), or it returns a promise, which
    is fulfilled, or is rejected at some time. *)
Inductive Started (A : Type) :=
  | Throws (e : Exception)
  | Fulfils (a : A)
  | RejectsAt (time : nat) (e : Exception).
Arguments Throws {A} e.
Arguments Fulfils {A} a.
Arguments RejectsAt {A} time e.

(** An action object.  Getters and methods may throw.  [init] and
    [destroy] are called inside [actionsChain.map] and their promises are
    awaited together; [run] is awaited where it is called, so that a throw
    and a rejection are the same there; it is a function of its input,
    which carries the frame number. *)
Record BaseSingleFrameAction := mkAction {
  init : gmap string ParameterValue -> Started unit;
  destroy : Started unit;
  run : SingleFrameActionInput -> Result (list SerializedShape);
  name : Result string;
  parameters : Result (option ActionParameters);
}.

Definition notImplemented {A} : Result A := Err (JSError "Method not implemented").

(** An [async] method that throws returns a promise that is rejected from
    the start. *)
Definition notImplementedAsync {A} : Started A :=
  RejectsAt 0 (JSError "Method not implemented").

(** The base class itself: every member throws. *)
Definition BaseAction : BaseSingleFrameAction :=
  {| init := fun _ => notImplementedAsync;
     destroy := notImplementedAsync;
     run := fun _ => notImplemented;
     name := notImplemented;
     parameters := notImplemented |}.

Definition RemoveFilteredShapes : BaseSingleFrameAction :=
  {| init := fun _ => Fulfils tt;
     destroy := Fulfils tt;
     run := fun _ => Ok [];
     name := Ok "Remove filtered shapes";
     parameters := Ok None |}.

(** ** The registry *)

(** What [registerAction] may be handed at run time. *)
Inductive Candidate :=
  | ActionInstance (a : BaseSingleFrameAction)
  | NotAnAction.

Definition instanceofBaseSingleFrameAction (c : Candidate) : bool :=
  match c with
  | ActionInstance _ => true
  | NotAnAction => false
  end.

Definition dquote : string := String (ascii_of_nat 34) EmptyString.

(** [arr.map(f)] for a callback that may throw. *)
Fixpoint mapResult {A B} (f : A -> Result B) (l : list A) : Result (list B) :=
  match l with
  | [] => Ok []
  | x :: r =>
      match f x with
      | Err e => Err e
      | Ok y =>
          match mapResult f r with
          | Err e => Err e
          | Ok ys => Ok (y :: ys)
          end
      end
  end.

(** [names.includes(name)] on strings. *)
Definition includesName (names : list string) (n : string) : bool :=
  existsb (fun m => String.eqb m n) names.

Definition listActions (registeredActions : list BaseSingleFrameAction)
  : list BaseSingleFrameAction := registeredActions.

(** [registerAction]: the outcome of the call and the registry after it. *)
Definition registerAction (action : Candidate)
    (registeredActions : list BaseSingleFrameAction)
  : Result unit * list BaseSingleFrameAction :=
  match action with
  | NotAnAction =>
      (Err (ArgumentError "Provided action is not instance of BaseSingleFrameAction"),
       registeredActions)
  | ActionInstance a =>
      match name a with
      | Err e => (Err e, registeredActions)
      | Ok n =>
          match mapResult name registeredActions with
          | Err e => (Err e, registeredActions)
          | Ok names =>
              if includesName names n then
                (Err (ArgumentError
                        ("Action name must be unique. Name " ++ dquote ++ n
                           ++ dquote ++ " is already exists")),
                 registeredActions)
              else (Ok tt, registeredActions ++ [a])
          end
      end
  end.

(** The registry once the module is loaded. *)
Definition initialRegistry : list BaseSingleFrameAction :=
  snd (registerAction (ActionInstance RemoveFilteredShapes) []).

(** ** Parameter resolution (the callback given to [actionsChain.map]) *)

Definition coerce (t : ActionParameterType) (raw : string) : ParameterValue :=
  match t with
  | NUMBER => PNumber (StringToNumber.toNumber raw)
  | SELECT => PString raw
  end.

(** [Object.hasOwn(setupValues, name) ? setupValues[name] : defaultValue] *)
Definition chosenValue (setupValues : gmap string string)
    (n : string) (d : ParameterDeclaration) : string :=
  match setupValues !! n with
  | Some v => v
  | None => defaultValue d
  end.

(** [acc[name] = value] on the plain object [acc], for a string or a
    number: the key [__proto__] reaches the setter that [Object.prototype]
    has for it, which ignores such a value, so that no key is created;
    every other key becomes an own key of [acc]. *)
Definition assign (m : gmap string ParameterValue) (n : string)
    (value : ParameterValue) : gmap string ParameterValue :=
  if String.eqb n "__proto__" then m else <[n := value]> m.

(** One step of the [reduce]; [Object.hasOwn] throws on [undefined]. *)
Definition resolveStep (setupValues : option (gmap string string))
    (acc : Result (gmap string ParameterValue))
    (entry : string * ParameterDeclaration)
  : Result (gmap string ParameterValue) :=
  match acc with
  | Err e => Err e
  | Ok m =>
      match setupValues with
      | None => Err (TypeError "Cannot convert undefined or null to object")
      | Some sv =>
          Ok (assign m (fst entry)
                (coerce (type (snd entry))
                   (chosenValue sv (fst entry) (snd entry))))
      end
  end.

Definition resolveDeclared (declared : ActionParameters)
    (setupValues : option (gmap string string))
  : Result (gmap string ParameterValue) :=
  fold_left (resolveStep setupValues) declared (Ok ∅).

(** The parameter map handed to [init] for a declared schema. *)
Definition resolveParameters (declaredParameters : option ActionParameters)
    (setupValues : option (gmap string string))
  : Result (gmap string ParameterValue) :=
  match declaredParameters with
  | None => Ok ∅
  | Some declared => resolveDeclared declared setupValues
  end.

(** ** The annotation store, the session and the observable trace *)

Record Store := mkStore {
  annotations : SerializedCollection;
  history : list string;
}.

Definition emptyCollection : SerializedCollection :=
  {| shapes := []; tracks := []; tags := [] |}.

(** Modelled from the spec: the effect of the store calls, which live in
    the annotations module of cvat-core and not in this file.
    [annotations.clear()] removes the current annotations,
    [actions.clear()] the pending action history, and
    [annotations.import(c)] makes [c] the current annotations. *)
Definition store_clear (st : Store) : Store :=
  {| annotations := emptyCollection; history := history st |}.

Definition store_clear_actions (st : Store) : Store :=
  {| annotations := annotations st; history := [] |}.

Definition store_import (c : SerializedCollection) (st : Store) : Store :=
  {| annotations := c; history := history st |}.

(** The collaborators of a run: each entry tells whether the call succeeds,
    and with what.  All but the last are reached through [instance].
    [onProgress n message progress] is what the call number [n] (from 0) of
    the throttled wrapper of the progress callback gives: the throttle runs
    the callback at once or puts it off, and only a callback run at once
    can throw into the runner. *)
Record Session := mkSession {
  logger_log : Z -> Z -> string -> Result unit;
  frames_get : Z -> Result FrameData;
  getAnnotations : Z -> list string -> Result (list ObjectState);
  collection_export : Result unit;
  annotations_clear : Result unit;
  actions_clear : Result unit;
  annotations_import : SerializedCollection -> Result unit;
  event_close : Result unit;
  onProgress : nat -> string -> Z -> Result unit;
}.

Inductive Event :=
  | EvLog (frameFrom frameTo : Z) (chain : string)
  | EvProgress (message : string) (progress : Z)
  | EvCancelled (answer : bool)
  | EvInit (idx : nat) (resolved : gmap string ParameterValue)
  | EvExport
  | EvFrameGet (frame : Z)
  | EvGetAnnotations (frame : Z)
  | EvRun (idx : nat) (frame : Z)
  | EvAnnotationsClear
  | EvActionsClear
  | EvImport (c : SerializedCollection)
  | EvEventClose
  | EvDestroy (idx : nat).

(** The calls made to the progress wrapper, in order. *)
Definition progressCalls (evs : list Event) : list (string * Z) :=
  flat_map (fun ev => match ev with
                      | EvProgress m p => [(m, p)]
                      | _ => []
                      end) evs.

(** ** Computations: run state and JavaScript completions *)

Record RunState := mkRunState {
  store : Store;
  polls : nat;
  trace : list Event;
}.

Inductive Completion (A : Type) :=
  | Normal (a : A)
  | Return
  | Throw (e : Exception).
Arguments Normal {A} a.
Arguments Return {A}.
Arguments Throw {A} e.

Definition Run (A : Type) : Type := RunState -> Completion A * RunState.

#[global] Instance Run_ret : MRet Run := fun A a s => (Normal a, s).

#[global] Instance Run_bind : MBind Run := fun A B k m s =>
  match m s with
  | (Normal a, s') => k a s'
  | (Return, s') => (Return, s')
  | (Throw e, s') => (Throw e, s')
  end.

Definition emit (ev : Event) : Run unit := fun s =>
  (Normal tt, {| store := store s; polls := polls s; trace := trace s ++ [ev] |}).

Definition liftResult {A} (r : Result A) : Run A := fun s =>
  match r with
  | Ok a => (Normal a, s)
  | Err e => (Throw e, s)
  end.

(** A traced call into a collaborator or an action. *)
Definition call {A} (ev : Event) (r : Result A) : Run A :=
  emit ev;; liftResult r.

Definition throw {A} (e : Exception) : Run A := fun s => (Throw e, s).

(** [return;] *)
Definition returnEarly {A} : Run A := fun s => (Return, s).

Definition modifyStore (f : Store -> Store) : Run unit := fun s =>
  (Normal tt, {| store := f (store s); polls := polls s; trace := trace s |}).

Definition getStore : Run Store := fun s => (Normal (store s), s).

(** One poll of the cancellation predicate; its answer may depend on how
    often it was asked before. *)
Definition poll (cancelled : nat -> bool) : Run bool := fun s =>
  let answer := cancelled (polls s) in
  (Normal answer,
   {| store := store s; polls := S (polls s);
      trace := trace s ++ [EvCancelled answer] |}).

(** [if (cancelled()) { return; }] *)
Definition checkpoint (cancelled : nat -> bool) : Run unit :=
  poll cancelled ≫= λ c : bool, if c then returnEarly else mret tt.

(** [try { body } finally { handler }]: the handler always runs, and its
    own abrupt completion replaces that of the body. *)
Definition tryFinally {A} (body : Run A) (handler : Run unit) : Run A := fun s =>
  let '(r, s1) := body s in
  match handler s1 with
  | (Normal _, s2) => (r, s2)
  | (Return, s2) => (Return, s2)
  | (Throw e, s2) => (Throw e, s2)
  end.

(** ** [runSingleFrameChain] *)

(** A call of the throttled wrapper: the call is made, and it throws when
    the callback is run at once and throws. *)
Definition wrappedOnProgress (instance : Session) (message : string)
    (progress : Z) : Run unit := fun s =>
  call (EvProgress message progress)
    (onProgress instance (length (progressCalls (trace s))) message progress) s.

(** The pause only yields to the event loop. *)
Definition showMessageWithPause (instance : Session) (message : string)
    (progress duration : Z) : Run unit :=
  wrappedOnProgress instance message progress.

(** [await Promise.all(promises)] once every promise has been created:
    rejects when one of them did, with the rejection that came first. *)
Definition awaitAll (rejected : option (nat * Exception)) : Run unit :=
  match rejected with
  | Some (_, e) => throw e
  | None => mret tt
  end.

(** The rejection that comes first in time among those seen so far and
    that of one more promise; of two rejections at the same time the one of
    the earlier promise comes first, its reaction having been queued
    first. *)
Definition firstRejection {A} (rejected : option (nat * Exception))
    (promise : Started A) : option (nat * Exception) :=
  match promise with
  | RejectsAt time e =>
      match rejected with
      | Some (time0, _) => if (time <? time0)%nat then Some (time, e) else rejected
      | None => Some (time, e)
      end
  | _ => rejected
  end.

(** [actionsChain.map((action, idx) => ...)] of the initialization: a
    throw of the callback, be it of a getter, of [Object.hasOwn] or of an
    [init] that is not [async], ends the [map] at once. *)
Fixpoint initActions (actionParameters : list (gmap string string))
    (idx : nat) (actions : list BaseSingleFrameAction)
    (rejected : option (nat * Exception)) : Run (option (nat * Exception)) :=
  match actions with
  | [] => mret rejected
  | action :: others =>
      declaredParameters ← liftResult (parameters action);
      resolved ← liftResult
        (resolveParameters declaredParameters (actionParameters !! idx));
      emit (EvInit idx resolved);;
      match init action resolved with
      | Throws e => throw e
      | promise =>
          initActions actionParameters (S idx) others
            (firstRejection rejected promise)
      end
  end.

(** [actionsChain.map((action) => action.destroy())] *)
Fixpoint destroyActions (idx : nat) (actions : list BaseSingleFrameAction)
    (rejected : option (nat * Exception)) : Run (option (nat * Exception)) :=
  match actions with
  | [] => mret rejected
  | action :: others =>
      emit (EvDestroy idx);;
      match destroy action with
      | Throws e => throw e
      | promise =>
          destroyActions (S idx) others (firstRejection rejected promise)
      end
  end.

(** The reducer over the object states of a frame. *)
Definition collectIDs (acc : list JSValue) (val : ObjectState) : list JSValue :=
  match objectType val with
  | SHAPE => acc ++ [state_clientID val]
  | _ => acc
  end.

Definition frameCollectionIDsOf (states : list ObjectState) : list JSValue :=
  fold_left collectIDs states [].

Definition pickFrameCollection (exportedShapes : list SerializedShape)
    (frameCollectionIDs : list JSValue) : list SerializedShape :=
  List.filter (fun shape => includes frameCollectionIDs (clientID shape))
    exportedShapes.

(** [omit(shape, 'id')] *)
Definition omit_id (shape : SerializedShape) : SerializedShape :=
  {| id := None; clientID := clientID shape; frame := frame shape;
     rest := rest shape |}.

(** [for await (const action of actionsChain)] on one frame. *)
Fixpoint runChain (idx : nat) (actions : list BaseSingleFrameAction)
    (frameData : FrameData) (frameCollection : list SerializedShape)
  : Run (list SerializedShape) :=
  match actions with
  | [] => mret frameCollection
  | action :: others =>
      output ← call (EvRun idx (number frameData))
        (run action {| input_collection := frameCollection;
                       input_width := width frameData;
                       input_height := height frameData;
                       input_number := number frameData |});
      runChain (S idx) others frameData output
  end.

(** [Math.ceil(+(((frame - frameFrom) / totalFrames) * 100))], every
    operation in binary64.  The loop evaluates it for the frames of the
    range only, where [totalFrames] is at least 1 and the result at most
    100. *)
Definition progressAt (frameFrom frameTo frame : Z) : Z :=
  let totalFrames :=
    Binary64.add (Binary64.sub (inject_Z frameTo) (inject_Z frameFrom)) 1 in
  Qceiling
    (Binary64.mul
       (Binary64.div (Binary64.sub (inject_Z frame) (inject_Z frameFrom))
          totalFrames)
       100).

(** The frames visited by [for (frame = frameFrom; frame <= frameTo; frame++)]. *)
Definition frameRange (frameFrom frameTo : Z) : list Z :=
  map (fun k => frameFrom + Z.of_nat k) (seq 0 (Z.to_nat (frameTo - frameFrom + 1))).

Section Chain.

Variable instance : Session.
Variable actionsChain : list BaseSingleFrameAction.
Variable actionParameters : list (gmap string string).
Variables frameFrom frameTo : Z.
Variable filters : list string.
Variable cancelled : nat -> bool.

(** The body of the loop over frames, from the locals
    [handledCollection.shapes] and [modifiedCollectionIDs.shapes] to
    their values after the frame. *)
Definition processFrame (exportedShapes : list SerializedShape) (frame : Z)
    (handled : list SerializedShape) (modifiedIDs : list JSValue)
  : Run (list SerializedShape * list JSValue) :=
  frameData ← call (EvFrameGet frame) (frames_get instance frame);
  if deleted frameData then mret (handled, modifiedIDs)
  else
    states ← call (EvGetAnnotations frame) (getAnnotations instance frame filters);
    let frameCollectionIDs := frameCollectionIDsOf states in
    frameCollection ← runChain 0 actionsChain frameData
      (pickFrameCollection exportedShapes frameCollectionIDs);
    wrappedOnProgress instance "Actions are running"
      (progressAt frameFrom frameTo frame);;
    checkpoint cancelled;;
    mret (handled ++ map omit_id frameCollection,
          modifiedIDs ++ frameCollectionIDs).

Fixpoint iterateFrames (exportedShapes : list SerializedShape) (frames : list Z)
    (handled : list SerializedShape) (modifiedIDs : list JSValue)
  : Run (list SerializedShape * list JSValue) :=
  match frames with
  | [] => mret (handled, modifiedIDs)
  | frame :: later =>
      '(handled', modifiedIDs') ←
        processFrame exportedShapes frame handled modifiedIDs;
      iterateFrames exportedShapes later handled' modifiedIDs'
  end.

(** The [forEach] that re-emits the shapes no frame handled. *)
Definition carryOver (exportedShapes : list SerializedShape)
    (modifiedIDs : list JSValue) : list SerializedShape :=
  List.filter
    (fun shape => Number_isInteger (clientID shape)
                  && negb (includes modifiedIDs (clientID shape)))
    exportedShapes.

Definition chainNames : Result string :=
  match mapResult name actionsChain with
  | Ok names => Ok (String.concat " => " names)
  | Err e => Err e
  end.

(** The first statements of the [try] block, up to the end of
    [await Promise.all(...)]. *)
Definition initialization : Run unit :=
  showMessageWithPause instance "Actions initialization" 0 500;;
  checkpoint cancelled;;
  rejected ← initActions actionParameters 0 actionsChain None;
  awaitAll rejected.

(** The last statements of the [try] block, from the message that
    announces the commit. *)
Definition commit (exportedCollection : SerializedCollection)
    (handled : list SerializedShape) (modifiedIDs : list JSValue) : Run unit :=
  showMessageWithPause instance "Commiting handled objects" 100 1500;;
  checkpoint cancelled;;
  let handledShapes := handled ++ carryOver (shapes exportedCollection) modifiedIDs in
  call EvAnnotationsClear (annotations_clear instance);;
  modifyStore store_clear;;
  call EvActionsClear (actions_clear instance);;
  modifyStore store_clear_actions;;
  let imported := {| shapes := handledShapes;
                     tracks := tracks exportedCollection;
                     tags := tags exportedCollection |} in
  call (EvImport imported) (annotations_import instance imported);;
  modifyStore (store_import imported);;
  call EvEventClose (event_close instance).

Definition tryBlock : Run unit :=
  initialization;;
  call EvExport (collection_export instance);;
  st ← getStore;
  let exportedCollection := annotations st in
  '(handled, modifiedIDs) ←
    iterateFrames (shapes exportedCollection) (frameRange frameFrom frameTo) [] [];
  commit exportedCollection handled modifiedIDs.

Definition finallyBlock : Run unit :=
  wrappedOnProgress instance "Finalizing" 100;;
  rejected ← destroyActions 0 actionsChain None;
  awaitAll rejected.

Definition runSingleFrameChain : Run unit :=
  chain ← liftResult chainNames;
  call (EvLog frameFrom frameTo chain) (logger_log instance frameFrom frameTo chain);;
  tryFinally tryBlock finallyBlock.

Definition runActions : Run unit := runSingleFrameChain.

End Chain.

(** How the promise returned by an async function settles. *)
Inductive Settled :=
  | Resolved
  | Rejected (e : Exception).

Definition settle (c : Completion unit) : Settled :=
  match c with
  | Normal _ | Return => Resolved
  | Throw e => Rejected e
  end.

Definition startOf (st : Store) : RunState :=
  {| store := st; polls := 0; trace := [] |}.

(** ** Reading a trace *)

Definition isCommitEvent (ev : Event) : bool :=
  match ev with
  | EvAnnotationsClear | EvActionsClear | EvImport _ => true
  | _ => false
  end.

Definition isDestroyOf (idx : nat) (ev : Event) : bool :=
  match ev with
  | EvDestroy i => Nat.eqb i idx
  | _ => false
  end.

(** How often [destroy] was invoked on the action at a chain position. *)
Definition destroyCount (idx : nat) (evs : list Event) : nat :=
  length (List.filter (isDestroyOf idx) evs).

Definition percentages (evs : list Event) : list Z :=
  map snd (progressCalls evs).

(** ** Kinds of events *)

Inductive EventKind :=
  | KLog | KProgress | KPoll | KInit | KExport | KFrame | KRun
  | KCommit | KClose | KDestroy.

Definition kindOf (ev : Event) : EventKind :=
  match ev with
  | EvLog _ _ _ => KLog
  | EvProgress _ _ => KProgress
  | EvCancelled _ => KPoll
  | EvInit _ _ => KInit
  | EvExport => KExport
  | EvFrameGet _ | EvGetAnnotations _ => KFrame
  | EvRun _ _ => KRun
  | EvAnnotationsClear | EvActionsClear | EvImport _ => KCommit
  | EvEventClose => KClose
  | EvDestroy _ => KDestroy
  end.

(** Every event of the list is of one of the kinds. *)
Definition kindsWithin (kinds : list EventKind) (evs : list Event) : Prop :=
  Forall (fun ev => In (kindOf ev) kinds) evs.

Definition loopKinds : list EventKind := [KFrame; KRun; KProgress; KPoll].

(** The kinds of the calls that leave the annotation store alone. *)
Definition quietKinds : list EventKind :=
  [KProgress; KPoll; KInit; KExport; KFrame; KRun].

Definition tryKinds : list EventKind :=
  [KProgress; KPoll; KInit; KExport; KFrame; KRun; KCommit; KClose].

(** The answers of the cancellation predicate, in order. *)
Definition answers (evs : list Event) : list bool :=
  flat_map (fun ev => match ev with
                      | EvCancelled b => [b]
                      | _ => []
                      end) evs.

(** The collections handed to [annotations.import], in order. *)
Definition imports (evs : list Event) : list SerializedCollection :=
  flat_map (fun ev => match ev with
                      | EvImport c => [c]
                      | _ => []
                      end) evs.

(** ** The loop over frames seen as functions of the session *)

(** The chain on one frame without the trace. *)
Fixpoint chainResult (actions : list BaseSingleFrameAction)
    (frameData : FrameData) (frameCollection : list SerializedShape)
  : Result (list SerializedShape) :=
  match actions with
  | [] => Ok frameCollection
  | action :: others =>
      match run action {| input_collection := frameCollection;
                          input_width := width frameData;
                          input_height := height frameData;
                          input_number := number frameData |} with
      | Ok output => chainResult others frameData output
      | Err e => Err e
      end
  end.

Section Views.

Variable instance : Session.
Variable actionsChain : list BaseSingleFrameAction.
Variable filters : list string.
Variable exportedShapes : list SerializedShape.

(** The frame is delivered and not flagged deleted. *)
Definition isLive (f : Z) : bool :=
  match frames_get instance f with
  | Ok frameData => negb (deleted frameData)
  | Err _ => false
  end.

Definition isDeleted (f : Z) : bool :=
  match frames_get instance f with
  | Ok frameData => deleted frameData
  | Err _ => false
  end.

(** [frameCollectionIDs.shapes] of a frame. *)
Definition idsOnFrame (f : Z) : list JSValue :=
  match getAnnotations instance f filters with
  | Ok states => frameCollectionIDsOf states
  | Err _ => []
  end.

(** The frame-local working collection handed to the chain. *)
Definition workingCollection (f : Z) : list SerializedShape :=
  pickFrameCollection exportedShapes (idsOnFrame f).

(** What the chain leaves of it. *)
Definition frameOutput (f : Z) : list SerializedShape :=
  match frames_get instance f with
  | Ok frameData =>
      match chainResult actionsChain frameData (workingCollection f) with
      | Ok output => output
      | Err _ => []
      end
  | Err _ => []
  end.

(** [handledCollection.shapes] and [modifiedCollectionIDs.shapes] after
    the given frames. *)
Definition handledAfter (frames : list Z) : list SerializedShape :=
  flat_map (fun f => map omit_id (frameOutput f)) (List.filter isLive frames).

Definition modifiedAfter (frames : list Z) : list JSValue :=
  flat_map idsOnFrame (List.filter isLive frames).

End Views.

(** The argument of [annotations.import], from the exported collection and
    the two locals as the loop left them. *)
Definition importedCollection (exported : SerializedCollection)
    (handled : list SerializedShape) (modifiedIDs : list JSValue)
  : SerializedCollection :=
  {| shapes := handled ++ carryOver (shapes exported) modifiedIDs;
     tracks := tracks exported;
     tags := tags exported |}.

(** The collection a run over the given frames hands to
    [annotations.import]. *)
Definition committedCollection (instance : Session)
    (actionsChain : list BaseSingleFrameAction) (filters : list string)
    (exported : SerializedCollection) (frames : list Z) : SerializedCollection :=
  importedCollection exported
    (handledAfter instance actionsChain filters (shapes exported) frames)
    (modifiedAfter instance filters frames).

(** Whether the audit event of the run gets opened: the names of the chain
    can be read and [logger.log] succeeds. *)
Definition eventOpened (instance : Session)
    (actionsChain : list BaseSingleFrameAction) (frameFrom frameTo : Z) : bool :=
  match chainNames actionsChain with
  | Ok chain =>
      match logger_log instance frameFrom frameTo chain with
      | Ok _ => true
      | Err _ => false
      end
  | Err _ => false
  end.

(** What the [try] block can do: the events [evs] it adds, its completion
    [r] and the store [st'] it leaves, from the store [st] it starts with. *)
Definition TryOutcome (instance : Session)
    (actionsChain : list BaseSingleFrameAction) (frameFrom frameTo : Z)
    (filters : list string) (st : Store)
    (evs : list Event) (r : Completion unit) (st' : Store) : Prop :=
  let committed :=
    committedCollection instance actionsChain filters (annotations st)
      (frameRange frameFrom frameTo) in
  kindsWithin tryKinds evs
  /\ (exists reported tail,
        reported `sublist_of` frameRange frameFrom frameTo
        /\ (tail = [] \/ tail = [100])
        /\ percentages evs
           = 0 :: map (progressAt frameFrom frameTo) reported ++ tail)
  /\ (In true (answers evs) ->
        r = Return /\ st' = st /\ kindsWithin quietKinds evs)
  /\ (imports evs = [] \/ imports evs = [committed])
  /\ (r = Normal tt ->
        imports evs = [committed]
        /\ st' = {| annotations := committed; history := [] |}).

(** ** Worked inputs *)

Definition shapeA : SerializedShape :=
  {| id := Some 7; clientID := jsInt 1; frame := 0; rest := "rectangle" |}.

Definition shapeB : SerializedShape :=
  {| id := None; clientID := jsInt 2; frame := 1; rest := "polygon" |}.

Definition shapeC : SerializedShape :=
  {| id := None; clientID := JUndefined; frame := 5; rest := "points" |}.

Definition sampleStore : Store :=
  {| annotations := {| shapes := [shapeA; shapeB; shapeC];
                       tracks := ["track"]; tags := ["tag"] |};
     history := ["undo"] |}.

(** Frames 0 to 2, frame 1 flagged deleted; the filter matches [shapeA] on
    frame 0 and [shapeB] on frame 1. *)
Definition sampleSession : Session :=
  {| logger_log := fun _ _ _ => Ok tt;
     frames_get := fun f =>
       Ok {| width := 640; height := 480; number := f; deleted := f =? 1 |};
     getAnnotations := fun f _ =>
       Ok (if f =? 0 then [{| objectType := SHAPE; state_clientID := jsInt 1 |}]
           else if f =? 1 then [{| objectType := SHAPE; state_clientID := jsInt 2 |}]
           else []);
     collection_export := Ok tt;
     annotations_clear := Ok tt;
     actions_clear := Ok tt;
     annotations_import := fun _ => Ok tt;
     event_close := Ok tt;
     onProgress := fun _ _ _ => Ok tt |}.

(** The same session with a logger that rejects the event. *)
Definition failingLoggerSession : Session :=
  {| logger_log := fun _ _ _ => Err (ServerError "log rejected" 500);
     frames_get := frames_get sampleSession;
     getAnnotations := getAnnotations sampleSession;
     collection_export := Ok tt;
     annotations_clear := Ok tt;
     actions_clear := Ok tt;
     annotations_import := fun _ => Ok tt;
     event_close := Ok tt;
     onProgress := fun _ _ _ => Ok tt |}.

Definition neverCancelled : nat -> bool := fun _ => false.

(** An action with one numeric and one enumerated parameter that keeps its
    input. *)
Definition sampleAction : BaseSingleFrameAction :=
  {| init := fun _ => Fulfils tt;
     destroy := Fulfils tt;
     run := fun input => Ok (input_collection input);
     name := Ok "Scale";
     parameters := Ok (Some [("factor", {| type := NUMBER; values := [];
                                            defaultValue := "5" |});
                             ("mode", {| type := SELECT; values := ["fast"; "slow"];
                                         defaultValue := "fast" |})]) |}.

(** An action whose [init] rejects. *)
Definition failingAction : BaseSingleFrameAction :=
  {| init := fun _ => RejectsAt 1 (DataError "cannot initialize");
     destroy := Fulfils tt;
     run := fun input => Ok (input_collection input);
     name := Ok "Failing";
     parameters := Ok None |}.

(** A store whose shapes all carry an integer clientID. *)
Definition shapesOnlyStore : Store :=
  {| annotations := {| shapes := [shapeA; shapeB]; tracks := []; tags := [] |};
     history := [] |}.

(** Equality of shapes is decidable. *)
Definition shape_eq_dec : forall x y : SerializedShape, {x = y} + {x <> y}.
Proof. repeat decide equality. Defined.

(** The copies of [x] that the slices of a list by [P] hold, and their
    number. *)
Definition singles {F A} (P : F -> A -> bool) (x : A) (fs : list F) : list A :=
  flat_map (fun f => if P f x then [x] else []) fs.

Definition matches {F A} (P : F -> A -> bool) (x : A) (fs : list F) : nat :=
  length (List.filter (fun f => P f x) fs).

(** * Further views of a run *)

(** ** Further views of the module *)

(** The registry after a sequence of calls of [registerAction], whatever
    their outcomes. *)
Definition registerMany (candidates : list Candidate)
    (registeredActions : list BaseSingleFrameAction)
  : list BaseSingleFrameAction :=
  fold_left (fun registry candidate => snd (registerAction candidate registry))
    candidates registeredActions.

(** The actions that a sequence of calls of [registerAction] appends to a
    registry whose names are [names]: of the candidates, in the order of
    the calls, the instances whose name can be read and is neither
    registered nor the name of an instance appended before. *)
Fixpoint accepted (candidates : list Candidate) (names : list string)
  : list BaseSingleFrameAction :=
  match candidates with
  | [] => []
  | NotAnAction :: later => accepted later names
  | ActionInstance a :: later =>
      match name a with
      | Ok n =>
          if includesName names n then accepted later names
          else a :: accepted later (names ++ [n])
      | Err _ => accepted later names
      end
  end.

(** [val.objectType === ObjectType.SHAPE] *)
Definition isShapeState (val : ObjectState) : bool :=
  match objectType val with
  | SHAPE => true
  | _ => false
  end.

(** ** Events of given kinds *)

Definition EventKind_eq_dec : forall a b : EventKind, {a = b} + {a <> b}.
Proof. decide equality. Defined.

Definition kindIn (kinds : list EventKind) (ev : Event) : bool :=
  existsb (fun k => if EventKind_eq_dec k (kindOf ev) then true else false) kinds.

(** The events of the given kinds, in the order of the trace. *)
Definition eventsOf (kinds : list EventKind) (evs : list Event) : list Event :=
  List.filter (kindIn kinds) evs.

(** ** The initialization seen as functions of the chain *)

(** What the callback of the initialization resolves for the action at a
    chain position, before it calls [init]. *)
Definition resolvedAt (actionParameters : list (gmap string string))
    (idx : nat) (action : BaseSingleFrameAction)
  : Result (gmap string ParameterValue) :=
  match parameters action with
  | Ok declaredParameters =>
      resolveParameters declaredParameters (actionParameters !! idx)
  | Err e => Err e
  end.

(** The calls of [init] that [actionsChain.map] gets to make. *)
Fixpoint initEvents (actionParameters : list (gmap string string))
    (idx : nat) (actions : list BaseSingleFrameAction) : list Event :=
  match actions with
  | [] => []
  | action :: others =>
      match resolvedAt actionParameters idx action with
      | Ok resolved =>
          EvInit idx resolved
          :: match init action resolved with
             | Throws _ => []
             | _ => initEvents actionParameters (S idx) others
             end
      | Err _ => []
      end
  end.

(** How [actionsChain.map] ends: with the first rejection among the
    promises, if any, or with what the callback threw. *)
Fixpoint initResult (actionParameters : list (gmap string string))
    (idx : nat) (actions : list BaseSingleFrameAction)
    (rejected : option (nat * Exception))
  : Completion (option (nat * Exception)) :=
  match actions with
  | [] => Normal rejected
  | action :: others =>
      match resolvedAt actionParameters idx action with
      | Ok resolved =>
          match init action resolved with
          | Throws e => Throw e
          | promise =>
              initResult actionParameters (S idx) others
                (firstRejection rejected promise)
          end
      | Err e => Throw e
      end
  end.

(** The calls of [run] that the chain gets to make on a frame. *)
Fixpoint runEvents (idx : nat) (actions : list BaseSingleFrameAction)
    (frameData : FrameData) (frameCollection : list SerializedShape)
  : list Event :=
  match actions with
  | [] => []
  | action :: others =>
      EvRun idx (number frameData)
      :: match run action {| input_collection := frameCollection;
                             input_width := width frameData;
                             input_height := height frameData;
                             input_number := number frameData |} with
         | Ok output => runEvents (S idx) others frameData output
         | Err _ => []
         end
  end.

(** ** One frame of the loop seen as functions of the session *)

Section FrameViews.

Variable instance : Session.
Variable actionsChain : list BaseSingleFrameAction.
Variables frameFrom frameTo : Z.
Variable filters : list string.
Variable exportedShapes : list SerializedShape.

(** The error that ends the loop on a frame, if there is one. *)
Definition frameError (f : Z) : option Exception :=
  match frames_get instance f with
  | Err e => Some e
  | Ok frameData =>
      if deleted frameData then None
      else
        match getAnnotations instance f filters with
        | Err e => Some e
        | Ok states =>
            match chainResult actionsChain frameData
                    (pickFrameCollection exportedShapes (frameCollectionIDsOf states))
            with
            | Ok _ => None
            | Err e => Some e
            end
        end
  end.

(** The frame gets as far as the progress report and the cancellation
    poll. *)
Definition isPolled (f : Z) : bool :=
  isLive instance f
  && match frameError f with
     | None => true
     | Some _ => false
     end.

(** The events of one pass through the loop body, given the answer of the
    cancellation predicate should the pass reach the poll. *)
Definition frameTrace (f : Z) (answer : bool) : list Event :=
  match frames_get instance f with
  | Err _ => [EvFrameGet f]
  | Ok frameData =>
      if deleted frameData then [EvFrameGet f]
      else
        match getAnnotations instance f filters with
        | Err _ => [EvFrameGet f; EvGetAnnotations f]
        | Ok states =>
            let frameCollection :=
              pickFrameCollection exportedShapes (frameCollectionIDsOf states) in
            [EvFrameGet f; EvGetAnnotations f]
              ++ runEvents 0 actionsChain frameData frameCollection
              ++ match chainResult actionsChain frameData frameCollection with
                 | Ok _ => [EvProgress "Actions are running"
                              (progressAt frameFrom frameTo f);
                            EvCancelled answer]
                 | Err _ => []
                 end
        end
  end.

(** The events of a pass up to its progress report, for a frame that gets
    there. *)
Definition frameReport (f : Z) : list Event :=
  match frames_get instance f with
  | Ok frameData =>
      match getAnnotations instance f filters with
      | Ok states =>
          [EvFrameGet f; EvGetAnnotations f]
            ++ runEvents 0 actionsChain frameData
                 (pickFrameCollection exportedShapes (frameCollectionIDsOf states))
            ++ [EvProgress "Actions are running" (progressAt frameFrom frameTo f)]
      | Err _ => []
      end
  | Err _ => []
  end.

(** The calls to the frame provider and to [getAnnotations] for a frame. *)
Definition frameCalls (f : Z) : list Event :=
  if isLive instance f then [EvFrameGet f; EvGetAnnotations f] else [EvFrameGet f].

(** The calls of [run] on a frame whose chain succeeds: every action once,
    in chain order, with the number the frame provider gave. *)
Definition frameRuns (f : Z) : list Event :=
  match frames_get instance f with
  | Ok frameData =>
      map (fun idx => EvRun idx (number frameData)) (seq 0 (length actionsChain))
  | Err _ => []
  end.

End FrameViews.

(** A run state after more polls and more events. *)
Definition extend (s : RunState) (asked : nat) (evs : list Event) : RunState :=
  {| store := store s; polls := polls s + asked; trace := trace s ++ evs |}.

(** ** The ways through the loop over frames *)

Section LoopTraces.

Variable instance : Session.
Variable actionsChain : list BaseSingleFrameAction.
Variables frameFrom frameTo : Z.
Variable filters : list string.
Variable cancelled : nat -> bool.
Variable exportedShapes : list SerializedShape.

(** The events of the passes that end neither by an error nor by a
    cancellation. *)
Definition passes (frames : list Z) : list Event :=
  flat_map (fun f => frameTrace instance actionsChain frameFrom frameTo filters
                       exportedShapes f false) frames.

(** The loop goes through all frames, or leaves at a frame: by a
    cancellation after its chain, by an error of the frame provider, of
    [getAnnotations] or of the chain, or by a throw of the progress
    report. *)
Inductive LoopTrace (frames : list Z)
    (handled : list SerializedShape) (modifiedIDs : list JSValue)
  : list Event -> Completion (list SerializedShape * list JSValue) -> Prop :=
  | LoopCompleted evs r :
      List.Forall (fun f => frameError instance actionsChain filters
                              exportedShapes f = None) frames ->
      evs = passes frames ->
      r = Normal (handled ++ handledAfter instance actionsChain filters
                               exportedShapes frames,
                  modifiedIDs ++ modifiedAfter instance filters frames) ->
      LoopTrace frames handled modifiedIDs evs r
  | LoopCancelled before f after p evs :
      frames = before ++ f :: after ->
      List.Forall (fun g => frameError instance actionsChain filters
                              exportedShapes g = None) before ->
      isPolled instance actionsChain filters exportedShapes f = true ->
      cancelled p = true ->
      evs = passes before
              ++ frameTrace instance actionsChain frameFrom frameTo filters
                   exportedShapes f true ->
      LoopTrace frames handled modifiedIDs evs Return
  | LoopFailed before f after e evs :
      frames = before ++ f :: after ->
      List.Forall (fun g => frameError instance actionsChain filters
                              exportedShapes g = None) before ->
      frameError instance actionsChain filters exportedShapes f = Some e ->
      evs = passes before
              ++ frameTrace instance actionsChain frameFrom frameTo filters
                   exportedShapes f false ->
      LoopTrace frames handled modifiedIDs evs (Throw e)
  | LoopReportFails before f after n e evs :
      frames = before ++ f :: after ->
      List.Forall (fun g => frameError instance actionsChain filters
                              exportedShapes g = None) before ->
      isPolled instance actionsChain filters exportedShapes f = true ->
      onProgress instance n "Actions are running"
        (progressAt frameFrom frameTo f) = Err e ->
      evs = passes before
              ++ frameReport instance actionsChain frameFrom frameTo filters
                   exportedShapes f ->
      LoopTrace frames handled modifiedIDs evs (Throw e).

End LoopTraces.

(** ** The ways through a run *)

Definition announceInit : Event := EvProgress "Actions initialization" 0.

Definition announceCommit : Event := EvProgress "Commiting handled objects" 100.

Definition announceFinal : Event := EvProgress "Finalizing" 100.

(** The error that ends the initialization, if there is one: what the
    callback threw, or else the first rejection of an [init]. *)
Definition initFailure (actionParameters : list (gmap string string))
    (actionsChain : list BaseSingleFrameAction) : option Exception :=
  match initResult actionParameters 0 actionsChain None with
  | Normal (Some (_, e)) => Some e
  | Normal None => None
  | Return => None
  | Throw e => Some e
  end.

(** The store calls of the commit once the last checkpoint is passed, up to
    the first that fails, and how they end. *)
Definition commitSteps (instance : Session) (imported : SerializedCollection)
  : list Event * Completion unit :=
  match annotations_clear instance with
  | Err e => ([EvAnnotationsClear], Throw e)
  | Ok _ =>
      match actions_clear instance with
      | Err e => ([EvAnnotationsClear; EvActionsClear], Throw e)
      | Ok _ =>
          match annotations_import instance imported with
          | Err e => ([EvAnnotationsClear; EvActionsClear; EvImport imported], Throw e)
          | Ok _ =>
              ([EvAnnotationsClear; EvActionsClear; EvImport imported; EvEventClose],
               match event_close instance with
               | Ok _ => Normal tt
               | Err e => Throw e
               end)
          end
      end
  end.

(** The number of calls of [destroy] that [actionsChain.map] gets to make:
    a [destroy] that throws ends the [map]. *)
Fixpoint destroyCalls (actions : list BaseSingleFrameAction) : nat :=
  match actions with
  | [] => 0
  | action :: others =>
      S (match destroy action with
         | Throws _ => 0
         | _ => destroyCalls others
         end)
  end.

(** How the [map] over [destroy] ends. *)
Fixpoint destroyResult (actions : list BaseSingleFrameAction)
    (rejected : option (nat * Exception))
  : Completion (option (nat * Exception)) :=
  match actions with
  | [] => Normal rejected
  | action :: others =>
      match destroy action with
      | Throws e => Throw e
      | promise => destroyResult others (firstRejection rejected promise)
      end
  end.

(** The error that ends the cleanup of the actions, if there is one: what
    a [destroy] threw, or else the first rejection in time. *)
Definition destroyFailure (actionsChain : list BaseSingleFrameAction)
  : option Exception :=
  match destroyResult actionsChain None with
  | Normal (Some (_, e)) => Some e
  | Normal None => None
  | Return => None
  | Throw e => Some e
  end.

(** The [finally] block after [reported] calls of the progress wrapper:
    the number of calls of [destroy] it makes and the error it ends with,
    if it does. *)
Definition cleanupCalls (instance : Session)
    (actionsChain : list BaseSingleFrameAction) (reported : nat) : nat :=
  match onProgress instance reported "Finalizing" 100 with
  | Ok _ => destroyCalls actionsChain
  | Err _ => 0%nat
  end.

Definition cleanupFailure (instance : Session)
    (actionsChain : list BaseSingleFrameAction) (reported : nat)
  : option Exception :=
  match onProgress instance reported "Finalizing" 100 with
  | Ok _ => destroyFailure actionsChain
  | Err e => Some e
  end.

Section TryTraces.

Variable instance : Session.
Variable actionsChain : list BaseSingleFrameAction.
Variable actionParameters : list (gmap string string).
Variables frameFrom frameTo : Z.
Variable filters : list string.
Variable cancelled : nat -> bool.

(** The events of an initialization that passes its checkpoint. *)
Definition initPhase : list Event :=
  [announceInit; EvCancelled false] ++ initEvents actionParameters 0 actionsChain.

(** The [try] block, entered after [asked] polls and [reported] calls of
    the progress wrapper, ends at its first message, at its first
    checkpoint, in the initialization, at the export, in the loop over
    frames, at the message or at the checkpoint before the commit, or in
    the commit. *)
Inductive TryTrace (st : Store) (asked reported : nat)
  : list Event -> Completion unit -> Prop :=
  | TryAnnounceFails e evs :
      onProgress instance reported "Actions initialization" 0 = Err e ->
      evs = [announceInit] ->
      TryTrace st asked reported evs (Throw e)
  | TryCancelledAtStart evs :
      cancelled asked = true ->
      evs = [announceInit; EvCancelled true] ->
      TryTrace st asked reported evs Return
  | TryInitFails e evs :
      cancelled asked = false ->
      initFailure actionParameters actionsChain = Some e ->
      evs = initPhase ->
      TryTrace st asked reported evs (Throw e)
  | TryExportFails e evs :
      cancelled asked = false ->
      initFailure actionParameters actionsChain = None ->
      collection_export instance = Err e ->
      evs = initPhase ++ [EvExport] ->
      TryTrace st asked reported evs (Throw e)
  | TryCancelledInLoop evsL evs :
      cancelled asked = false ->
      initFailure actionParameters actionsChain = None ->
      collection_export instance = Ok tt ->
      LoopTrace instance actionsChain frameFrom frameTo filters cancelled
        (shapes (annotations st)) (frameRange frameFrom frameTo) [] [] evsL Return ->
      evs = initPhase ++ [EvExport] ++ evsL ->
      TryTrace st asked reported evs Return
  | TryFrameFails evsL e evs :
      cancelled asked = false ->
      initFailure actionParameters actionsChain = None ->
      collection_export instance = Ok tt ->
      LoopTrace instance actionsChain frameFrom frameTo filters cancelled
        (shapes (annotations st)) (frameRange frameFrom frameTo) [] [] evsL (Throw e) ->
      evs = initPhase ++ [EvExport] ++ evsL ->
      TryTrace st asked reported evs (Throw e)
  | TryCommitAnnounceFails n e evs :
      cancelled asked = false ->
      initFailure actionParameters actionsChain = None ->
      collection_export instance = Ok tt ->
      List.Forall (fun f => frameError instance actionsChain filters
                              (shapes (annotations st)) f = None)
        (frameRange frameFrom frameTo) ->
      onProgress instance n "Commiting handled objects" 100 = Err e ->
      evs = initPhase ++ [EvExport]
              ++ passes instance actionsChain frameFrom frameTo filters
                   (shapes (annotations st)) (frameRange frameFrom frameTo)
              ++ [announceCommit] ->
      TryTrace st asked reported evs (Throw e)
  | TryCancelledBeforeCommit p evs :
      cancelled asked = false ->
      initFailure actionParameters actionsChain = None ->
      collection_export instance = Ok tt ->
      List.Forall (fun f => frameError instance actionsChain filters
                              (shapes (annotations st)) f = None)
        (frameRange frameFrom frameTo) ->
      cancelled p = true ->
      evs = initPhase ++ [EvExport]
              ++ passes instance actionsChain frameFrom frameTo filters
                   (shapes (annotations st)) (frameRange frameFrom frameTo)
              ++ [announceCommit; EvCancelled true] ->
      TryTrace st asked reported evs Return
  | TryCommits evs r :
      cancelled asked = false ->
      initFailure actionParameters actionsChain = None ->
      collection_export instance = Ok tt ->
      List.Forall (fun f => frameError instance actionsChain filters
                              (shapes (annotations st)) f = None)
        (frameRange frameFrom frameTo) ->
      evs = initPhase ++ [EvExport]
              ++ passes instance actionsChain frameFrom frameTo filters
                   (shapes (annotations st)) (frameRange frameFrom frameTo)
              ++ [announceCommit; EvCancelled false]
              ++ fst (commitSteps instance
                        (committedCollection instance actionsChain filters
                           (annotations st) (frameRange frameFrom frameTo))) ->
      r = snd (commitSteps instance
                 (committedCollection instance actionsChain filters
                    (annotations st) (frameRange frameFrom frameTo))) ->
      TryTrace st asked reported evs r.

End TryTraces.

(** An action that works but whose [destroy] rejects. *)
Definition leakyAction : BaseSingleFrameAction :=
  {| init := fun _ => Fulfils tt;
     destroy := RejectsAt 1 (DataError "cannot release");
     run := fun input => Ok (input_collection input);
     name := Ok "Leaky";
     parameters := Ok None |}.

(** An action that works but whose [destroy], not being [async], throws
    when it is called. *)
Definition abruptAction : BaseSingleFrameAction :=
  {| init := fun _ => Fulfils tt;
     destroy := Throws (DataError "cannot stop");
     run := fun input => Ok (input_collection input);
     name := Ok "Abrupt";
     parameters := Ok None |}.

(** The callback of the initialization gets past every action of the
    list, the first of which is at chain position [idx]: the parameters
    are resolved and [init] returns a promise. *)
Definition allStarted (actionParameters : list (gmap string string))
    (idx : nat) (actions : list BaseSingleFrameAction) : Prop :=
  forall j a, actions !! j = Some a ->
    exists resolved,
      resolvedAt actionParameters (idx + j) a = Ok resolved
      /\ forall e, init a resolved <> Throws e.

(** Every [init] of the list is called and resolves. *)
Definition allInitialized (actionParameters : list (gmap string string))
    (idx : nat) (actions : list BaseSingleFrameAction) : Prop :=
  forall j a, actions !! j = Some a ->
    exists resolved,
      resolvedAt actionParameters (idx + j) a = Ok resolved
      /\ init a resolved = Fulfils tt.

Section FrameProjections.

Variable instance : Session.
Variable actionsChain : list BaseSingleFrameAction.
Variables frameFrom frameTo : Z.
Variable filters : list string.
Variable exportedShapes : list SerializedShape.

(** The progress call made for a frame. *)
Definition runningCall (f : Z) : string * Z :=
  ("Actions are running", progressAt frameFrom frameTo f).

(** The calls of [run] made on a frame. *)
Definition runsOn (f : Z) : list Event :=
  eventsOf [KRun]
    (frameTrace instance actionsChain frameFrom frameTo filters exportedShapes
       f false).

End FrameProjections.

(** * Properties *)

(** ** Unary plus on strings *)

Example toNumber_empty : StringToNumber.toNumber "" = numOfZ 0.
Proof. reflexivity. Qed.

Example toNumber_5 : StringToNumber.toNumber "5" = numOfZ 5.
Proof. reflexivity. Qed.

Example toNumber_blank : StringToNumber.toNumber "  " = numOfZ 0.
Proof. reflexivity. Qed.

Example toNumber_abc : StringToNumber.toNumber "abc" = JNaN.
Proof. reflexivity. Qed.

Example toNumber_hex : StringToNumber.toNumber "0x1F" = numOfZ 31.
Proof. reflexivity. Qed.

Example toNumber_frac :
  numEq (StringToNumber.toNumber " -1.5e1 ") (numOfZ (-15)) = true.
Proof. vm_compute. reflexivity. Qed.

Example toNumber_5px : StringToNumber.toNumber "5px" = JNaN.
Proof. reflexivity. Qed.

(** A literal beyond the largest binary64 number is an infinity. *)
Example toNumber_overflow :
  StringToNumber.toNumber "1e400" = JInfinity false
  /\ StringToNumber.toNumber "-1e400" = JInfinity true.
Proof. vm_compute. split; reflexivity. Qed.

(** A literal that is no binary64 number is rounded: [2^53 + 1] is a tie
    and goes to the even significand, and [0.1] is no binary fraction. *)
Example toNumber_rounds :
  StringToNumber.toNumber "9007199254740993" = numOfZ 9007199254740992
  /\ StringToNumber.toNumber "0.1"
     = JFinite (3602879701896397 # 36028797018963968).
Proof. vm_compute. split; reflexivity. Qed.

Example toNumber_underflow : StringToNumber.toNumber "1e-400" = numOfZ 0.
Proof. vm_compute. reflexivity. Qed.

Example toNumber_negative_zero : StringToNumber.toNumber "-0" = JNegZero.
Proof. vm_compute. reflexivity. Qed.

(** The no-break space U+00A0, bytes 194 and 160 in UTF-8, is white space,
    at both ends of the text. *)
Example toNumber_no_break_space :
  StringToNumber.toNumber
    (String (ascii_of_nat 194) (String (ascii_of_nat 160)
       (String "5" (String (ascii_of_nat 194) (String (ascii_of_nat 160) EmptyString)))))
  = numOfZ 5.
Proof. vm_compute. reflexivity. Qed.

(** The inverted exclamation mark U+00A1, bytes 194 and 161, shares its
    first byte with the no-break space and is no white space. *)
Example toNumber_no_white_space :
  StringToNumber.toNumber
    (String (ascii_of_nat 194) (String (ascii_of_nat 161) "5")) = JNaN.
Proof. vm_compute. reflexivity. Qed.

(** ** Binary64 rounding *)

Module Binary64Facts.
Import Binary64.
Local Open Scope Q_scope.

Lemma pow2_pos e : 0 < pow2 e.
Proof. apply Qpower_0_lt. reflexivity. Qed.

Lemma pow2_plus a b : pow2 (a + b) == pow2 a * pow2 b.
Proof. apply Qpower_plus. discriminate. Qed.

Lemma pow2_le a b : (a <= b)%Z -> pow2 a <= pow2 b.
Proof. intros H. apply Qpower_le_compat_l; [exact H | discriminate]. Qed.

Lemma pow2_lt_inv a b : pow2 a < pow2 b -> (a < b)%Z.
Proof. intros H. apply (Qpower_lt_compat_l_inv 2); [exact H | reflexivity]. Qed.

Lemma pow2_Z n : (0 <= n)%Z -> pow2 n == inject_Z (2 ^ n).
Proof. intros H. unfold pow2. rewrite Zpower_Qpower by exact H. reflexivity. Qed.

Lemma roundHalfEven_bounds m :
  (Qfloor m <= roundHalfEven m <= Qfloor m + 1)%Z.
Proof.
  unfold roundHalfEven.
  destruct (Qcompare _ _); [destruct (Z.even _) | |]; lia.
Qed.

Lemma roundHalfEven_Z z : roundHalfEven (inject_Z z) = z.
Proof.
  unfold roundHalfEven. rewrite Qfloor_Z.
  replace (Qcompare (inject_Z z - inject_Z z) (1 # 2)) with Lt; [reflexivity |].
  symmetry. apply (proj1 (Qlt_alt _ _)).
  setoid_replace (inject_Z z - inject_Z z) with 0 using relation Qeq by ring. reflexivity.
Qed.

Lemma roundHalfEven_le a b : a <= b -> (roundHalfEven a <= roundHalfEven b)%Z.
Proof.
  intros Hab.
  pose proof (Qfloor_resp_le _ _ Hab) as Hf.
  pose proof (roundHalfEven_bounds a) as Ha.
  pose proof (roundHalfEven_bounds b) as Hb.
  destruct (Z.eq_dec (Qfloor a) (Qfloor b)) as [Heq | Hne]; [| lia].
  unfold roundHalfEven. rewrite <- Heq.
  destruct (Qcompare (a - inject_Z (Qfloor a)) (1 # 2)) eqn:Ca;
    destruct (Qcompare (b - inject_Z (Qfloor a)) (1 # 2)) eqn:Cb;
    first [apply (proj2 (Qeq_alt _ _)) in Ca | apply (proj2 (Qlt_alt _ _)) in Ca
          | apply (proj2 (Qgt_alt _ _)) in Ca];
    first [apply (proj2 (Qeq_alt _ _)) in Cb | apply (proj2 (Qlt_alt _ _)) in Cb
          | apply (proj2 (Qgt_alt _ _)) in Cb];
    try (destruct (Z.even (Qfloor a))); first [lia | exfalso; lra].
Qed.

Lemma roundHalfEven_nonneg m : 0 <= m -> (0 <= roundHalfEven m)%Z.
Proof.
  intros H. apply roundHalfEven_le in H.
  change (roundHalfEven 0) with (roundHalfEven (inject_Z 0)) in H.
  rewrite roundHalfEven_Z in H. exact H.
Qed.

Lemma binade_spec x :
  0 < x -> pow2 (binade x) <= x /\ x < pow2 (binade x + 1).
Proof.
  intros Hx. destruct x as [p q]. unfold binade. cbn [Qnum Qden].
  assert (Hp : (0 < p)%Z) by (unfold Qlt in Hx; simpl in Hx; lia).
  set (lp := Z.log2 p). set (lq := Z.log2 (Z.pos q)).
  assert (Hlp : (0 <= lp)%Z) by apply Z.log2_nonneg.
  assert (Hlq : (0 <= lq)%Z) by apply Z.log2_nonneg.
  destruct (Z.log2_spec p Hp) as [Hp1 Hp2]. fold lp in Hp1, Hp2.
  destruct (Z.log2_spec (Z.pos q) eq_refl) as [Hq1 Hq2]. fold lq in Hq1, Hq2.
  assert (HA := pow2_pos lp). assert (HB := pow2_pos lq).
  assert (Hp1' : pow2 lp <= inject_Z p)
    by (rewrite pow2_Z by lia; rewrite <- Zle_Qle; exact Hp1).
  assert (Hp2' : inject_Z p < 2 * pow2 lp).
  { rewrite Z.pow_succ_r in Hp2 by lia. rewrite pow2_Z by lia.
    change 2 with (inject_Z 2). rewrite <- inject_Z_mult, <- Zlt_Qlt. exact Hp2. }
  assert (Hq1' : pow2 lq <= inject_Z (Z.pos q))
    by (rewrite pow2_Z by lia; rewrite <- Zle_Qle; exact Hq1).
  assert (Hq2' : inject_Z (Z.pos q) < 2 * pow2 lq).
  { rewrite Z.pow_succ_r in Hq2 by lia. rewrite pow2_Z by lia.
    change 2 with (inject_Z 2). rewrite <- inject_Z_mult, <- Zlt_Qlt. exact Hq2. }
  assert (Hx' : p # q == inject_Z p / inject_Z (Z.pos q)) by apply Qmake_Qdiv.
  assert (Hq0 : 0 < inject_Z (Z.pos q)) by reflexivity.
  assert (Hl : pow2 (lp - lq) == pow2 lp / pow2 lq)
    by (apply Qpower_minus; discriminate).
  assert (Hl1 : pow2 (lp - lq + 1) == 2 * (pow2 lp / pow2 lq))
    by (rewrite pow2_plus, Hl; unfold pow2 at 3; simpl; ring).
  assert (Hl0 : pow2 (lp - lq) == 2 * pow2 (lp - lq - 1)).
  { replace (lp - lq)%Z with (lp - lq - 1 + 1)%Z at 1 by lia.
    rewrite pow2_plus. unfold pow2 at 2. simpl. ring. }
  assert (Hup : inject_Z p / inject_Z (Z.pos q) < 2 * (pow2 lp / pow2 lq)).
  { apply Qlt_shift_div_r; [exact Hq0 |].
    setoid_replace (2 * (pow2 lp / pow2 lq) * inject_Z (Z.pos q))
      with ((2 * pow2 lp) * (inject_Z (Z.pos q) / pow2 lq))
      using relation Qeq by (field; lra).
    assert (1 <= inject_Z (Z.pos q) / pow2 lq)
      by (apply Qle_shift_div_l; [exact HB | lra]).
    nra. }
  assert (Hlow : pow2 lp / pow2 lq <= 2 * (inject_Z p / inject_Z (Z.pos q))).
  { apply Qle_shift_div_r; [exact HB |].
    setoid_replace (2 * (inject_Z p / inject_Z (Z.pos q)) * pow2 lq)
      with (inject_Z p * ((2 * pow2 lq) / inject_Z (Z.pos q)))
      using relation Qeq by (field; lra).
    assert (1 <= (2 * pow2 lq) / inject_Z (Z.pos q))
      by (apply Qle_shift_div_l; [exact Hq0 | lra]).
    nra. }
  destruct (Qle_bool (pow2 (lp - lq)) (p # q)) eqn:Hc.
  - apply Qle_bool_iff in Hc. split; [exact Hc |].
    rewrite Hl1, Hx'. exact Hup.
  - assert (Hlt : p # q < pow2 (lp - lq)).
    { apply Qnot_le_lt. intros H. apply Qle_bool_iff in H. congruence. }
    replace (lp - lq - 1 + 1)%Z with (lp - lq)%Z by lia.
    split; [| exact Hlt].
    rewrite Hx'. rewrite Hl in Hl0. lra.
Qed.

Lemma binade_le x y : 0 < x -> x <= y -> (binade x <= binade y)%Z.
Proof.
  intros Hx Hxy.
  destruct (binade_spec x Hx) as [Hx1 _].
  destruct (binade_spec y) as [_ Hy2]; [lra |].
  assert (H : pow2 (binade x) < pow2 (binade y + 1)) by lra.
  apply pow2_lt_inv in H. lia.
Qed.

Lemma ulpExponent_le x y : 0 < x -> x <= y -> (ulpExponent x <= ulpExponent y)%Z.
Proof.
  intros Hx Hxy. unfold ulpExponent. pose proof (binade_le x y Hx Hxy). lia.
Qed.

Lemma scaled_upper x : 0 < x -> x / pow2 (ulpExponent x) <= inject_Z (2 ^ 53).
Proof.
  intros Hx. destruct (binade_spec x Hx) as [_ H2].
  apply Qle_shift_div_r; [apply pow2_pos |].
  rewrite <- pow2_Z by lia. rewrite <- pow2_plus.
  apply Qlt_le_weak. eapply Qlt_le_trans; [exact H2 |].
  apply pow2_le. unfold ulpExponent. lia.
Qed.

Lemma scaled_lower x :
  0 < x -> (-1074 < ulpExponent x)%Z ->
  inject_Z (2 ^ 52) <= x / pow2 (ulpExponent x).
Proof.
  intros Hx He. destruct (binade_spec x Hx) as [H1 _].
  apply Qle_shift_div_l; [apply pow2_pos |].
  rewrite <- pow2_Z by lia. rewrite <- pow2_plus.
  eapply Qle_trans; [| exact H1].
  apply pow2_le. unfold ulpExponent in *. lia.
Qed.

Lemma roundPositive_nonneg x : 0 < x -> 0 <= roundPositive x.
Proof.
  intros Hx. unfold roundPositive.
  apply Qmult_le_0_compat; [| apply Qlt_le_weak, pow2_pos].
  change 0 with (inject_Z 0). rewrite <- Zle_Qle. apply roundHalfEven_nonneg.
  apply Qle_shift_div_l; [apply pow2_pos | lra].
Qed.

Lemma roundPositive_le x y : 0 < x -> x <= y -> roundPositive x <= roundPositive y.
Proof.
  intros Hx Hxy. assert (Hy : 0 < y) by lra.
  pose proof (ulpExponent_le x y Hx Hxy) as He.
  unfold roundPositive.
  set (ex := ulpExponent x) in *. set (ey := ulpExponent y) in *.
  destruct (Z.eq_dec ex ey) as [Heq | Hne].
  - rewrite <- Heq.
    apply Qmult_le_compat_r; [| apply Qlt_le_weak, pow2_pos].
    rewrite <- Zle_Qle. apply roundHalfEven_le.
    apply Qmult_le_compat_r; [exact Hxy |].
    apply Qlt_le_weak, Qinv_lt_0_compat, pow2_pos.
  - assert (Hlt : (ex + 1 <= ey)%Z) by lia.
    apply Qle_trans with (inject_Z (2 ^ 53) * pow2 ex).
    + apply Qmult_le_compat_r; [| apply Qlt_le_weak, pow2_pos].
      rewrite <- Zle_Qle. rewrite <- (roundHalfEven_Z (2 ^ 53)).
      apply roundHalfEven_le. apply scaled_upper. exact Hx.
    + apply Qle_trans with (inject_Z (2 ^ 52) * pow2 ey).
      * rewrite <- !pow2_Z by lia. rewrite <- !pow2_plus. apply pow2_le. lia.
      * apply Qmult_le_compat_r; [| apply Qlt_le_weak, pow2_pos].
        rewrite <- Zle_Qle. rewrite <- (roundHalfEven_Z (2 ^ 52)).
        apply roundHalfEven_le. apply scaled_lower; [exact Hy |].
        fold ey. unfold ex, ulpExponent in Hlt. unfold ey in *. unfold ulpExponent in *. lia.
Qed.

Lemma Qnum_pos x : 0 < x -> exists p, Qnum x = Z.pos p.
Proof.
  destruct x as [[| p | p] q]; unfold Qlt; simpl; intros H; try lia. eauto.
Qed.

Lemma round_pos x : 0 < x -> round x == roundPositive x.
Proof.
  intros Hx. unfold round. destruct (Qnum_pos x Hx) as [p ->]. apply Qred_correct.
Qed.

Lemma round_zero x : x == 0 -> round x = 0.
Proof.
  intros Hx. unfold round. destruct x as [[| p | p] q]; unfold Qeq in Hx; simpl in *;
    [reflexivity | lia | lia].
Qed.

(** Rounding is monotone on the numbers that are not negative. *)
Lemma round_le x y : 0 <= x -> x <= y -> round x <= round y.
Proof.
  intros Hx Hxy.
  destruct (Qlt_le_dec 0 x) as [Hpos | Hz].
  - rewrite (round_pos x Hpos), (round_pos y) by lra.
    apply roundPositive_le; assumption.
  - rewrite (round_zero x) by lra.
    destruct (Qlt_le_dec 0 y) as [Hy | Hy].
    + rewrite (round_pos y Hy). apply roundPositive_nonneg, Hy.
    + rewrite (round_zero y) by lra. lra.
Qed.

Lemma round_nonneg x : 0 <= x -> 0 <= round x.
Proof.
  intros Hx. change 0 with (round 0) at 1. apply round_le; [lra | exact Hx].
Qed.


Lemma roundHalfEven_comp a b : a == b -> roundHalfEven a = roundHalfEven b.
Proof.
  intros H. apply Z.le_antisymm; apply roundHalfEven_le; rewrite H; apply Qle_refl.
Qed.

Lemma roundHalfEven_upper x : 0 < x ->
  (roundHalfEven (x / pow2 (ulpExponent x)) <= 2 ^ 53)%Z.
Proof.
  intros Hx. pose proof (roundHalfEven_le _ _ (scaled_upper x Hx)) as H.
  rewrite roundHalfEven_Z in H. exact H.
Qed.

(** A positive multiple of the spacing at its own magnitude is left as it
    is. *)
Lemma roundPositive_multiple y N :
  (0 < N)%Z -> y == inject_Z N * pow2 (ulpExponent y) -> roundPositive y == y.
Proof.
  intros HN Hy. unfold roundPositive.
  assert (Hs : y / pow2 (ulpExponent y) == inject_Z N).
  { rewrite Hy at 1. field. apply Qnot_eq_sym, Qlt_not_eq, pow2_pos. }
  rewrite (roundHalfEven_comp _ _ Hs), roundHalfEven_Z. symmetry. exact Hy.
Qed.

Lemma pow2_succ e : pow2 (e + 1) == 2 * pow2 e.
Proof. rewrite pow2_plus. unfold pow2 at 2. simpl. ring. Qed.

Lemma roundPositive_idempotent x :
  0 < x -> 0 < roundPositive x -> roundPositive (roundPositive x) == roundPositive x.
Proof.
  intros Hx Hpos.
  pose proof (roundHalfEven_upper x Hx) as HM.
  set (y := roundPositive x) in *.
  set (e := ulpExponent x) in *. set (M := roundHalfEven (x / pow2 e)) in *.
  assert (Hy : y == inject_Z M * pow2 e) by reflexivity.
  assert (HM0 : (0 < M)%Z).
  { destruct (Z_lt_le_dec 0 M) as [H | H]; [exact H | exfalso].
    assert (inject_Z M <= 0) by (change 0 with (inject_Z 0); rewrite <- Zle_Qle; exact H).
    pose proof (pow2_pos e). rewrite Hy in Hpos. nra. }
  assert (He : (-1074 <= e)%Z) by (unfold e, ulpExponent; lia).
  destruct (binade_spec y Hpos) as [Hb1 Hb2].
  set (e' := ulpExponent y).
  assert (Hle : (e' <= e + 1)%Z).
  { assert (Hlt : pow2 (binade y) < pow2 (e + 54)).
    { eapply Qle_lt_trans; [exact Hb1 |]. rewrite Hy.
      replace (e + 54)%Z with (54 + e)%Z by lia. rewrite pow2_plus.
      apply Qmult_lt_compat_r; [apply pow2_pos |].
      rewrite pow2_Z by lia. rewrite <- Zlt_Qlt. lia. }
    apply pow2_lt_inv in Hlt. unfold e', ulpExponent. lia. }
  destruct (Z_le_gt_dec e' e) as [Hle' | Hgt].
  - apply (roundPositive_multiple y (M * 2 ^ (e - e'))).
    + apply Z.mul_pos_pos; [exact HM0 | apply Z.pow_pos_nonneg; lia].
    + fold e'. rewrite Hy, inject_Z_mult, <- pow2_Z by lia.
      rewrite <- Qmult_assoc, <- pow2_plus.
      replace (e - e' + e')%Z with e by lia. reflexivity.
  - assert (He' : e' = (e + 1)%Z) by lia.
    assert (Hby : (e + 53 <= binade y)%Z) by (unfold e', ulpExponent in He'; lia).
    assert (HM53 : M = (2 ^ 53)%Z).
    { apply Z.le_antisymm; [exact HM |].
      assert (Hge : pow2 (e + 53) <= inject_Z M * pow2 e).
      { rewrite <- Hy. eapply Qle_trans; [| exact Hb1]. apply pow2_le. lia. }
      replace (e + 53)%Z with (53 + e)%Z in Hge by lia. rewrite pow2_plus in Hge.
      apply Qmult_le_r in Hge; [| apply pow2_pos].
      rewrite pow2_Z in Hge by lia. rewrite <- Zle_Qle in Hge. exact Hge. }
    apply (roundPositive_multiple y (2 ^ 52)); [lia |].
    fold e'. rewrite He', Hy, HM53, pow2_succ.
    change (inject_Z (2 ^ 53)) with (2 * inject_Z (2 ^ 52)). ring.
Qed.

Lemma round_idempotent x : 0 <= x -> round (round x) == round x.
Proof.
  intros Hx. destruct (Qlt_le_dec 0 x) as [Hpos | Hz].
  - pose proof (round_pos x Hpos) as Hr.
    pose proof (roundPositive_nonneg x Hpos) as Hnn.
    destruct (Qlt_le_dec 0 (roundPositive x)) as [Hp | Hzero].
    + assert (Hp' : 0 < round x) by (rewrite Hr; exact Hp).
      rewrite (round_pos (round x) Hp').
      assert (Heq : roundPositive (round x) == roundPositive (roundPositive x)).
      { apply Qle_antisym; apply roundPositive_le;
          try assumption; rewrite Hr; apply Qle_refl. }
      rewrite Heq, Hr. apply roundPositive_idempotent; assumption.
    + assert (Hz : round x == 0) by (rewrite Hr; lra).
      rewrite (round_zero (round x) Hz). symmetry. exact Hz.
  - rewrite (round_zero x) by lra. reflexivity.
Qed.

(** On every quotient [k / n] with [k < n <= 40], the product
    [(k / n) * 100] is the number that the Standard Library's
    specification of IEEE 754 arithmetic gives. *)
Lemma round_agrees_with_SpecFloat : agreesUpTo 40 = true.
Proof. vm_compute. reflexivity. Qed.

End Binary64Facts.

(** ** Inversion of computations *)

Lemma bind_inv {A B} (m : Run A) (k : A -> Run B) s r s' :
  (m ≫= k) s = (r, s') ->
  (exists a s1, m s = (Normal a, s1) /\ k a s1 = (r, s'))
  \/ (m s = (Return, s') /\ r = Return)
  \/ (exists e, m s = (Throw e, s') /\ r = Throw e).
Proof.
  unfold mbind, Run_bind.
  destruct (m s) as [[a | | e] s1]; intros H.
  - left. eauto.
  - right. left. inversion H. auto.
  - right. right. inversion H. eauto.
Qed.

Lemma emit_inv ev s r s' :
  emit ev s = (r, s') ->
  r = Normal tt /\ store s' = store s /\ polls s' = polls s
  /\ trace s' = trace s ++ [ev].
Proof. unfold emit. intros H. inversion H. auto. Qed.

Lemma liftResult_inv {A} (x : Result A) s r s' :
  liftResult x s = (r, s') ->
  s' = s /\ match x with Ok a => r = Normal a | Err e => r = Throw e end.
Proof. unfold liftResult. destruct x; intros H; inversion H; auto. Qed.

Lemma call_inv {A} ev (x : Result A) s r s' :
  call ev x s = (r, s') ->
  store s' = store s /\ polls s' = polls s /\ trace s' = trace s ++ [ev]
  /\ match x with Ok a => r = Normal a | Err e => r = Throw e end.
Proof.
  unfold call, emit, liftResult, mbind, Run_bind.
  destruct x; intros H; inversion H; auto.
Qed.

Lemma checkpoint_inv cancelled s r s' :
  checkpoint cancelled s = (r, s') ->
  store s' = store s /\ polls s' = S (polls s)
  /\ trace s' = trace s ++ [EvCancelled (cancelled (polls s))]
  /\ r = (if cancelled (polls s) then Return else Normal tt).
Proof.
  unfold checkpoint, poll, returnEarly, mbind, mret, Run_bind, Run_ret.
  destruct (cancelled (polls s)); intros H; inversion H; auto.
Qed.

Lemma modifyStore_inv f s r s' :
  modifyStore f s = (r, s') ->
  r = Normal tt /\ store s' = f (store s) /\ polls s' = polls s
  /\ trace s' = trace s.
Proof. unfold modifyStore. intros H. inversion H. auto. Qed.

Lemma awaitAll_inv rejected s r s' :
  awaitAll rejected s = (r, s') ->
  s' = s
  /\ r = match rejected with Some (_, e) => Throw e | None => Normal tt end.
Proof.
  unfold awaitAll, throw, mret, Run_ret.
  destruct rejected as [[t e] |]; intros H; inversion H; auto.
Qed.

Lemma wrappedOnProgress_inv instance m p s r s' :
  wrappedOnProgress instance m p s = (r, s') ->
  store s' = store s /\ polls s' = polls s
  /\ trace s' = trace s ++ [EvProgress m p]
  /\ match onProgress instance (length (progressCalls (trace s))) m p with
     | Ok _ => r = Normal tt
     | Err e => r = Throw e
     end.
Proof.
  unfold wrappedOnProgress. intros H. apply call_inv in H as (H1 & H2 & H3 & H4).
  repeat split; try assumption.
  destruct (onProgress instance _ m p) as [[] | e]; exact H4.
Qed.

(** ** Events by kind *)

Lemma kindsWithin_nil kinds : kindsWithin kinds [].
Proof. constructor. Qed.

Lemma kindsWithin_app kinds evs1 evs2 :
  kindsWithin kinds evs1 -> kindsWithin kinds evs2 -> kindsWithin kinds (evs1 ++ evs2).
Proof. unfold kindsWithin. intros. apply List.Forall_app. auto. Qed.

Lemma kindsWithin_one kinds ev :
  In (kindOf ev) kinds -> kindsWithin kinds [ev].
Proof. intros. constructor; [assumption | constructor]. Qed.

Lemma kindsWithin_weaken kinds kinds' evs :
  incl kinds kinds' -> kindsWithin kinds evs -> kindsWithin kinds' evs.
Proof.
  unfold kindsWithin. rewrite !List.Forall_forall. intros Hi H ev Hev.
  apply Hi, H, Hev.
Qed.

Lemma kindsWithin_not_In kinds evs ev :
  kindsWithin kinds evs -> ~ In (kindOf ev) kinds -> ~ In ev evs.
Proof.
  unfold kindsWithin. rewrite List.Forall_forall. intros H Hn Hin. apply Hn, H, Hin.
Qed.

Lemma percentages_app evs1 evs2 :
  percentages (evs1 ++ evs2) = percentages evs1 ++ percentages evs2.
Proof. unfold percentages, progressCalls. rewrite flat_map_app, map_app. reflexivity. Qed.

Lemma runChain_inv actions : forall idx frameData coll s r s',
  runChain idx actions frameData coll s = (r, s') ->
  store s' = store s /\ polls s' = polls s
  /\ r = match chainResult actions frameData coll with
         | Ok output => Normal output
         | Err e => Throw e
         end
  /\ exists evs, trace s' = trace s ++ evs /\ kindsWithin [KRun] evs.
Proof.
  induction actions as [| a others IH]; intros idx fd coll s r s' H; simpl in *.
  - inversion H; subst. repeat split; auto. exists []. rewrite app_nil_r.
    split; [reflexivity | apply kindsWithin_nil].
  - apply bind_inv in H as [(out & s1 & Hc & Hk) | [[Hc ->] | (e & Hc & ->)]];
      apply call_inv in Hc as (Hst & Hp & Htr & Hr).
    + destruct (run a _) as [out' | e]; [| discriminate].
      inversion Hr; subst out'.
      apply IH in Hk as (Hst' & Hp' & Hr' & evs & Htr' & Hev).
      repeat split; [congruence | congruence | assumption |].
      exists (EvRun idx (number fd) :: evs). split.
      * rewrite Htr', Htr, <- app_assoc. reflexivity.
      * constructor; [simpl; auto | assumption].
    + destruct (run a _); discriminate.
    + destruct (run a _) as [out' | e']; [discriminate |].
      inversion Hr; subst e'. repeat split; auto.
      exists [EvRun idx (number fd)]. split; [assumption |].
      apply kindsWithin_one. simpl. auto.
Qed.

Lemma kindsWithin_percentages kinds evs :
  kindsWithin kinds evs -> ~ In KProgress kinds -> percentages evs = [].
Proof.
  unfold kindsWithin. intros H Hn. induction H as [| ev evs Hev _ IH]; [reflexivity |].
  change (ev :: evs) with ([ev] ++ evs).
  rewrite percentages_app, IH, app_nil_r. destruct ev; try reflexivity. simpl in Hev. contradiction.
Qed.

Lemma run_events_percentages evs : kindsWithin [KRun] evs -> percentages evs = [].
Proof.
  intros H. apply (kindsWithin_percentages [KRun]); [assumption |].
  simpl. intuition discriminate.
Qed.

Lemma run_events_no_poll evs b : kindsWithin [KRun] evs -> ~ In (EvCancelled b) evs.
Proof.
  intros H. apply (kindsWithin_not_In [KRun]); [assumption |].
  simpl. intuition discriminate.
Qed.

Lemma kindsWithin_cons kinds ev evs :
  In (kindOf ev) kinds -> kindsWithin kinds evs -> kindsWithin kinds (ev :: evs).
Proof. intros. constructor; assumption. Qed.

Ltac kinds_tac :=
  solve [ repeat first
    [ apply kindsWithin_nil
    | apply kindsWithin_app
    | apply kindsWithin_cons; [simpl; tauto |]
    | match goal with
      | H : kindsWithin ?k ?e |- kindsWithin _ ?e =>
          apply (kindsWithin_weaken k); [| exact H];
          intros ? ?; simpl in *; tauto
      end ] ].

Section ChainFacts.

Variable instance : Session.
Variable actionsChain : list BaseSingleFrameAction.
Variable actionParameters : list (gmap string string).
Variables frameFrom frameTo : Z.
Variable filters : list string.
Variable cancelled : nat -> bool.
Variable exportedShapes : list SerializedShape.

Lemma processFrame_inv f h i s r s' :
  processFrame instance actionsChain frameFrom frameTo filters cancelled
    exportedShapes f h i s = (r, s') ->
  store s' = store s
  /\ exists evs,
      trace s' = trace s ++ evs
      /\ kindsWithin loopKinds evs
      /\ (percentages evs = [] \/ percentages evs = [progressAt frameFrom frameTo f])
      /\ (In (EvCancelled true) evs -> r = Return)
      /\ (forall h' i', r = Normal (h', i') ->
            h' = h ++ (if isLive instance f
                      then map omit_id
                             (frameOutput instance actionsChain filters
                                exportedShapes f)
                      else [])
            /\ i' = i ++ (if isLive instance f then idsOnFrame instance filters f else [])).
Proof.
  unfold processFrame, frameOutput, workingCollection,
    idsOnFrame, isLive.
  intros H.
  apply bind_inv in H as [(fd & s1 & Hc & H) | [[Hc ->] | (e & Hc & ->)]];
    apply call_inv in Hc as (Hst1 & _ & Htr1 & Hr1);
    destruct (frames_get instance f) as [fd' | e']; try discriminate.
  2:{ split; [assumption |]. exists [EvFrameGet f].
      split; [assumption |]. split; [kinds_tac |]. split; [left; reflexivity |].
      split; [| discriminate].
      intros [Hin | []]. discriminate. }
  inversion Hr1; subst fd'. clear Hr1.
  destruct (deleted fd) eqn:Hdel; simpl.
  { inversion H; subst. split; [assumption |]. exists [EvFrameGet f].
    split; [assumption |]. split; [kinds_tac |]. split; [left; reflexivity |].
    split; [intros [Hin | []]; discriminate |].
    intros h' i' Heq. inversion Heq. rewrite !app_nil_r. auto. }
  apply bind_inv in H as [(states & s2 & Hc & H) | [[Hc ->] | (e & Hc & ->)]];
    apply call_inv in Hc as (Hst2 & _ & Htr2 & Hr2);
    destruct (getAnnotations instance f filters) as [states' | e']; try discriminate.
  2:{ split; [congruence |]. exists [EvFrameGet f; EvGetAnnotations f].
      split; [rewrite Htr2, Htr1, <- app_assoc; reflexivity |].
      split; [kinds_tac |]. split; [left; reflexivity |].
      split; [| discriminate].
      intros [Hin | [Hin | []]]; discriminate. }
  inversion Hr2; subst states'. clear Hr2.
  apply bind_inv in H as [(out & s3 & Hc & H) | [[Hc ->] | (e & Hc & ->)]];
    apply runChain_inv in Hc as (Hst3 & _ & Hr3 & evsR & Htr3 & HkR);
    destruct (chainResult actionsChain fd _) as [out' | e'] eqn:Hchain;
    try discriminate.
  2:{ split; [congruence |]. exists ([EvFrameGet f; EvGetAnnotations f] ++ evsR).
      split; [rewrite Htr3, Htr2, Htr1, <- !app_assoc; reflexivity |].
      split; [kinds_tac |].
      split; [left; rewrite percentages_app, (run_events_percentages evsR) by assumption;
              reflexivity |].
      split; [| discriminate].
      intros Hin. apply in_app_or in Hin as [[Hin | [Hin | []]] | Hin];
        try discriminate.
      exfalso. revert Hin. apply run_events_no_poll. assumption. }
  inversion Hr3; subst out'. clear Hr3.
  set (evs0 := [EvFrameGet f; EvGetAnnotations f] ++ evsR
                 ++ [EvProgress "Actions are running" (progressAt frameFrom frameTo f)]).
  assert (Hk0 : kindsWithin loopKinds evs0) by (unfold evs0; kinds_tac).
  assert (Hp0 : percentages evs0 = [progressAt frameFrom frameTo f]).
  { unfold evs0. rewrite !percentages_app, (run_events_percentages evsR) by assumption.
    reflexivity. }
  assert (Hnp0 : ~ In (EvCancelled true) evs0).
  { unfold evs0. intros Hin.
    repeat (apply in_app_or in Hin as [Hin | Hin]);
      try (revert Hin; apply run_events_no_poll; assumption);
      simpl in Hin; intuition discriminate. }
  apply bind_inv in H as [([] & s4 & Hc & H) | [[Hc ->] | (e & Hc & ->)]];
    apply wrappedOnProgress_inv in Hc as (Hst4 & _ & Htr4 & Hr4);
    destruct (onProgress instance _ _ _) as [[] | e']; try discriminate.
  2:{ split; [congruence |]. exists evs0.
      split; [unfold evs0; rewrite Htr4, Htr3, Htr2, Htr1, <- !app_assoc;
              reflexivity |].
      split; [exact Hk0 |]. split; [right; exact Hp0 |].
      split; [intros Hin; exfalso; exact (Hnp0 Hin) | discriminate]. }
  assert (Htr0 : trace s4 = trace s ++ evs0).
  { unfold evs0. rewrite Htr4, Htr3, Htr2, Htr1, <- !app_assoc. reflexivity. }
  apply bind_inv in H as [([] & s5 & Hc & H) | [[Hc ->] | (e & Hc & ->)]];
    apply checkpoint_inv in Hc as (Hst5 & _ & Htr5 & Hr5);
    destruct (cancelled (polls s4)) eqn:Hcan; try discriminate.
  - inversion H; subst. split; [congruence |].
    exists (evs0 ++ [EvCancelled false]).
    split; [rewrite Htr5, Htr0, <- app_assoc; reflexivity |].
    split; [kinds_tac |].
    split; [right; rewrite percentages_app, Hp0; reflexivity |].
    split.
    + intros Hin. exfalso. apply in_app_or in Hin as [Hin | Hin];
        [exact (Hnp0 Hin) | simpl in Hin; intuition discriminate].
    + intros h' i' Heq. inversion Heq. auto.
  - split; [congruence |].
    exists (evs0 ++ [EvCancelled true]).
    split; [rewrite Htr5, Htr0, <- app_assoc; reflexivity |].
    split; [kinds_tac |].
    split; [right; rewrite percentages_app, Hp0; reflexivity |].
    split; [reflexivity | discriminate].
Qed.

Lemma handledAfter_cons f frames :
  handledAfter instance actionsChain filters exportedShapes (f :: frames)
  = (if isLive instance f
                      then map omit_id
                             (frameOutput instance actionsChain filters
                                exportedShapes f)
                      else [])
      ++ handledAfter instance actionsChain filters exportedShapes frames.
Proof. unfold handledAfter. simpl. destruct (isLive instance f); reflexivity. Qed.

Lemma modifiedAfter_cons f frames :
  modifiedAfter instance filters (f :: frames)
  = (if isLive instance f then idsOnFrame instance filters f else []) ++ modifiedAfter instance filters frames.
Proof. unfold modifiedAfter. simpl. destruct (isLive instance f); reflexivity. Qed.

Lemma iterateFrames_inv frames : forall h i s r s',
  iterateFrames instance actionsChain frameFrom frameTo filters cancelled
    exportedShapes frames h i s = (r, s') ->
  store s' = store s
  /\ exists evs,
      trace s' = trace s ++ evs
      /\ kindsWithin loopKinds evs
      /\ (exists reported,
            reported `sublist_of` frames
            /\ percentages evs = map (progressAt frameFrom frameTo) reported)
      /\ (In (EvCancelled true) evs -> r = Return)
      /\ (forall h' i', r = Normal (h', i') ->
            h' = h ++ handledAfter instance actionsChain filters exportedShapes frames
            /\ i' = i ++ modifiedAfter instance filters frames).
Proof.
  induction frames as [| f later IH]; intros h i s r s' H; simpl in H.
  - inversion H; subst. split; [reflexivity |]. exists [].
    rewrite app_nil_r. split; [reflexivity |]. split; [kinds_tac |].
    split; [exists []; split; [constructor | reflexivity] |].
    split; [intros [] |].
    intros h' i' Heq. inversion Heq. rewrite !app_nil_r. auto.
  - apply bind_inv in H as [([h1 i1] & s1 & Hc & H) | [[Hc ->] | (e & Hc & ->)]];
      apply processFrame_inv in Hc as (Hst1 & evs1 & Htr1 & Hk1 & Hp1 & Hcan1 & Hres1).
    + apply IH in H as (Hst2 & evs2 & Htr2 & Hk2 & (rep & Hsub & Hp2) & Hcan2 & Hres2).
      destruct (Hres1 h1 i1 eq_refl) as [-> ->].
      split; [congruence |]. exists (evs1 ++ evs2).
      split; [rewrite Htr2, Htr1, <- app_assoc; reflexivity |].
      split; [kinds_tac |].
      split.
      * destruct Hp1 as [Hp1 | Hp1].
        -- exists rep. split; [apply sublist_cons; assumption |].
           rewrite percentages_app, Hp1, Hp2. reflexivity.
        -- exists (f :: rep). split; [apply sublist_skip; assumption |].
           rewrite percentages_app, Hp1, Hp2. reflexivity.
      * split.
        -- intros Hin. apply in_app_or in Hin as [Hin | Hin].
           ++ specialize (Hcan1 Hin). discriminate.
           ++ apply Hcan2, Hin.
        -- intros h' i' Heq. destruct (Hres2 h' i' Heq) as [-> ->].
           rewrite handledAfter_cons, modifiedAfter_cons, !app_assoc. auto.
    + split; [assumption |]. exists evs1. split; [assumption |].
      split; [assumption |].
      split; [| split; [reflexivity | discriminate]].
      destruct Hp1 as [Hp1 | Hp1].
      * exists []. split; [apply sublist_nil_l | assumption].
      * exists [f]. split; [apply sublist_skip, sublist_nil_l | assumption].
    + split; [assumption |]. exists evs1. split; [assumption |].
      split; [assumption |].
      split; [| split; [assumption | discriminate]].
      destruct Hp1 as [Hp1 | Hp1].
      * exists []. split; [apply sublist_nil_l | assumption].
      * exists [f]. split; [apply sublist_skip, sublist_nil_l | assumption].
Qed.

End ChainFacts.

Lemma answers_app evs1 evs2 : answers (evs1 ++ evs2) = answers evs1 ++ answers evs2.
Proof. unfold answers. apply flat_map_app. Qed.

Lemma imports_app evs1 evs2 : imports (evs1 ++ evs2) = imports evs1 ++ imports evs2.
Proof. unfold imports. apply flat_map_app. Qed.

Lemma In_answers evs b : In (EvCancelled b) evs <-> In b (answers evs).
Proof.
  unfold answers. rewrite in_flat_map. split.
  - intros H. exists (EvCancelled b). simpl. auto.
  - intros (ev & Hin & Hb). destruct ev; simpl in Hb; try contradiction.
    destruct Hb as [-> | []]. assumption.
Qed.

Lemma In_imports evs c : In (EvImport c) evs <-> In c (imports evs).
Proof.
  unfold imports. rewrite in_flat_map. split.
  - intros H. exists (EvImport c). simpl. auto.
  - intros (ev & Hin & Hc). destruct ev; simpl in Hc; try contradiction.
    destruct Hc as [-> | []]. assumption.
Qed.

Lemma kindsWithin_answers kinds evs :
  kindsWithin kinds evs -> ~ In KPoll kinds -> answers evs = [].
Proof.
  intros H Hn. destruct (answers evs) as [| b l] eqn:E; [reflexivity |].
  exfalso. assert (Hin : In b (answers evs)) by (rewrite E; left; reflexivity).
  apply In_answers in Hin. revert Hin. apply (kindsWithin_not_In kinds); assumption.
Qed.

Lemma kindsWithin_imports kinds evs :
  kindsWithin kinds evs -> ~ In KCommit kinds -> imports evs = [].
Proof.
  intros H Hn. destruct (imports evs) as [| c l] eqn:E; [reflexivity |].
  exfalso. assert (Hin : In c (imports evs)) by (rewrite E; left; reflexivity).
  apply In_imports in Hin. revert Hin. apply (kindsWithin_not_In kinds); assumption.
Qed.

Lemma kindsWithin_destroyCount kinds evs idx :
  kindsWithin kinds evs -> ~ In KDestroy kinds -> destroyCount idx evs = 0%nat.
Proof.
  unfold kindsWithin, destroyCount. intros H Hn.
  induction H as [| ev evs Hev _ IH]; [reflexivity |].
  simpl. destruct ev; simpl; try assumption. simpl in Hev. contradiction.
Qed.

Lemma destroyCount_app idx evs1 evs2 :
  destroyCount idx (evs1 ++ evs2) = (destroyCount idx evs1 + destroyCount idx evs2)%nat.
Proof. unfold destroyCount. rewrite List.filter_app, length_app. reflexivity. Qed.

Lemma initActions_inv actionParameters actions : forall idx rejected s r s',
  initActions actionParameters idx actions rejected s = (r, s') ->
  store s' = store s /\ r <> Return
  /\ exists evs, trace s' = trace s ++ evs /\ kindsWithin [KInit] evs.
Proof.
  induction actions as [| a others IH]; intros idx rej s r s' H; simpl in H.
  - inversion H; subst. repeat split; [discriminate |]. exists [].
    rewrite app_nil_r. split; [reflexivity | kinds_tac].
  - apply bind_inv in H as [(decl & s1 & Hc & H) | [[Hc ->] | (e & Hc & ->)]];
      apply liftResult_inv in Hc as [-> Hr1];
      destruct (parameters a) as [decl' | e']; try discriminate.
    2:{ repeat split; [discriminate |]. exists []. rewrite app_nil_r.
        split; [reflexivity | kinds_tac]. }
    inversion Hr1; subst decl'. clear Hr1.
    apply bind_inv in H as [(res & s2 & Hc & H) | [[Hc ->] | (e & Hc & ->)]];
      apply liftResult_inv in Hc as [-> Hr2];
      destruct (resolveParameters decl _) as [res' | e']; try discriminate.
    2:{ repeat split; [discriminate |]. exists []. rewrite app_nil_r.
        split; [reflexivity | kinds_tac]. }
    inversion Hr2; subst res'. clear Hr2.
    apply bind_inv in H as [([] & s3 & Hc & H) | [[Hc ->] | (e & Hc & ->)]];
      apply emit_inv in Hc as (Hr3 & Hst3 & _ & Htr3); try discriminate.
    destruct (init a res) as [e0 | [] | t e0].
    + unfold throw in H. inversion H; subst.
      split; [assumption |]. split; [discriminate |].
      exists [EvInit idx res]. split; [assumption | kinds_tac].
    + apply IH in H as (Hst & Hr & evs & Htr & Hk).
      split; [congruence |]. split; [assumption |].
      exists (EvInit idx res :: evs).
      split; [rewrite Htr, Htr3, <- app_assoc; reflexivity | kinds_tac].
    + apply IH in H as (Hst & Hr & evs & Htr & Hk).
      split; [congruence |]. split; [assumption |].
      exists (EvInit idx res :: evs).
      split; [rewrite Htr, Htr3, <- app_assoc; reflexivity | kinds_tac].
Qed.

Lemma destroyActions_inv actions : forall idx rejected s r s',
  destroyActions idx actions rejected s = (r, s') ->
  store s' = store s /\ polls s' = polls s
  /\ trace s' = trace s ++ map EvDestroy (seq idx (destroyCalls actions))
  /\ r = destroyResult actions rejected.
Proof.
  induction actions as [| a others IH]; intros idx rej s r s' H;
    cbn [destroyActions destroyCalls destroyResult] in *.
  - inversion H; subst. simpl. rewrite app_nil_r. auto.
  - apply bind_inv in H as [([] & s1 & Hc & H) | [[Hc ->] | (e & Hc & ->)]];
      apply emit_inv in Hc as (Hr1 & Hst1 & Hp1 & Htr1); try discriminate.
    destruct (destroy a) as [e0 | [] | t e0].
    + unfold throw in H. inversion H; subst. auto.
    + apply IH in H as (Hst & Hp & Htr & Hr).
      split; [congruence |]. split; [congruence |]. split; [| assumption].
      cbn [seq map]. rewrite Htr, Htr1, <- app_assoc. reflexivity.
    + apply IH in H as (Hst & Hp & Htr & Hr).
      split; [congruence |]. split; [congruence |]. split; [| assumption].
      cbn [seq map]. rewrite Htr, Htr1, <- app_assoc. reflexivity.
Qed.

Lemma destroyResult_not_Return actions : forall rejected,
  destroyResult actions rejected <> Return.
Proof.
  induction actions as [| a others IH]; intros rej; simpl; [discriminate |].
  destruct (destroy a); [discriminate | apply IH | apply IH].
Qed.

Lemma destroyCalls_le actions : (destroyCalls actions <= length actions)%nat.
Proof.
  induction actions as [| a others IH]; simpl; [lia |].
  destruct (destroy a); lia.
Qed.

Lemma destroyCount_seq idx n start :
  destroyCount idx (map EvDestroy (seq start n))
  = (if (start <=? idx)%nat && (idx <? start + n)%nat then 1 else 0)%nat.
Proof.
  revert start. induction n as [| n IH]; intros start; simpl.
  - destruct (start <=? idx)%nat eqn:E1; destruct (idx <? start + 0)%nat eqn:E2;
      try reflexivity.
    apply Nat.leb_le in E1. apply Nat.ltb_lt in E2. lia.
  - unfold destroyCount in *. simpl. rewrite Nat.eqb_sym.
    destruct (Nat.eqb_spec idx start) as [-> | Hne]; simpl; rewrite IH.
    + replace (S start <=? start)%nat with false by (symmetry; apply Nat.leb_gt; lia).
      replace (start <=? start)%nat with true by (symmetry; apply Nat.leb_le; lia).
      replace (start <? start + S n)%nat with true by (symmetry; apply Nat.ltb_lt; lia).
      reflexivity.
    + destruct (Nat.leb_spec (S start) idx), (Nat.leb_spec start idx),
        (Nat.ltb_spec idx (S start + n)), (Nat.ltb_spec idx (start + S n));
        simpl; try reflexivity; lia.
Qed.

Lemma initialization_inv instance actionsChain actionParameters cancelled s r s' :
  initialization instance actionsChain actionParameters cancelled s = (r, s') ->
  store s' = store s
  /\ exists evs,
      trace s' = trace s ++ evs
      /\ kindsWithin [KProgress; KPoll; KInit] evs
      /\ percentages evs = [0]
      /\ (In true (answers evs) -> r = Return).
Proof.
  unfold initialization, showMessageWithPause. intros H.
  apply bind_inv in H as [([] & s1 & Hc & H) | [[Hc ->] | (e & Hc & ->)]];
    apply wrappedOnProgress_inv in Hc as (Hst1 & _ & Htr1 & Hr1);
    destruct (onProgress instance _ _ _) as [[] | e']; try discriminate.
  2:{ split; [assumption |]. exists [EvProgress "Actions initialization" 0].
      split; [assumption |]. split; [kinds_tac |]. split; [reflexivity |].
      simpl. intros []. }
  apply bind_inv in H as [([] & s2 & Hc & H) | [[Hc ->] | (e & Hc & ->)]];
    apply checkpoint_inv in Hc as (Hst2 & _ & Htr2 & Hr2);
    destruct (cancelled (polls s1)); try discriminate.
  2:{ split; [congruence |].
      exists [EvProgress "Actions initialization" 0; EvCancelled true].
      split; [rewrite Htr2, Htr1, <- app_assoc; reflexivity |].
      split; [kinds_tac |]. split; reflexivity. }
  assert (Hfinish : forall evs, kindsWithin [KInit] evs ->
    kindsWithin [KProgress; KPoll; KInit]
      ([EvProgress "Actions initialization" 0; EvCancelled false] ++ evs)
    /\ percentages ([EvProgress "Actions initialization" 0; EvCancelled false] ++ evs) = [0]
    /\ ~ In true (answers ([EvProgress "Actions initialization" 0; EvCancelled false] ++ evs))).
  { intros evs Hk. split; [kinds_tac |]. split.
    - rewrite percentages_app, (kindsWithin_percentages [KInit] evs);
        [reflexivity | assumption | simpl; intuition discriminate].
    - rewrite answers_app, (kindsWithin_answers [KInit] evs);
        [simpl; intuition discriminate | assumption | simpl; intuition discriminate]. }
  apply bind_inv in H as [(rej & s3 & Hc & H) | [[Hc ->] | (e & Hc & ->)]];
    apply initActions_inv in Hc as (Hst3 & Hr3 & evs & Htr3 & Hk3);
    try congruence;
    destruct (Hfinish evs Hk3) as (HK & HP & HA).
  - apply awaitAll_inv in H as [-> Hr].
    split; [congruence |]. eexists.
    split; [rewrite Htr3, Htr2, Htr1, <- !app_assoc; reflexivity |].
    split; [exact HK |]. split; [exact HP |]. intros Hin. contradiction.
  - split; [congruence |]. eexists.
    split; [rewrite Htr3, Htr2, Htr1, <- !app_assoc; reflexivity |].
    split; [exact HK |]. split; [exact HP |]. intros Hin. contradiction.
Qed.

Lemma finallyBlock_inv instance actionsChain s r s' :
  finallyBlock instance actionsChain s = (r, s') ->
  store s' = store s
  /\ trace s' = trace s ++ EvProgress "Finalizing" 100
                  :: map EvDestroy
                       (seq 0 (cleanupCalls instance actionsChain
                                 (length (progressCalls (trace s)))))
  /\ r = match cleanupFailure instance actionsChain
                (length (progressCalls (trace s))) with
         | Some e => Throw e
         | None => Normal tt
         end.
Proof.
  unfold finallyBlock, cleanupCalls, cleanupFailure, destroyFailure. intros H.
  apply bind_inv in H as [([] & s1 & Hc & H) | [[Hc ->] | (e & Hc & ->)]];
    apply wrappedOnProgress_inv in Hc as (Hst1 & _ & Htr1 & Hr1);
    destruct (onProgress instance _ _ _) as [[] | e']; try discriminate.
  2:{ inversion Hr1; subst. auto. }
  apply bind_inv in H as [(rej & s2 & Hc & H) | [[Hc ->] | (e & Hc & ->)]];
    apply destroyActions_inv in Hc as (Hst2 & _ & Htr2 & Hr2).
  - apply awaitAll_inv in H as [-> Hr]. rewrite <- Hr2.
    split; [congruence |]. split.
    + rewrite Htr2, Htr1, <- app_assoc. reflexivity.
    + rewrite Hr. destruct rej as [[t e] |]; reflexivity.
  - exfalso. symmetry in Hr2. revert Hr2. apply destroyResult_not_Return.
  - rewrite <- Hr2. split; [congruence |]. split; [| reflexivity].
    rewrite Htr2, Htr1, <- app_assoc. reflexivity.
Qed.

Lemma cleanupCalls_le instance actionsChain reported :
  (cleanupCalls instance actionsChain reported <= length actionsChain)%nat.
Proof.
  unfold cleanupCalls. destruct (onProgress instance reported _ _); [| lia].
  apply destroyCalls_le.
Qed.

Lemma commit_inv instance cancelled exported handled modifiedIDs s r s' :
  commit instance cancelled exported handled modifiedIDs s = (r, s') ->
  exists evs,
    trace s' = trace s ++ evs
    /\ kindsWithin [KProgress; KPoll; KCommit; KClose] evs
    /\ percentages evs = [100]
    /\ (In true (answers evs) ->
          r = Return /\ store s' = store s /\ kindsWithin [KProgress; KPoll] evs)
    /\ (imports evs = []
        \/ imports evs = [importedCollection exported handled modifiedIDs])
    /\ (r = Normal tt ->
          imports evs = [importedCollection exported handled modifiedIDs]
          /\ store s' = {| annotations := importedCollection exported handled modifiedIDs;
                           history := [] |}).
Proof.
  unfold commit, showMessageWithPause.
  fold (importedCollection exported handled modifiedIDs).
  set (imported := importedCollection exported handled modifiedIDs).
  intros H.
  apply bind_inv in H as [([] & s1 & Hc & H) | [[Hc ->] | (e & Hc & ->)]];
    apply wrappedOnProgress_inv in Hc as (Hst1 & _ & Htr1 & Hr1);
    destruct (onProgress instance _ _ _) as [[] | e']; try discriminate.
  2:{ exists [EvProgress "Commiting handled objects" 100].
      split; [assumption |]. split; [kinds_tac |]. split; [reflexivity |].
      split; [simpl; intros [] |].
      split; [left; reflexivity | discriminate]. }
  apply bind_inv in H as [([] & s2 & Hc & H) | [[Hc ->] | (e & Hc & ->)]];
    apply checkpoint_inv in Hc as (Hst2 & _ & Htr2 & Hr2);
    destruct (cancelled (polls s1)); try discriminate.
  2:{ exists [EvProgress "Commiting handled objects" 100; EvCancelled true].
      split; [rewrite Htr2, Htr1, <- app_assoc; reflexivity |].
      split; [kinds_tac |]. split; [reflexivity |].
      split; [intros _; split; [reflexivity | split; [congruence | kinds_tac]] |].
      split; [left; reflexivity | discriminate]. }
  set (pre := [EvProgress "Commiting handled objects" 100; EvCancelled false]).
  assert (Htr0 : trace s2 = trace s ++ pre).
  { unfold pre. rewrite Htr2, Htr1, <- app_assoc. reflexivity. }
  clear Htr1 Htr2 Hr1 Hr2.
  apply bind_inv in H as [([] & s3 & Hc & H) | [[Hc ->] | (e & Hc & ->)]];
    apply call_inv in Hc as (Hst3 & _ & Htr3 & Hr3);
    destruct (annotations_clear instance); try discriminate.
  2:{ exists (pre ++ [EvAnnotationsClear]).
      split; [rewrite Htr3, Htr0, <- app_assoc; reflexivity |].
      split; [unfold pre; kinds_tac |]. split; [reflexivity |].
      split; [simpl; intuition discriminate |].
      split; [left; reflexivity | discriminate]. }
  apply bind_inv in H as [([] & s4 & Hc & H) | [[Hc ->] | (e & Hc & ->)]];
    apply modifyStore_inv in Hc as (Hr4 & Hst4 & _ & Htr4); try discriminate.
  apply bind_inv in H as [([] & s5 & Hc & H) | [[Hc ->] | (e & Hc & ->)]];
    apply call_inv in Hc as (Hst5 & _ & Htr5 & Hr5);
    destruct (actions_clear instance); try discriminate.
  2:{ exists (pre ++ [EvAnnotationsClear; EvActionsClear]).
      split; [rewrite Htr5, Htr4, Htr3, Htr0, <- !app_assoc; reflexivity |].
      split; [unfold pre; kinds_tac |]. split; [reflexivity |].
      split; [simpl; intuition discriminate |].
      split; [left; reflexivity | discriminate]. }
  apply bind_inv in H as [([] & s6 & Hc & H) | [[Hc ->] | (e & Hc & ->)]];
    apply modifyStore_inv in Hc as (Hr6 & Hst6 & _ & Htr6); try discriminate.
  apply bind_inv in H as [([] & s7 & Hc & H) | [[Hc ->] | (e & Hc & ->)]];
    apply call_inv in Hc as (Hst7 & _ & Htr7 & Hr7);
    destruct (annotations_import instance imported); try discriminate.
  2:{ exists (pre ++ [EvAnnotationsClear; EvActionsClear; EvImport imported]).
      split; [rewrite Htr7, Htr6, Htr5, Htr4, Htr3, Htr0, <- !app_assoc; reflexivity |].
      split; [unfold pre; kinds_tac |]. split; [reflexivity |].
      split; [simpl; intuition discriminate |].
      split; [right; reflexivity | discriminate]. }
  apply bind_inv in H as [([] & s8 & Hc & H) | [[Hc ->] | (e & Hc & ->)]];
    apply modifyStore_inv in Hc as (Hr8 & Hst8 & _ & Htr8); try discriminate.
  apply call_inv in H as (Hst9 & _ & Htr9 & Hr9).
  exists (pre ++ [EvAnnotationsClear; EvActionsClear; EvImport imported; EvEventClose]).
  split; [rewrite Htr9, Htr8, Htr7, Htr6, Htr5, Htr4, Htr3, Htr0, <- !app_assoc;
          reflexivity |].
  split; [unfold pre; kinds_tac |]. split; [reflexivity |].
  split; [simpl; intuition discriminate |].
  split; [right; reflexivity |].
  intros _. split; [reflexivity |].
  rewrite Hst9, Hst8, Hst7, Hst6, Hst5, Hst4.
  unfold store_import, store_clear_actions, store_clear. reflexivity.
Qed.

Lemma tryBlock_inv instance actionsChain actionParameters frameFrom frameTo
    filters cancelled s r s' :
  tryBlock instance actionsChain actionParameters frameFrom frameTo filters
    cancelled s = (r, s') ->
  exists evs,
    trace s' = trace s ++ evs
    /\ TryOutcome instance actionsChain frameFrom frameTo filters (store s)
         evs r (store s').
Proof.
  unfold TryOutcome. intros H. unfold tryBlock in H.
  set (committed := committedCollection instance actionsChain filters
                      (annotations (store s)) (frameRange frameFrom frameTo)).
  apply bind_inv in H as [([] & s1 & Hc & H) | [[Hc ->] | (e & Hc & ->)]];
    apply initialization_inv in Hc as (Hst1 & evsA & Htr1 & HkA & HpA & HcA);
    assert (HiA : imports evsA = [])
      by (apply (kindsWithin_imports _ _ HkA); simpl; intuition discriminate).
  2,3: exists evsA; split; [assumption |]; split; [kinds_tac |];
    (split; [exists [], []; split; [apply sublist_nil_l |];
             split; [left; reflexivity | assumption] |]);
    (split; [intros Hin; specialize (HcA Hin);
             split; [assumption | split; [assumption | kinds_tac]] |]);
    (split; [left; assumption | discriminate]).
  assert (HnA : ~ In true (answers evsA)) by (intros Hin; specialize (HcA Hin); discriminate).
  apply bind_inv in H as [([] & s2 & Hc & H) | [[Hc ->] | (e & Hc & ->)]];
    apply call_inv in Hc as (Hst2 & _ & Htr2 & Hr2);
    destruct (collection_export instance); try discriminate.
  2:{ exists (evsA ++ [EvExport]).
      split; [rewrite Htr2, Htr1, <- app_assoc; reflexivity |].
      split; [kinds_tac |].
      split; [exists [], []; split; [apply sublist_nil_l |]; split; [left; reflexivity |];
              rewrite percentages_app, HpA; reflexivity |].
      split; [rewrite answers_app, app_nil_r; intros Hin; contradiction |].
      split; [left; rewrite imports_app, HiA; reflexivity | discriminate]. }
  apply bind_inv in H as [(st & s3 & Hc & H) | [[Hc ->] | (e & Hc & ->)]];
    unfold getStore in Hc; inversion Hc; subst st s3; clear Hc.
  assert (Hexp : annotations (store s2) = annotations (store s)) by congruence.
  apply bind_inv in H as [([h i] & s4 & Hc & H) | [[Hc ->] | (e & Hc & ->)]];
    apply iterateFrames_inv in Hc
      as (Hst4 & evsL & Htr4 & HkL & (rep & Hsub & HpL) & HcL & HresL);
    assert (HiL : imports evsL = [])
      by (apply (kindsWithin_imports _ _ HkL); simpl; intuition discriminate).
  2,3: exists (evsA ++ [EvExport] ++ evsL);
    (split; [rewrite Htr4, Htr2, Htr1, <- !app_assoc; reflexivity |]);
    (split; [kinds_tac |]);
    (split; [exists rep, []; split; [assumption |]; split; [left; reflexivity |];
             rewrite !percentages_app, HpA, HpL, app_nil_r; reflexivity |]);
    (split; [| split; [left; rewrite !imports_app, HiA, HiL; reflexivity
                      | discriminate]]);
    rewrite !answers_app; intros Hin;
    (apply in_app_or in Hin as [Hin | Hin]; [contradiction |]);
    apply in_app_or in Hin as [[] | Hin];
    apply In_answers in Hin; specialize (HcL Hin);
    (split; [first [reflexivity | discriminate HcL]
            | split; [congruence | kinds_tac]]).
  - destruct (HresL h i eq_refl) as [Hh Hi]. simpl in Hh, Hi. subst h i.
    assert (HnL : ~ In true (answers evsL))
      by (intros Hin; apply In_answers in Hin; specialize (HcL Hin); discriminate).
    apply commit_inv in H as (evsC & Htr5 & HkC & HpC & HcC & HiC & HresC).
    rewrite Hexp in *. fold committed in HiC, HresC.
    unfold committedCollection in committed.
    exists (evsA ++ [EvExport] ++ evsL ++ evsC).
    split; [rewrite Htr5, Htr4, Htr2, Htr1, <- !app_assoc; reflexivity |].
    split; [kinds_tac |].
    split; [exists rep, [100]; split; [assumption |]; split; [right; reflexivity |];
            rewrite !percentages_app, HpA, HpL, HpC; reflexivity |].
    split.
    + rewrite !answers_app. intros Hin.
      apply in_app_or in Hin as [Hin | Hin]; [contradiction |].
      apply in_app_or in Hin as [[] | Hin].
      apply in_app_or in Hin as [Hin | Hin]; [contradiction |].
      destruct (HcC Hin) as (-> & HstC & HkC').
      split; [reflexivity |]. split; [congruence | kinds_tac].
    + split.
      * rewrite !imports_app, HiA, HiL. simpl. exact HiC.
      * intros Hr. destruct (HresC Hr) as [Hi Hs].
        split; [rewrite !imports_app, HiA, HiL; simpl; exact Hi | exact Hs].
Qed.

Lemma tryFinally_inv {A} (body : Run A) (handler : Run unit) s r s' :
  tryFinally body handler s = (r, s') ->
  exists r1 s1 r2,
    body s = (r1, s1) /\ handler s1 = (r2, s')
    /\ r = match r2 with
           | Normal _ => r1
           | Return => Return
           | Throw e => Throw e
           end.
Proof.
  unfold tryFinally. destruct (body s) as [r1 s1].
  destruct (handler s1) as [[[] | | e] s2] eqn:Hh; intros H; inversion H; subst;
    eexists _, _, _; (split; [reflexivity |]); (split; [exact Hh |]); reflexivity.
Qed.

Lemma destroyResult_ok actions :
  Forall (fun a => destroy a = Fulfils tt) actions ->
  destroyResult actions None = Normal None
  /\ destroyCalls actions = length actions.
Proof.
  intros Hok. induction Hok as [| a others Ha _ [IH1 IH2]]; simpl; [auto |].
  rewrite Ha. simpl. rewrite IH1, IH2. auto.
Qed.

Lemma cleanup_ok instance actionsChain reported :
  onProgress instance reported "Finalizing" 100 = Ok tt ->
  Forall (fun a => destroy a = Fulfils tt) actionsChain ->
  cleanupFailure instance actionsChain reported = None
  /\ cleanupCalls instance actionsChain reported = length actionsChain.
Proof.
  intros Hp Hok. unfold cleanupFailure, cleanupCalls, destroyFailure. rewrite Hp.
  destruct (destroyResult_ok actionsChain Hok) as [-> ->]. auto.
Qed.

Lemma run_opened instance actionsChain actionParameters frameFrom frameTo
    filters cancelled s r s' :
  eventOpened instance actionsChain frameFrom frameTo = true ->
  runSingleFrameChain instance actionsChain actionParameters frameFrom frameTo
    filters cancelled s = (r, s') ->
  exists chain evs r1 st1,
    chainNames actionsChain = Ok chain
    /\ TryOutcome instance actionsChain frameFrom frameTo filters (store s) evs r1 st1
    /\ store s' = st1
    /\ trace s' = trace s ++ EvLog frameFrom frameTo chain :: evs
                    ++ EvProgress "Finalizing" 100
                    :: map EvDestroy
                         (seq 0 (cleanupCalls instance actionsChain
                                   (length (progressCalls (trace s ++ evs)))))
    /\ (r = r1 \/ exists e, r = Throw e)
    /\ r = match cleanupFailure instance actionsChain
                  (length (progressCalls (trace s ++ evs))) with
           | Some e => Throw e
           | None => r1
           end.
Proof.
  unfold eventOpened, runSingleFrameChain. intros Hopen H.
  destruct (chainNames actionsChain) as [chain | e0] eqn:Hnames; [| discriminate].
  destruct (logger_log instance frameFrom frameTo chain) as [[] | e0] eqn:Hlog;
    [| discriminate].
  apply bind_inv in H as [(chain' & s1 & Hc & H) | [[Hc ->] | (e & Hc & ->)]];
    apply liftResult_inv in Hc as [-> Hr1]; try discriminate.
  inversion Hr1; subst chain'. clear Hr1.
  apply bind_inv in H as [([] & s2 & Hc & H) | [[Hc ->] | (e & Hc & ->)]];
    apply call_inv in Hc as (Hst2 & _ & Htr2 & Hr2); rewrite Hlog in Hr2;
    try discriminate.
  apply tryFinally_inv in H as (r1 & s3 & r2 & Hbody & Hfin & Hr).
  apply tryBlock_inv in Hbody as (evs & Htr3 & Hout).
  apply finallyBlock_inv in Hfin as (Hst4 & Htr4 & Hr4).
  assert (Hn : length (progressCalls (trace s3))
               = length (progressCalls (trace s ++ evs))).
  { rewrite Htr3, Htr2.
    unfold progressCalls. rewrite !flat_map_app. simpl.
    rewrite app_nil_r. reflexivity. }
  rewrite Hn in Htr4, Hr4.
  exists chain, evs, r1, (store s3).
  split; [reflexivity |]. split; [rewrite <- Hst2; exact Hout |].
  split; [assumption |].
  split; [rewrite Htr4, Htr3, Htr2, <- !app_assoc; reflexivity |].
  rewrite Hr, Hr4.
  destruct (cleanupFailure instance actionsChain _) as [e |];
    [split; [right; eauto | reflexivity] | split; [left; reflexivity | reflexivity]].
Qed.

Lemma run_not_opened instance actionsChain actionParameters frameFrom frameTo
    filters cancelled s r s' :
  eventOpened instance actionsChain frameFrom frameTo = false ->
  runSingleFrameChain instance actionsChain actionParameters frameFrom frameTo
    filters cancelled s = (r, s') ->
  store s' = store s
  /\ (exists e, r = Throw e)
  /\ exists evs, trace s' = trace s ++ evs /\ kindsWithin [KLog] evs.
Proof.
  unfold eventOpened, runSingleFrameChain. intros Hopen H.
  apply bind_inv in H as [(chain & s1 & Hc & H) | [[Hc ->] | (e & Hc & ->)]];
    apply liftResult_inv in Hc as [-> Hr1];
    destruct (chainNames actionsChain) as [chain' | e0]; try discriminate.
  2:{ split; [reflexivity |]. split; [eauto |]. exists [].
      rewrite app_nil_r. split; [reflexivity | kinds_tac]. }
  inversion Hr1; subst chain'. clear Hr1.
  apply bind_inv in H as [([] & s2 & Hc & H) | [[Hc ->] | (e & Hc & ->)]];
    apply call_inv in Hc as (Hst2 & _ & Htr2 & Hr2);
    destruct (logger_log instance frameFrom frameTo chain) as [[] | e0];
    try discriminate.
  split; [assumption |]. split; [eauto |].
  exists [EvLog frameFrom frameTo chain]. split; [assumption | kinds_tac].
Qed.

(** ** The registry *)

Lemma includesName_In names n : includesName names n = true <-> In n names.
Proof.
  unfold includesName. rewrite existsb_exists. split.
  - intros (m & Hin & Heq). apply String.eqb_eq in Heq. subst. assumption.
  - intros Hin. exists n. split; [assumption | apply String.eqb_refl].
Qed.

Lemma mapResult_app {A B} (f : A -> Result B) l1 l2 ys1 ys2 :
  mapResult f l1 = Ok ys1 -> mapResult f l2 = Ok ys2 ->
  mapResult f (l1 ++ l2) = Ok (ys1 ++ ys2).
Proof.
  revert ys1. induction l1 as [| x l1 IH]; intros ys1 H1 H2; simpl in *.
  - inversion H1. assumption.
  - destruct (f x) as [y | e]; [| discriminate].
    destruct (mapResult f l1) as [ys | e]; [| discriminate].
    inversion H1; subst. rewrite (IH ys eq_refl H2). reflexivity.
Qed.

Lemma registerAction_failure_keeps_registry candidate registry e :
  fst (registerAction candidate registry) = Err e ->
  snd (registerAction candidate registry) = registry.
Proof.
  unfold registerAction. destruct candidate as [a |]; [| reflexivity].
  destruct (name a) as [n | e1]; [| reflexivity].
  destruct (mapResult name registry) as [names | e1]; [| reflexivity].
  destruct (includesName names n); [reflexivity | discriminate].
Qed.

(** C6. [registerAction] fails with an [ArgumentError] when the candidate is
    not an instance of the base class, and when its name is (by exact,
    case-sensitive comparison) the name of a registered action; a failed
    call leaves the registry as it was, so the action first registered
    under a name stays the only one; a successful call appends the action
    at the end, and names stay pairwise distinct. *)
Theorem registerAction_spec (candidate : Candidate)
    (registry : list BaseSingleFrameAction) :
  (instanceofBaseSingleFrameAction candidate = false ->
     exists msg, registerAction candidate registry
                 = (Err (ArgumentError msg), registry))
  /\ (forall a n names,
        candidate = ActionInstance a -> name a = Ok n ->
        mapResult name registry = Ok names -> In n names ->
        exists msg, registerAction candidate registry
                    = (Err (ArgumentError msg), registry))
  /\ (forall e, fst (registerAction candidate registry) = Err e ->
        snd (registerAction candidate registry) = registry)
  /\ (forall a, candidate = ActionInstance a ->
        fst (registerAction candidate registry) = Ok tt ->
        snd (registerAction candidate registry) = registry ++ [a])
  /\ (forall a n names,
        candidate = ActionInstance a -> name a = Ok n ->
        mapResult name registry = Ok names -> ~ In n names ->
        registerAction candidate registry = (Ok tt, registry ++ [a])
        /\ mapResult name (registry ++ [a]) = Ok (names ++ [n])
        /\ (NoDup names -> NoDup (names ++ [n]))).
Proof.
  split; [| split; [| split; [| split]]].
  - destruct candidate; [discriminate |]. intros _. simpl. eauto.
  - intros a n names -> Hn Hnames Hin. unfold registerAction.
    rewrite Hn, Hnames. apply includesName_In in Hin. rewrite Hin. eauto.
  - apply registerAction_failure_keeps_registry.
  - intros a ->. unfold registerAction.
    destruct (name a) as [n | e1]; [| discriminate].
    destruct (mapResult name registry) as [names | e1]; [| discriminate].
    destruct (includesName names n); [discriminate | reflexivity].
  - intros a n names -> Hn Hnames Hnin. unfold registerAction.
    rewrite Hn, Hnames.
    destruct (includesName names n) eqn:E;
      [apply includesName_In in E; contradiction |].
    split; [reflexivity |]. split.
    + apply mapResult_app; [assumption |]. simpl. rewrite Hn. reflexivity.
    + intros Hnd. apply NoDup_app. split; [assumption |]. split.
      * intros x Hx Hx'. apply list_elem_of_In in Hx.
        apply list_elem_of_In in Hx'. destruct Hx' as [<- | []]. contradiction.
      * apply NoDup_singleton.
Qed.

Lemma registerAction_spec_witness :
  (exists msg, registerAction NotAnAction initialRegistry
               = (Err (ArgumentError msg), initialRegistry))
  /\ snd (registerAction (ActionInstance RemoveFilteredShapes) initialRegistry)
     = initialRegistry
  /\ registerAction (ActionInstance sampleAction) initialRegistry
     = (Ok tt, [RemoveFilteredShapes; sampleAction]).
Proof.
  destruct (registerAction_spec NotAnAction initialRegistry) as (H1 & _).
  destruct (registerAction_spec (ActionInstance RemoveFilteredShapes) initialRegistry)
    as (_ & H2 & H3 & _).
  destruct (registerAction_spec (ActionInstance sampleAction) initialRegistry)
    as (_ & _ & _ & _ & H5).
  split; [| split].
  - exact (H1 eq_refl).
  - destruct (H2 RemoveFilteredShapes "Remove filtered shapes"
                ["Remove filtered shapes"] eq_refl eq_refl eq_refl) as [msg Hmsg].
    + simpl. auto.
    + rewrite Hmsg. reflexivity.
  - apply (H5 sampleAction "Scale" ["Remove filtered shapes"] eq_refl eq_refl eq_refl).
    simpl. intros [H | []]. discriminate.
Defined.

(** ** Parameter resolution *)

Lemma assign_lookup (m : gmap string ParameterValue) n value k :
  assign m n value !! k
  = if String.eqb n "__proto__" then m !! k
    else if decide (n = k) then Some value else m !! k.
Proof.
  unfold assign. destruct (String.eqb n "__proto__"); [reflexivity |].
  destruct (decide (n = k)) as [-> | Hne];
    [apply lookup_insert_eq | apply lookup_insert_ne, Hne].
Qed.

Lemma resolveDeclared_lookup (sv : gmap string string) (declared : ActionParameters) :
  forall acc : gmap string ParameterValue,
  NoDup (map fst declared) ->
  exists m : gmap string ParameterValue,
    fold_left (resolveStep (Some sv)) declared (Ok acc) = Ok m
    /\ (forall n d, In (n, d) declared -> n <> "__proto__" ->
          m !! n = Some (coerce (type d) (chosenValue sv n d)))
    /\ (forall n, ~ In n (map fst declared) -> m !! n = acc !! n)
    /\ m !! "__proto__" = acc !! "__proto__".
Proof.
  induction declared as [| [n0 d0] others IH]; intros acc Hnd; simpl.
  - exists acc. split; [reflexivity |]. split; [intros n d [] |]. split; reflexivity.
  - apply NoDup_cons in Hnd as [Hn0 Hnd].
    destruct (IH (assign acc n0 (coerce (type d0) (chosenValue sv n0 d0))) Hnd)
      as (m & Hm & Hin & Hout & Hproto).
    exists m. split; [exact Hm |]. split; [| split].
    + intros n d [Heq | Hd] Hne.
      * inversion Heq; subst n d. rewrite Hout.
        -- rewrite assign_lookup.
           destruct (String.eqb_spec n0 "__proto__") as [-> | _]; [contradiction |].
           destruct (decide (n0 = n0)); [reflexivity | contradiction].
        -- intros Hc. apply Hn0. apply list_elem_of_In. exact Hc.
      * apply Hin; assumption.
    + intros n Hn. rewrite Hout by tauto. rewrite assign_lookup.
      destruct (String.eqb n0 "__proto__"); [reflexivity |].
      destruct (decide (n0 = n)) as [-> | _]; [| reflexivity].
      exfalso. apply Hn. left. reflexivity.
    + rewrite Hproto, assign_lookup.
      destruct (String.eqb_spec n0 "__proto__") as [-> | Hne]; [reflexivity |].
      destruct (decide (n0 = "__proto__")); [contradiction | reflexivity].
Qed.

(** C4 (as amended). For a declared schema, whose names are pairwise
    distinct as the keys of an object are, the map handed to [init] holds
    for every declared name other than [__proto__] the caller's value when
    the caller's map has that key and the declared default otherwise,
    converted by unary plus when the kind is numeric and kept as a string
    otherwise; it holds nothing under [__proto__], which the assignment
    does not create, and nothing under any name that is not declared; a
    null schema gives the empty map.  Unary plus turns the empty string
    into 0 (not NaN), and a string that is not a numeric literal into
    NaN. *)
Theorem resolveParameters_spec (declared : ActionParameters)
    (setupValues : gmap string string) :
  NoDup (map fst declared) ->
  (exists resolved : gmap string ParameterValue,
     resolveParameters (Some declared) (Some setupValues) = Ok resolved
     /\ (forall n d, In (n, d) declared -> n <> "__proto__" ->
           resolved !! n
           = Some (coerce (type d)
                     (match setupValues !! n with
                      | Some supplied => supplied
                      | None => defaultValue d
                      end)))
     /\ resolved !! "__proto__" = None
     /\ (forall n, ~ In n (map fst declared) -> resolved !! n = None)
     /\ (forall action others actionParameters idx rejected s,
           parameters action = Ok (Some declared) ->
           actionParameters !! idx = Some setupValues ->
           initActions actionParameters idx (action :: others) rejected s
           = let called := {| store := store s; polls := polls s;
                              trace := trace s ++ [EvInit idx resolved] |} in
             match init action resolved with
             | Throws e => (Throw e, called)
             | promise =>
                 initActions actionParameters (S idx) others
                   (firstRejection rejected promise) called
             end))
  /\ resolveParameters None (Some setupValues) = Ok ∅
  /\ (forall raw, coerce SELECT raw = PString raw)
  /\ (forall raw, coerce NUMBER raw = PNumber (StringToNumber.toNumber raw))
  /\ StringToNumber.toNumber "" = numOfZ 0
  /\ StringToNumber.toNumber "5" = numOfZ 5
  /\ StringToNumber.toNumber "abc" = JNaN.
Proof.
  intros Hnd. split; [| repeat split].
  destruct (resolveDeclared_lookup setupValues declared ∅ Hnd)
    as (m & Hm & Hin & Hout & Hproto).
  exists m. split; [exact Hm |]. split; [exact Hin |].
  split; [rewrite Hproto; apply lookup_empty |]. split.
  - intros n Hn. rewrite Hout by assumption. apply lookup_empty.
  - intros action others actionParameters idx rejected s Hdecl Hsetup.
    cbn [initActions].
    unfold mbind, Run_bind, liftResult, emit. rewrite Hdecl, Hsetup. simpl.
    unfold resolveDeclared. rewrite Hm.
    destruct (init action m); reflexivity.
Qed.

Lemma resolveParameters_spec_witness :
  exists resolved : gmap string ParameterValue,
    resolveParameters
      (Some [("factor", {| type := NUMBER; values := []; defaultValue := "5" |});
             ("mode", {| type := SELECT; values := ["fast"; "slow"];
                         defaultValue := "fast" |})])
      (Some {["mode" := "slow"; "unknown" := "1"]}) = Ok resolved
    /\ resolved !! "factor" = Some (PNumber (numOfZ 5))
    /\ resolved !! "mode" = Some (PString "slow")
    /\ resolved !! "unknown" = None.
Proof.
  destruct (resolveParameters_spec
              [("factor", {| type := NUMBER; values := []; defaultValue := "5" |});
               ("mode", {| type := SELECT; values := ["fast"; "slow"];
                           defaultValue := "fast" |})]
              {["mode" := "slow"; "unknown" := "1"]})
    as ((resolved & Hres & Hin & _ & Hout & _) & _).
  - simpl. apply NoDup_cons. split; [| apply NoDup_singleton].
    intros H. apply list_elem_of_In in H. simpl in H. intuition discriminate.
  - exists resolved. split; [exact Hres |]. split; [| split].
    + rewrite (Hin "factor" {| type := NUMBER; values := []; defaultValue := "5" |});
        [reflexivity | simpl; auto | discriminate].
    + rewrite (Hin "mode" {| type := SELECT; values := ["fast"; "slow"];
                             defaultValue := "fast" |});
        [reflexivity | simpl; auto | discriminate].
    + apply Hout. simpl. intuition discriminate.
Defined.

(** C4, the counterexample: against the default "5" a supplied empty string
    resolves to the number 0, not to NaN. *)
Lemma resolveParameters_empty_string_is_zero :
  exists resolved : gmap string ParameterValue,
    resolveParameters
      (Some [("factor", {| type := NUMBER; values := []; defaultValue := "5" |})])
      (Some {["factor" := ""]}) = Ok resolved
    /\ resolved !! "factor" = Some (PNumber (numOfZ 0))
    /\ resolved !! "factor" <> Some (PNumber JNaN).
Proof.
  eexists. split; [reflexivity |]. split; [reflexivity |].
  vm_compute. discriminate.
Qed.

(** ** Whole runs *)

Lemma destroy_events_kinds l : kindsWithin [KDestroy] (map EvDestroy l).
Proof. induction l; simpl; kinds_tac. Qed.

Lemma progressCalls_app evs1 evs2 :
  progressCalls (evs1 ++ evs2) = progressCalls evs1 ++ progressCalls evs2.
Proof. unfold progressCalls. apply flat_map_app. Qed.

Lemma destroy_events_progressCalls l : progressCalls (map EvDestroy l) = [].
Proof. induction l; simpl; auto. Qed.

(** The trace of a run whose audit event was opened. *)
Lemma run_opened_trace instance actionsChain actionParameters frameFrom frameTo
    filters cancelled st r s' :
  eventOpened instance actionsChain frameFrom frameTo = true ->
  runSingleFrameChain instance actionsChain actionParameters frameFrom frameTo
    filters cancelled (startOf st) = (r, s') ->
  exists chain evs r1,
    TryOutcome instance actionsChain frameFrom frameTo filters st evs r1 (store s')
    /\ trace s' = EvLog frameFrom frameTo chain :: evs
                    ++ EvProgress "Finalizing" 100
                    :: map EvDestroy
                         (seq 0 (cleanupCalls instance actionsChain
                                   (length (progressCalls evs))))
    /\ answers (trace s') = answers evs
    /\ imports (trace s') = imports evs
    /\ percentages (trace s') = percentages evs ++ [100]
    /\ (r = r1 \/ exists e, r = Throw e)
    /\ r = match cleanupFailure instance actionsChain
                  (length (progressCalls evs)) with
           | Some e => Throw e
           | None => r1
           end.
Proof.
  intros Hopen H.
  apply run_opened in H as (chain & evs & r1 & st1 & _ & Hout & <- & Htr & Hr & Hok);
    [| assumption].
  simpl in Htr, Hout, Hok. exists chain, evs, r1.
  set (n := cleanupCalls instance actionsChain (length (progressCalls evs))) in *.
  pose proof (destroy_events_kinds (seq 0 n)) as Hd.
  split; [exact Hout |]. split; [exact Htr |].
  change (EvLog frameFrom frameTo chain :: evs
            ++ EvProgress "Finalizing" 100
            :: map EvDestroy (seq 0 n))
    with ([EvLog frameFrom frameTo chain] ++ evs
            ++ [EvProgress "Finalizing" 100]
            ++ map EvDestroy (seq 0 n)) in Htr.
  split; [| split; [| split; [| split; assumption]]]; rewrite Htr.
  - rewrite !answers_app, (kindsWithin_answers _ _ Hd) by (simpl; intuition discriminate).
    simpl. rewrite app_nil_r. reflexivity.
  - rewrite !imports_app, (kindsWithin_imports _ _ Hd) by (simpl; intuition discriminate).
    simpl. rewrite app_nil_r. reflexivity.
  - rewrite !percentages_app, (kindsWithin_percentages _ _ Hd)
      by (simpl; intuition discriminate).
    reflexivity.
Qed.

Lemma run_opened_kinds instance actionsChain actionParameters frameFrom frameTo
    filters cancelled st r s' kinds :
  eventOpened instance actionsChain frameFrom frameTo = true ->
  runSingleFrameChain instance actionsChain actionParameters frameFrom frameTo
    filters cancelled (startOf st) = (r, s') ->
  (forall evs r1,
     TryOutcome instance actionsChain frameFrom frameTo filters st evs r1 (store s') ->
     answers (trace s') = answers evs ->
     kindsWithin kinds evs) ->
  kindsWithin (KLog :: KProgress :: KDestroy :: kinds) (trace s').
Proof.
  intros Hopen H Hk.
  apply run_opened_trace in H as (chain & evs & r1 & Hout & Htr & Ha & _);
    [| assumption].
  specialize (Hk evs r1 Hout Ha). rewrite Htr.
  match type of Htr with
  | context [map EvDestroy (seq 0 ?n)] =>
      pose proof (destroy_events_kinds (seq 0 n)) as Hd
  end.
  apply kindsWithin_cons; [simpl; tauto |].
  apply kindsWithin_app; [kinds_tac |].
  apply kindsWithin_cons; [simpl; tauto | kinds_tac].
Qed.

(** The calls of the progress wrapper of an opened run but the last. *)
Lemma run_opened_reported frameFrom frameTo chain evs n :
  Nat.pred (length (progressCalls
                      (EvLog frameFrom frameTo chain :: evs
                         ++ EvProgress "Finalizing" 100
                         :: map EvDestroy (seq 0 n))))
  = length (progressCalls evs).
Proof.
  change (EvLog frameFrom frameTo chain :: evs
            ++ EvProgress "Finalizing" 100 :: map EvDestroy (seq 0 n))
    with ([EvLog frameFrom frameTo chain] ++ evs
            ++ [EvProgress "Finalizing" 100] ++ map EvDestroy (seq 0 n)).
  rewrite !progressCalls_app, destroy_events_progressCalls. simpl.
  rewrite length_app. simpl. lia.
Qed.

(** C2 (as amended). When the cancellation predicate answers true at a
    checkpoint of a run, no call of [annotations.clear], [actions.clear]
    or [annotations.import] is made and the store is what it was before
    the run.  The run then ends by [return] when the cleanup succeeds, and
    with the error of the cleanup otherwise: that of the "Finalizing"
    notification when it throws, else what a [destroy] throws, else the
    rejection of a [destroy] that comes first.  If the first poll already
    answers true, nothing but the opening of the audit event, the
    initialization message and the cleanup happens. *)
Theorem cancelled_run_leaves_store instance actionsChain actionParameters
    frameFrom frameTo filters cancelled st r s' :
  runSingleFrameChain instance actionsChain actionParameters frameFrom frameTo
    filters cancelled (startOf st) = (r, s') ->
  In (EvCancelled true) (trace s') ->
  store s' = st
  /\ ~ In EvAnnotationsClear (trace s')
  /\ ~ In EvActionsClear (trace s')
  /\ (forall c, ~ In (EvImport c) (trace s'))
  /\ r = match cleanupFailure instance actionsChain
                (Nat.pred (length (progressCalls (trace s')))) with
         | Some e => Throw e
         | None => Return
         end
  /\ ((forall n, onProgress instance n "Finalizing" 100 = Ok tt) ->
      Forall (fun a => destroy a = Fulfils tt) actionsChain ->
      r = Return)
  /\ (cancelled 0%nat = true ->
        exists chain,
          trace s' = [EvLog frameFrom frameTo chain;
                      EvProgress "Actions initialization" 0;
                      EvCancelled true;
                      EvProgress "Finalizing" 100]
                     ++ map EvDestroy
                          (seq 0 (cleanupCalls instance actionsChain 1))).
Proof.
  intros H Hin.
  destruct (eventOpened instance actionsChain frameFrom frameTo) eqn:Hopen.
  2:{ exfalso. apply run_not_opened in H as (_ & _ & evs & Htr & Hk); [| assumption].
      simpl in Htr. rewrite Htr in Hin. revert Hin.
      apply (kindsWithin_not_In _ _ _ Hk). simpl. intuition discriminate. }
  pose proof H as Hrun.
  apply run_opened_trace in H as (chain & evs & r1 & Hout & Htr & Ha & _ & _ & Hr & Hok);
    [| assumption].
  pose proof Hin as Hin0.
  apply In_answers in Hin. rewrite Ha in Hin.
  destruct Hout as (_ & _ & Hcan & _). destruct (Hcan Hin) as (-> & Hst & Hquiet).
  assert (Hk : kindsWithin (KLog :: KProgress :: KDestroy :: quietKinds) (trace s')).
  { apply (run_opened_kinds _ _ _ _ _ _ _ _ _ _ _ Hopen Hrun).
    intros evs' r1' (_ & _ & Hcan' & _) Ha'. apply Hcan'. rewrite <- Ha', Ha. exact Hin. }
  assert (Hrep : Nat.pred (length (progressCalls (trace s')))
                 = length (progressCalls evs))
    by (rewrite Htr; apply run_opened_reported).
  split; [exact Hst |].
  split; [apply (kindsWithin_not_In _ _ _ Hk); simpl; intuition discriminate |].
  split; [apply (kindsWithin_not_In _ _ _ Hk); simpl; intuition discriminate |].
  split; [intros c; apply (kindsWithin_not_In _ _ _ Hk); simpl; intuition discriminate |].
  split; [rewrite Hrep; exact Hok |].
  split.
  { intros Hfin Hdes. rewrite Hok.
    destruct (cleanup_ok instance actionsChain (length (progressCalls evs))
                (Hfin _) Hdes) as [-> _]. reflexivity. }
  intros Hfirst. clear - Hrun Hopen Hfirst Hin0.
  unfold runSingleFrameChain, eventOpened in *.
  destruct (chainNames actionsChain) as [chain | e0]; [| discriminate].
  destruct (logger_log instance frameFrom frameTo chain) as [[] | e0] eqn:Hlog;
    [| discriminate].
  exists chain.
  unfold mbind, Run_bind, liftResult, call, emit, tryFinally, tryBlock,
    initialization, showMessageWithPause, wrappedOnProgress, checkpoint, poll,
    returnEarly in Hrun.
  simpl in Hrun. unfold mbind, Run_bind, call, emit, liftResult in Hrun.
  rewrite Hlog in Hrun. simpl in Hrun.
  unfold mbind, Run_bind in Hrun. simpl in Hrun.
  destruct (onProgress instance 0 "Actions initialization" 0) as [[] | e0] eqn:Hp0;
    simpl in Hrun.
  - rewrite Hfirst in Hrun.
    match type of Hrun with
    | context [finallyBlock instance actionsChain ?s0] =>
        destruct (finallyBlock instance actionsChain s0) as [r2 s2] eqn:Hfin
    end.
    apply finallyBlock_inv in Hfin as (_ & Htr & _). simpl in Htr.
    destruct r2 as [[] | | e]; inversion Hrun; subst; exact Htr.
  - exfalso.
    match type of Hrun with
    | context [finallyBlock instance actionsChain ?s0] =>
        destruct (finallyBlock instance actionsChain s0) as [r2 s2] eqn:Hfin
    end.
    apply finallyBlock_inv in Hfin as (_ & Htr & _). simpl in Htr.
    assert (Hs : s' = s2) by (destruct r2 as [[] | | e]; inversion Hrun; reflexivity).
    subst s2. rewrite Htr in Hin0. simpl in Hin0.
    destruct Hin0 as [Hin0 | [Hin0 | [Hin0 | Hin0]]]; try discriminate.
    revert Hin0. apply (kindsWithin_not_In [KDestroy]);
      [apply destroy_events_kinds | simpl; intuition discriminate].
Qed.

(** ** Progress percentages *)

Lemma In_frameRange frameFrom frameTo f :
  In f (frameRange frameFrom frameTo) <-> frameFrom <= f <= frameTo.
Proof.
  unfold frameRange. rewrite in_map_iff. split.
  - intros (k & <- & Hk). apply in_seq in Hk. lia.
  - intros Hf. exists (Z.to_nat (f - frameFrom)). split; [lia |].
    apply in_seq. lia.
Qed.

Lemma frameRange_sorted frameFrom frameTo :
  StronglySorted Z.lt (frameRange frameFrom frameTo).
Proof.
  unfold frameRange. generalize (Z.to_nat (frameTo - frameFrom + 1)) as n.
  generalize 0%nat as start. intros start n. revert start.
  induction n as [| n IH]; intros start; simpl; constructor.
  - apply IH.
  - apply List.Forall_forall. intros x Hx. apply in_map_iff in Hx as (k & <- & Hk).
    apply in_seq in Hk. lia.
Qed.

Lemma sublist_In {A} (l1 l2 : list A) x : l1 `sublist_of` l2 -> In x l1 -> In x l2.
Proof.
  induction 1 as [| y l1 l2 _ IH | y l1 l2 _ IH]; simpl; [tauto | | tauto].
  intros [-> | H]; auto.
Qed.

Lemma StronglySorted_sublist {A} (R : A -> A -> Prop) (l1 l2 : list A) :
  l1 `sublist_of` l2 -> StronglySorted R l2 -> StronglySorted R l1.
Proof.
  induction 1 as [| y l1 l2 Hsub IH | y l1 l2 Hsub IH]; intros Hs.
  - constructor.
  - inversion Hs as [| ? ? Hs' Hall]; subst. constructor; [apply IH, Hs' |].
    apply List.Forall_forall. intros x Hx.
    rewrite List.Forall_forall in Hall. apply Hall. eapply sublist_In; eassumption.
  - inversion Hs; subst. apply IH. assumption.
Qed.

(** The per-frame percentage, as the loop computes it in binary64: it is
    monotone in the frame and lies between 0 and 100 within the range. *)
Section ProgressAt.

Import Binary64 Binary64Facts.
Local Open Scope Q_scope.

Variables frameFrom frameTo : Z.
Hypothesis range : (frameFrom <= frameTo)%Z.

(** [totalFrames], and [frame - frameFrom] for a frame of the range, as
    the loop has them. *)
Lemma totalFrames_ge_1 :
  1 <= add (sub (inject_Z frameTo) (inject_Z frameFrom)) 1.
Proof.
  unfold add, sub.
  assert (H0 : 0 <= inject_Z frameTo - inject_Z frameFrom).
  { assert (inject_Z frameFrom <= inject_Z frameTo) by (rewrite <- Zle_Qle; lia).
    lra. }
  pose proof (round_nonneg _ H0) as Hn.
  change 1 with (round 1) at 1. apply round_le; lra.
Qed.

Lemma offset_le_totalFrames f :
  (frameFrom <= f <= frameTo)%Z ->
  0 <= sub (inject_Z f) (inject_Z frameFrom)
  /\ sub (inject_Z f) (inject_Z frameFrom)
     <= add (sub (inject_Z frameTo) (inject_Z frameFrom)) 1.
Proof.
  intros Hf. unfold add, sub.
  assert (H0 : 0 <= inject_Z f - inject_Z frameFrom).
  { assert (inject_Z frameFrom <= inject_Z f) by (rewrite <- Zle_Qle; lia).
    lra. }
  assert (H1 : inject_Z f - inject_Z frameFrom <= inject_Z frameTo - inject_Z frameFrom).
  { assert (inject_Z f <= inject_Z frameTo) by (rewrite <- Zle_Qle; lia).
    lra. }
  split; [apply round_nonneg, H0 |].
  pose proof (round_le _ _ H0 H1) as Hk.
  assert (HA : 0 <= round (inject_Z frameTo - inject_Z frameFrom))
    by (apply round_nonneg; lra).
  eapply Qle_trans; [exact Hk |].
  rewrite <- (round_idempotent (inject_Z frameTo - inject_Z frameFrom)) at 1 by lra.
  apply round_le; lra.
Qed.

Lemma progressAt_mono f g :
  (frameFrom <= f)%Z -> (f <= g)%Z ->
  (progressAt frameFrom frameTo f <= progressAt frameFrom frameTo g)%Z.
Proof.
  intros Hf Hfg. unfold progressAt, mul, div.
  pose proof totalFrames_ge_1 as Hn.
  set (n := add (sub (inject_Z frameTo) (inject_Z frameFrom)) 1) in *.
  assert (H0 : 0 <= inject_Z f - inject_Z frameFrom).
  { assert (inject_Z frameFrom <= inject_Z f) by (rewrite <- Zle_Qle; lia).
    lra. }
  assert (H1 : inject_Z f - inject_Z frameFrom <= inject_Z g - inject_Z frameFrom).
  { assert (inject_Z f <= inject_Z g) by (rewrite <- Zle_Qle; lia).
    lra. }
  assert (Hk0 : 0 <= sub (inject_Z f) (inject_Z frameFrom))
    by (apply round_nonneg, H0).
  assert (Hk : sub (inject_Z f) (inject_Z frameFrom)
               <= sub (inject_Z g) (inject_Z frameFrom))
    by (apply round_le; assumption).
  set (kf := sub (inject_Z f) (inject_Z frameFrom)) in *.
  set (kg := sub (inject_Z g) (inject_Z frameFrom)) in *.
  assert (Hinv : 0 < / n) by (apply Qinv_lt_0_compat; lra).
  assert (Hq0 : 0 <= kf / n) by (unfold Qdiv; nra).
  assert (Hq : kf / n <= kg / n) by (unfold Qdiv; nra).
  pose proof (round_nonneg _ Hq0) as Hr0.
  pose proof (round_le _ _ Hq0 Hq) as Hr.
  apply Qceiling_resp_le. apply round_le; lra.
Qed.

Lemma progressAt_bounds f :
  (frameFrom <= f <= frameTo)%Z ->
  (0 <= progressAt frameFrom frameTo f <= 100)%Z.
Proof.
  intros Hf. unfold progressAt, mul, div.
  pose proof totalFrames_ge_1 as Hn.
  destruct (offset_le_totalFrames f Hf) as [Hk0 Hk].
  set (n := add (sub (inject_Z frameTo) (inject_Z frameFrom)) 1) in *.
  set (k := sub (inject_Z f) (inject_Z frameFrom)) in *.
  assert (Hinv : 0 < / n) by (apply Qinv_lt_0_compat; lra).
  assert (Hq0 : 0 <= k / n) by (unfold Qdiv; nra).
  assert (Hq1 : k / n <= 1) by (apply Qle_shift_div_r; lra).
  pose proof (round_nonneg _ Hq0) as Hr0.
  pose proof (round_le _ _ Hq0 Hq1) as Hr1. change (round 1) with 1 in Hr1.
  assert (Hp0 : 0 <= round (k / n) * 100) by lra.
  assert (Hp1 : round (k / n) * 100 <= 100) by lra.
  pose proof (round_nonneg _ Hp0) as Hs0.
  pose proof (round_le _ _ Hp0 Hp1) as Hs1. change (round 100) with 100 in Hs1.
  split.
  - change 0%Z with (Qceiling 0). apply Qceiling_resp_le. exact Hs0.
  - change 100%Z with (Qceiling 100). apply Qceiling_resp_le. exact Hs1.
Qed.

(** The first frame of the range reports 0. *)
Lemma progressAt_first : progressAt frameFrom frameTo frameFrom = 0%Z.
Proof.
  unfold progressAt, mul, div.
  assert (Hk : sub (inject_Z frameFrom) (inject_Z frameFrom) = 0)
    by (unfold sub; apply round_zero; ring).
  rewrite Hk.
  assert (Hq : round (0 / add (sub (inject_Z frameTo) (inject_Z frameFrom)) 1) = 0)
    by (apply round_zero; unfold Qdiv; ring).
  rewrite Hq. reflexivity.
Qed.

End ProgressAt.

(** After frame 11 of the frames 0 to 19 the report is 56, one more than
    the exact ceiling: [(11 / 20) * 100] is [55.00000000000001] in
    binary64. *)
Example progressAt_0_19_11 :
  progressAt 0 19 11 = 56 /\ Qceiling ((11 # 20) * 100)%Q = 55.
Proof. vm_compute. split; reflexivity. Qed.

Lemma StronglySorted_app_le (l1 l2 : list Z) (b : Z) :
  StronglySorted Z.le l1 -> StronglySorted Z.le l2 ->
  List.Forall (fun x => x <= b) l1 -> List.Forall (fun x => b <= x) l2 ->
  StronglySorted Z.le (l1 ++ l2).
Proof.
  intros H1 H2 Hb1 Hb2. induction H1 as [| x l1 Hs IH Hall]; simpl; [assumption |].
  inversion Hb1 as [| ? ? Hx Hb1']; subst.
  constructor; [apply IH, Hb1' |].
  apply List.Forall_app. split; [assumption |].
  rewrite List.Forall_forall in Hb2 |- *. intros y Hy. specialize (Hb2 y Hy). lia.
Qed.

Lemma reported_percentages_sorted frameFrom frameTo reported :
  reported `sublist_of` frameRange frameFrom frameTo ->
  StronglySorted Z.le (map (progressAt frameFrom frameTo) reported)
  /\ List.Forall (fun x => 0 <= x <= 100) (map (progressAt frameFrom frameTo) reported).
Proof.
  intros Hsub.
  assert (Hin : forall f, In f reported -> frameFrom <= f <= frameTo).
  { intros f Hf. apply In_frameRange. eapply sublist_In; eassumption. }
  pose proof (StronglySorted_sublist _ _ _ Hsub (frameRange_sorted frameFrom frameTo)) as Hs.
  clear Hsub. induction Hs as [| f l Hs IH Hall]; simpl.
  - split; constructor.
  - destruct IH as [IH1 IH2]; [intros g Hg; apply Hin; right; exact Hg |].
    assert (Hf : frameFrom <= f <= frameTo) by (apply Hin; left; reflexivity).
    split; constructor; try assumption.
    + apply List.Forall_forall. intros p Hp. apply in_map_iff in Hp as (g & <- & Hg).
      rewrite List.Forall_forall in Hall. specialize (Hall g Hg).
      apply progressAt_mono; lia.
    + apply progressAt_bounds; [lia | exact Hf].
Qed.

(** C9 (as amended). In a run whose audit event was opened, the percentages
    given to the progress wrapper are: 0 for the initialization message,
    then for an ascending selection of the frames of the range the value of
    [Math.ceil(((frame - frameFrom) / totalFrames) * 100)] in binary64
    arithmetic, then 100 for the commit message when the run gets there,
    then 100 for the finalizing message.  The report of a frame lies
    between 0 and 100, does not decrease from a frame to a later one, and
    measures the share of the range that lies before the frame, so that
    the frame that has just been processed is not counted: it is 0 for the
    first frame of the range.  The sequence never decreases, nor does any
    selection of it that a throttle delivers, and its last entry is 100. *)
Theorem progress_percentages instance actionsChain actionParameters
    frameFrom frameTo filters cancelled st r s' :
  eventOpened instance actionsChain frameFrom frameTo = true ->
  runSingleFrameChain instance actionsChain actionParameters frameFrom frameTo
    filters cancelled (startOf st) = (r, s') ->
  (exists reported tail,
     reported `sublist_of` frameRange frameFrom frameTo
     /\ (tail = [] \/ tail = [100])
     /\ percentages (trace s')
        = 0 :: map (progressAt frameFrom frameTo) reported ++ tail ++ [100]
     /\ (forall f, In f reported ->
           frameFrom <= f <= frameTo
           /\ 0 <= progressAt frameFrom frameTo f <= 100))
  /\ (forall f g, frameFrom <= f -> f <= g -> g <= frameTo ->
        progressAt frameFrom frameTo f <= progressAt frameFrom frameTo g)
  /\ (frameFrom <= frameTo -> progressAt frameFrom frameTo frameFrom = 0)
  /\ StronglySorted Z.le (percentages (trace s'))
  /\ (forall delivered,
        delivered `sublist_of` percentages (trace s') ->
        StronglySorted Z.le delivered)
  /\ last (percentages (trace s')) = Some 100.
Proof.
  intros Hopen H.
  apply run_opened_trace in H as (chain & evs & r1 & Hout & _ & _ & _ & Hp & _);
    [| assumption].
  destruct Hout as (_ & (reported & tail & Hsub & Htail & Hpe) & _).
  rewrite Hpe in Hp. simpl in Hp. rewrite <- app_assoc in Hp.
  assert (Hsorted : StronglySorted Z.le (percentages (trace s'))).
  { rewrite Hp. destruct (reported_percentages_sorted _ _ _ Hsub) as [Hs Hb].
    change (StronglySorted Z.le
              ([0] ++ map (progressAt frameFrom frameTo) reported ++ tail ++ [100])).
    apply (StronglySorted_app_le _ _ 0).
    - repeat constructor.
    - apply (StronglySorted_app_le _ _ 100); [assumption | | |].
      + destruct Htail as [-> | ->]; repeat constructor; lia.
      + rewrite List.Forall_forall in Hb |- *. intros x Hx. apply Hb in Hx. lia.
      + destruct Htail as [-> | ->]; repeat constructor; lia.
    - repeat constructor. lia.
    - apply List.Forall_app. split.
      + rewrite List.Forall_forall in Hb |- *. intros x Hx. apply Hb in Hx. lia.
      + destruct Htail as [-> | ->]; repeat constructor; lia. }
  split; [| split; [| split; [| split; [exact Hsorted | split]]]].
  - exists reported, tail. split; [assumption |]. split; [assumption |].
    split; [exact Hp |].
    intros f Hf.
    assert (Hr : frameFrom <= f <= frameTo)
      by (apply In_frameRange; eapply sublist_In; eassumption).
    split; [exact Hr | apply progressAt_bounds; [lia | exact Hr]].
  - intros f g Hf Hfg Hg. apply progressAt_mono; lia.
  - intros _. apply progressAt_first.
  - intros delivered Hd. eapply StronglySorted_sublist; eassumption.
  - rewrite Hp.
    change (0 :: map (progressAt frameFrom frameTo) reported ++ tail ++ [100])
      with ([0] ++ map (progressAt frameFrom frameTo) reported ++ tail ++ [100]).
    rewrite !app_assoc. apply last_snoc.
Qed.

Lemma progress_percentages_witness :
  percentages
    (trace (snd (runSingleFrameChain sampleSession [sampleAction] [∅] 0 2 []
                   neverCancelled (startOf sampleStore))))
  = [0; 0; 67; 100; 100]
  /\ StronglySorted Z.le
       (percentages
          (trace (snd (runSingleFrameChain sampleSession [sampleAction] [∅] 0 2 []
                         neverCancelled (startOf sampleStore))))).
Proof.
  split; [vm_compute; reflexivity |].
  destruct (progress_percentages sampleSession [sampleAction] [∅] 0 2 []
              neverCancelled sampleStore _ _ eq_refl (surjective_pairing _))
    as (_ & _ & _ & Hsorted & _).
  exact Hsorted.
Defined.

(** C9, the counterexample: over the one-frame range [0, 0] the report made
    after the frame has been processed is 0, whereas one frame completed
    out of one is 100 percent. *)
Lemma progress_after_only_frame_is_zero :
  progressCalls
    (trace (snd (runSingleFrameChain sampleSession [] [] 0 0 []
                   neverCancelled (startOf sampleStore))))
  = [("Actions initialization", 0); ("Actions are running", 0);
     ("Commiting handled objects", 100); ("Finalizing", 100)]
  /\ Qceiling (inject_Z 1 / inject_Z 1 * inject_Z 100) = 100
  /\ progressAt 0 0 0 <> Qceiling (inject_Z 1 / inject_Z 1 * inject_Z 100).
Proof.
  split; [vm_compute; reflexivity |]. split; [vm_compute; reflexivity |].
  vm_compute. discriminate.
Qed.

(** ** Cleanup *)

Lemma kindsWithin_progressCalls kinds evs :
  kindsWithin kinds evs -> ~ In KProgress kinds -> progressCalls evs = [].
Proof.
  unfold kindsWithin. intros H Hn. induction H as [| ev evs Hev _ IH]; [reflexivity |].
  change (ev :: evs) with ([ev] ++ evs).
  rewrite progressCalls_app, IH, app_nil_r.
  destruct ev; try reflexivity. simpl in Hev. contradiction.
Qed.

Lemma destroyCalls_all actions :
  Forall (fun a => forall e, destroy a <> Throws e) actions ->
  destroyCalls actions = length actions.
Proof.
  intros Hok. induction Hok as [| a others Ha _ IH]; simpl; [reflexivity |].
  destruct (destroy a) as [e | [] | t e]; [exfalso; exact (Ha e eq_refl) | |];
    rewrite IH; reflexivity.
Qed.

(** C5 (as amended). Once the audit event of a run has been opened (the
    names of the chain were read and [logger.log] succeeded), the run ends,
    however it ends (normally, by a cancellation, or by an error of [init],
    [run], the progress callback or a collaborator), with the "Finalizing"
    notification at 100, which is its last progress notification, followed
    by the calls of [destroy]: none when that notification throws, and
    otherwise one per position of the chain, in chain order, up to and
    including the first [destroy] that throws when it is called.  So
    [destroy] is invoked at most once on each action, and exactly once on
    each when the notification does not throw and no [destroy] throws when
    called; a [destroy] whose promise is rejected does not keep the later
    ones from being invoked. *)
Theorem cleanup_after_opening instance actionsChain actionParameters
    frameFrom frameTo filters cancelled st r s' :
  eventOpened instance actionsChain frameFrom frameTo = true ->
  runSingleFrameChain instance actionsChain actionParameters frameFrom frameTo
    filters cancelled (startOf st) = (r, s') ->
  (exists before,
     kindsWithin (KLog :: tryKinds) before
     /\ trace s' = before ++ EvProgress "Finalizing" 100
                     :: map EvDestroy
                          (seq 0 (cleanupCalls instance actionsChain
                                    (length (progressCalls before)))))
  /\ last (progressCalls (trace s')) = Some ("Finalizing", 100)
  /\ (forall idx, (destroyCount idx (trace s') <= 1)%nat)
  /\ (forall idx, (length actionsChain <= idx)%nat ->
        destroyCount idx (trace s') = 0%nat)
  /\ ((forall n, onProgress instance n "Finalizing" 100 = Ok tt) ->
      Forall (fun a => forall e, destroy a <> Throws e) actionsChain ->
      forall idx, (idx < length actionsChain)%nat ->
        destroyCount idx (trace s') = 1%nat).
Proof.
  intros Hopen H.
  apply run_opened_trace in H as (chain & evs & r1 & Hout & Htr & _);
    [| assumption].
  destruct Hout as (Hk & _).
  assert (Hb : kindsWithin (KLog :: tryKinds) (EvLog frameFrom frameTo chain :: evs)).
  { apply kindsWithin_cons; [simpl; tauto | kinds_tac]. }
  set (n := cleanupCalls instance actionsChain (length (progressCalls evs))) in *.
  assert (Hn : (n <= length actionsChain)%nat) by apply cleanupCalls_le.
  assert (Htr' : trace s' = (EvLog frameFrom frameTo chain :: evs)
                   ++ [EvProgress "Finalizing" 100]
                   ++ map EvDestroy (seq 0 n))
    by (rewrite Htr; reflexivity).
  assert (Hcount : forall idx,
    destroyCount idx (trace s')
    = (if (0 <=? idx)%nat && (idx <? 0 + n)%nat then 1 else 0)%nat).
  { intros idx. rewrite Htr', !destroyCount_app, destroyCount_seq.
    rewrite (kindsWithin_destroyCount _ _ idx Hb)
      by (unfold tryKinds; simpl; intuition discriminate).
    reflexivity. }
  split; [exists (EvLog frameFrom frameTo chain :: evs); split; assumption |].
  split; [| split; [| split]].
  - rewrite Htr', !progressCalls_app, destroy_events_progressCalls, app_nil_r.
    apply last_snoc.
  - intros idx. rewrite Hcount.
    destruct ((0 <=? idx)%nat && (idx <? 0 + n)%nat); lia.
  - intros idx Hidx. rewrite Hcount.
    replace (idx <? 0 + n)%nat with false
      by (symmetry; apply Nat.ltb_ge; lia).
    reflexivity.
  - intros Hfin Hdes idx Hidx. rewrite Hcount.
    assert (Hall : n = length actionsChain).
    { unfold n, cleanupCalls. rewrite Hfin. apply destroyCalls_all, Hdes. }
    replace (idx <? 0 + n)%nat with true
      by (symmetry; apply Nat.ltb_lt; lia).
    reflexivity.
Qed.

Lemma cleanup_after_opening_witness :
  fst (runSingleFrameChain sampleSession [failingAction; RemoveFilteredShapes] []
         0 2 [] neverCancelled (startOf sampleStore))
  = Throw (DataError "cannot initialize")
  /\ destroyCount 0
       (trace (snd (runSingleFrameChain sampleSession
                      [failingAction; RemoveFilteredShapes] [] 0 2 []
                      neverCancelled (startOf sampleStore)))) = 1%nat
  /\ destroyCount 1
       (trace (snd (runSingleFrameChain sampleSession
                      [failingAction; RemoveFilteredShapes] [] 0 2 []
                      neverCancelled (startOf sampleStore)))) = 1%nat.
Proof.
  destruct (cleanup_after_opening sampleSession [failingAction; RemoveFilteredShapes]
              [] 0 2 [] neverCancelled sampleStore _ _ eq_refl (surjective_pairing _))
    as (_ & _ & _ & _ & Hone).
  assert (Hdes : Forall (fun a => forall e, destroy a <> Throws e)
                   [failingAction; RemoveFilteredShapes])
    by (repeat constructor; intros e; discriminate).
  split; [vm_compute; reflexivity |].
  split; apply (Hone (fun _ => eq_refl) Hdes); simpl; lia.
Defined.

(** C5, the counterexample: when the logger, a collaborator, rejects the
    event, the run ends with that error, [destroy] is not invoked and no
    progress notification is made. *)
Lemma no_cleanup_when_logger_rejects :
  fst (runSingleFrameChain failingLoggerSession [RemoveFilteredShapes] [] 0 2 []
         neverCancelled (startOf sampleStore))
  = Throw (ServerError "log rejected" 500)
  /\ destroyCount 0
       (trace (snd (runSingleFrameChain failingLoggerSession [RemoveFilteredShapes]
                      [] 0 2 [] neverCancelled (startOf sampleStore)))) = 0%nat
  /\ progressCalls
       (trace (snd (runSingleFrameChain failingLoggerSession [RemoveFilteredShapes]
                      [] 0 2 [] neverCancelled (startOf sampleStore)))) = [].
Proof. vm_compute. auto. Qed.

Lemma cancelled_run_leaves_store_witness :
  store (snd (runSingleFrameChain sampleSession [RemoveFilteredShapes] [] 0 2 []
                (fun n => Nat.eqb n 1) (startOf sampleStore))) = sampleStore
  /\ fst (runSingleFrameChain sampleSession [RemoveFilteredShapes] [] 0 2 []
            (fun n => Nat.eqb n 1) (startOf sampleStore)) = Return.
Proof.
  destruct (cancelled_run_leaves_store sampleSession [RemoveFilteredShapes] [] 0 2 []
              (fun n => Nat.eqb n 1) sampleStore _ _ (surjective_pairing _))
    as (Hstore & _ & _ & _ & _ & Hret & _).
  - vm_compute. tauto.
  - split; [exact Hstore |].
    apply Hret; [intros n; reflexivity | repeat constructor].
Defined.

(** C2, the counterexample: a run that is cancelled at its first
    checkpoint and whose only action has a [destroy] that rejects does not
    return: it rejects with the error of that [destroy]; the store is
    left as it was. *)
Lemma cancelled_run_can_reject :
  In (EvCancelled true)
    (trace (snd (runSingleFrameChain sampleSession [leakyAction] [] 0 2 []
                   (fun _ => true) (startOf sampleStore))))
  /\ fst (runSingleFrameChain sampleSession [leakyAction] [] 0 2 []
            (fun _ => true) (startOf sampleStore))
     = Throw (DataError "cannot release")
  /\ fst (runSingleFrameChain sampleSession [leakyAction] [] 0 2 []
            (fun _ => true) (startOf sampleStore)) <> Return
  /\ store (snd (runSingleFrameChain sampleSession [leakyAction] [] 0 2 []
                   (fun _ => true) (startOf sampleStore))) = sampleStore.
Proof.
  split; [vm_compute; tauto |]. split; [vm_compute; reflexivity |].
  split; [vm_compute; discriminate | vm_compute; reflexivity].
Qed.

(** ** The committed collection *)

Lemma run_import instance actionsChain actionParameters frameFrom frameTo
    filters cancelled st r s' c :
  runSingleFrameChain instance actionsChain actionParameters frameFrom frameTo
    filters cancelled (startOf st) = (r, s') ->
  In (EvImport c) (trace s') ->
  c = committedCollection instance actionsChain filters (annotations st)
        (frameRange frameFrom frameTo).
Proof.
  intros H Hin.
  destruct (eventOpened instance actionsChain frameFrom frameTo) eqn:Hopen.
  - apply run_opened_trace in H as (chain & evs & r1 & Hout & _ & _ & Hi & _);
      [| assumption].
    apply In_imports in Hin. rewrite Hi in Hin.
    destruct Hout as (_ & _ & _ & [Himp | Himp] & _); rewrite Himp in Hin.
    + destruct Hin.
    + destruct Hin as [<- | []]. reflexivity.
  - exfalso. apply run_not_opened in H as (_ & _ & evs & Htr & Hk); [| assumption].
    simpl in Htr. rewrite Htr in Hin. revert Hin.
    apply (kindsWithin_not_In _ _ _ Hk). simpl. intuition discriminate.
Qed.

Lemma includes_app ids1 ids2 v :
  includes (ids1 ++ ids2) v = includes ids1 v || includes ids2 v.
Proof. unfold includes. apply existsb_app. Qed.

Lemma includes_flat_map {A} (g : A -> list JSValue) (l : list A) v :
  includes (flat_map g l) v = existsb (fun a => includes (g a) v) l.
Proof.
  induction l as [| a l IH]; simpl; [reflexivity |].
  rewrite includes_app, IH. reflexivity.
Qed.

(** A clientID is in the handled-id set exactly when the filter matched it
    on a frame that was processed. *)
Lemma includes_modifiedAfter instance filters frames v :
  includes (modifiedAfter instance filters frames) v = true
  <-> exists f, In f frames /\ isLive instance f = true
                /\ includes (idsOnFrame instance filters f) v = true.
Proof.
  unfold modifiedAfter. rewrite includes_flat_map, existsb_exists. split.
  - intros (f & Hf & Hv). apply filter_In in Hf as [Hf Hl]. eauto.
  - intros (f & Hf & Hl & Hv). exists f. split; [| assumption].
    apply filter_In. auto.
Qed.

Lemma In_carryOver exportedShapes modifiedIDs shape :
  In shape (carryOver exportedShapes modifiedIDs)
  <-> In shape exportedShapes
      /\ Number_isInteger (clientID shape) = true
      /\ includes modifiedIDs (clientID shape) = false.
Proof.
  unfold carryOver. rewrite filter_In, andb_true_iff, negb_true_iff. tauto.
Qed.

Lemma In_handledAfter instance actionsChain filters exportedShapes frames shape :
  In shape (handledAfter instance actionsChain filters exportedShapes frames)
  <-> exists f x, In f frames /\ isLive instance f = true
                  /\ In x (frameOutput instance actionsChain filters exportedShapes f)
                  /\ shape = omit_id x.
Proof.
  unfold handledAfter. rewrite in_flat_map. split.
  - intros (f & Hf & Hs). apply filter_In in Hf as [Hf Hl].
    apply in_map_iff in Hs as (x & <- & Hx). eauto 8.
  - intros (f & x & Hf & Hl & Hx & ->). exists f. split.
    + apply filter_In. auto.
    + apply in_map. assumption.
Qed.

(** C10. In a run that reaches [annotations.import], the imported shapes are
    the handled buffer followed by the carried-over shapes, and the
    carry-over pass re-emits a shape of the exported snapshot exactly when
    its clientID is an integer absent from the handled-id set.  A snapshot
    shape whose clientID is missing or not an integer, and which no
    processed frame handled, is therefore not re-emitted: it can be among
    the imported shapes only as an output of the chain, and it is not among
    them when the chain puts out nothing but shapes with handled ids. *)
Theorem carry_over_requires_integer_clientID instance actionsChain
    actionParameters frameFrom frameTo filters cancelled st r s' c :
  runSingleFrameChain instance actionsChain actionParameters frameFrom frameTo
    filters cancelled (startOf st) = (r, s') ->
  In (EvImport c) (trace s') ->
  let snapshot := shapes (annotations st) in
  let handled := handledAfter instance actionsChain filters snapshot
                   (frameRange frameFrom frameTo) in
  let handledIDs := modifiedAfter instance filters (frameRange frameFrom frameTo) in
  shapes c = handled ++ carryOver snapshot handledIDs
  /\ (forall shape,
        In shape (carryOver snapshot handledIDs)
        <-> In shape snapshot
            /\ Number_isInteger (clientID shape) = true
            /\ includes handledIDs (clientID shape) = false)
  /\ Number_isInteger JUndefined = false
  /\ (forall shape,
        In shape snapshot ->
        Number_isInteger (clientID shape) = false ->
        includes handledIDs (clientID shape) = false ->
        ~ In shape (carryOver snapshot handledIDs)
        /\ (In shape (shapes c) -> In shape handled)
        /\ ((forall x, In x handled -> includes handledIDs (clientID x) = true) ->
            ~ In shape (shapes c))).
Proof.
  intros H Hin snapshot handled handledIDs.
  apply (run_import _ _ _ _ _ _ _ _ _ _ _ H) in Hin. subst c. simpl.
  fold snapshot handled handledIDs.
  split; [reflexivity |]. split; [intros shape; apply In_carryOver |].
  split; [reflexivity |].
  intros shape Hs Hint Hun.
  assert (Hnc : ~ In shape (carryOver snapshot handledIDs)).
  { rewrite In_carryOver. intros (_ & Hi & _). congruence. }
  split; [exact Hnc |]. split.
  - intros Hc. apply in_app_or in Hc as [Hc | Hc]; [assumption | contradiction].
  - intros Hall Hc. apply in_app_or in Hc as [Hc | Hc]; [| contradiction].
    apply Hall in Hc. congruence.
Qed.

Lemma carry_over_requires_integer_clientID_witness :
  shapes (annotations (store (snd
    (runSingleFrameChain sampleSession [RemoveFilteredShapes] [] 0 2 []
       neverCancelled (startOf sampleStore))))) = [shapeB]
  /\ ~ In shapeC
       (carryOver (shapes (annotations sampleStore))
          (modifiedAfter sampleSession [] (frameRange 0 2))).
Proof.
  split; [vm_compute; reflexivity |].
  destruct (carry_over_requires_integer_clientID sampleSession [RemoveFilteredShapes]
              [] 0 2 [] neverCancelled sampleStore _ _
              {| shapes := [shapeB]; tracks := ["track"]; tags := ["tag"] |}
              (surjective_pairing _))
    as (_ & _ & _ & Homit).
  - vm_compute. tauto.
  - destruct (Homit shapeC) as (Hn & _);
      [simpl; auto | reflexivity | vm_compute; reflexivity | exact Hn].
Defined.

Lemma count_occ_filter {A} (dec : forall x y : A, {x = y} + {x <> y})
    (p : A -> bool) (l : list A) (x : A) :
  count_occ dec (List.filter p l) x = if p x then count_occ dec l x else 0%nat.
Proof.
  induction l as [| y l IH]; simpl; [destruct (p x); reflexivity |].
  destruct (p y) eqn:Hy; simpl; destruct (dec y x) as [-> | Hne]; rewrite IH.
  - rewrite Hy. reflexivity.
  - reflexivity.
  - rewrite Hy. reflexivity.
  - reflexivity.
Qed.

Lemma In_workingCollection instance filters exportedShapes f shape :
  In shape (workingCollection instance filters exportedShapes f)
  <-> In shape exportedShapes
      /\ includes (idsOnFrame instance filters f) (clientID shape) = true.
Proof. unfold workingCollection, pickFrameCollection. apply filter_In. Qed.

(** C1 (as amended). In a run that reaches [annotations.import], the
    imported shapes are the handled buffer (the outputs of the chain, which
    may drop, change or add shapes) followed by the carried-over shapes.  A
    shape of the exported snapshot whose clientID is in the handled-id set
    was in the working collection of a processed frame and is not carried
    over; one whose clientID is an integer outside the handled-id set was in
    no working collection and is carried over unchanged, as often as it
    occurs in the snapshot (once, when the snapshot has no repetition).  No
    snapshot shape is both handled and carried over. *)
Theorem snapshot_shape_handled_or_carried instance actionsChain
    actionParameters frameFrom frameTo filters cancelled st r s' c :
  runSingleFrameChain instance actionsChain actionParameters frameFrom frameTo
    filters cancelled (startOf st) = (r, s') ->
  In (EvImport c) (trace s') ->
  let snapshot := shapes (annotations st) in
  let handled := handledAfter instance actionsChain filters snapshot
                   (frameRange frameFrom frameTo) in
  let handledIDs := modifiedAfter instance filters (frameRange frameFrom frameTo) in
  let carried := carryOver snapshot handledIDs in
  shapes c = handled ++ carried
  /\ forall shape, In shape snapshot ->
       (includes handledIDs (clientID shape) = true ->
          (exists f, frameFrom <= f <= frameTo /\ isLive instance f = true
                     /\ In shape (workingCollection instance filters snapshot f))
          /\ count_occ shape_eq_dec carried shape = 0%nat)
       /\ (includes handledIDs (clientID shape) = false ->
             Number_isInteger (clientID shape) = true ->
             (forall f, frameFrom <= f <= frameTo -> isLive instance f = true ->
                ~ In shape (workingCollection instance filters snapshot f))
             /\ count_occ shape_eq_dec carried shape
                = count_occ shape_eq_dec snapshot shape
             /\ (List.NoDup snapshot ->
                   count_occ shape_eq_dec carried shape = 1%nat)).
Proof.
  intros H Hin snapshot handled handledIDs carried.
  apply (run_import _ _ _ _ _ _ _ _ _ _ _ H) in Hin. subst c. simpl.
  fold snapshot handled handledIDs carried.
  split; [reflexivity |].
  intros shape Hs. unfold carried, carryOver. rewrite count_occ_filter. split.
  - intros Hh. split.
    + apply includes_modifiedAfter in Hh as (f & Hf & Hl & Hv).
      exists f. split; [apply In_frameRange; assumption |]. split; [assumption |].
      apply In_workingCollection. auto.
    + unfold handledIDs in Hh |- *. rewrite Hh, andb_false_r. reflexivity.
  - intros Hh Hint. split; [| split].
    + intros f Hf Hl Hw. apply In_workingCollection in Hw as [_ Hv].
      assert (Hc : includes handledIDs (clientID shape) = true).
      { apply includes_modifiedAfter. exists f.
        split; [apply In_frameRange; assumption | auto]. }
      congruence.
    + unfold handledIDs in Hh |- *. rewrite Hh, Hint. reflexivity.
    + intros Hnd. unfold handledIDs in Hh |- *. rewrite Hh, Hint. simpl.
      apply (proj1 (List.NoDup_count_occ' shape_eq_dec snapshot) Hnd). assumption.
Qed.

Lemma snapshot_shape_handled_or_carried_witness :
  count_occ shape_eq_dec
    (carryOver (shapes (annotations sampleStore))
       (modifiedAfter sampleSession [] (frameRange 0 2))) shapeB = 1%nat
  /\ count_occ shape_eq_dec
       (carryOver (shapes (annotations sampleStore))
          (modifiedAfter sampleSession [] (frameRange 0 2))) shapeA = 0%nat.
Proof.
  destruct (snapshot_shape_handled_or_carried sampleSession [sampleAction] [∅]
              0 2 [] neverCancelled sampleStore _ _
              {| shapes := [omit_id shapeA; shapeB]; tracks := ["track"];
                 tags := ["tag"] |}
              (surjective_pairing _))
    as (_ & Hall).
  - vm_compute. tauto.
  - split.
    + destruct (Hall shapeB) as (_ & Hcarried); [simpl; auto |].
      destruct Hcarried as (_ & _ & Hone);
        [vm_compute; reflexivity | reflexivity |].
      apply Hone. apply (proj2 (List.NoDup_count_occ' shape_eq_dec _)).
      intros x Hx. simpl in Hx.
      destruct Hx as [<- | [<- | [<- | []]]]; vm_compute; reflexivity.
    + destruct (Hall shapeA) as (Hhandled & _); [simpl; auto |].
      apply Hhandled. vm_compute. reflexivity.
Defined.

(** C1, the counterexample: with the built-in removal as the only action,
    the snapshot shape that the filter matches on frame 0 is, after a run
    that commits, not in the committed collection at all, neither as it was
    nor without its [id]. *)
Lemma handled_shape_can_be_lost :
  fst (runSingleFrameChain sampleSession [RemoveFilteredShapes] [] 0 2 []
         neverCancelled (startOf sampleStore)) = Normal tt
  /\ In shapeA (shapes (annotations sampleStore))
  /\ count_occ shape_eq_dec
       (shapes (annotations (store (snd
          (runSingleFrameChain sampleSession [RemoveFilteredShapes] [] 0 2 []
             neverCancelled (startOf sampleStore)))))) shapeA = 0%nat
  /\ count_occ shape_eq_dec
       (shapes (annotations (store (snd
          (runSingleFrameChain sampleSession [RemoveFilteredShapes] [] 0 2 []
             neverCancelled (startOf sampleStore)))))) (omit_id shapeA) = 0%nat.
Proof.
  split; [vm_compute; reflexivity |]. split; [simpl; auto |].
  split; vm_compute; reflexivity.
Qed.

(** ** Deleted frames *)

Lemma isDeleted_not_live instance f :
  isDeleted instance f = true -> isLive instance f = false.
Proof.
  unfold isDeleted, isLive. destruct (frames_get instance f) as [fd | e];
    [intros -> | discriminate]. reflexivity.
Qed.

Lemma filter_live_not_deleted instance frames :
  List.filter (isLive instance)
    (List.filter (fun g => negb (isDeleted instance g)) frames)
  = List.filter (isLive instance) frames.
Proof.
  induction frames as [| g frames IH]; simpl; [reflexivity |].
  destruct (isDeleted instance g) eqn:Hd; simpl.
  - rewrite (isDeleted_not_live _ _ Hd). exact IH.
  - destruct (isLive instance g); rewrite IH; reflexivity.
Qed.

(** C3 (as amended). A frame of the range that the frame-data provider flags
    as deleted is skipped: the loop body asks neither for the object states
    nor for a run of the chain and leaves the handled buffer and the
    handled-id set as they are, so both are what they would be without the
    deleted frames.  What the filter would match on such a frame is not
    recorded as handled; a snapshot shape with an integer clientID that no
    other processed frame handles is carried over unchanged into the
    imported collection. *)
Theorem deleted_frame_is_skipped instance actionsChain actionParameters
    frameFrom frameTo filters cancelled f :
  isDeleted instance f = true ->
  (forall exportedShapes handled modifiedIDs s,
     processFrame instance actionsChain frameFrom frameTo filters cancelled
       exportedShapes f handled modifiedIDs s
     = (Normal (handled, modifiedIDs),
        {| store := store s; polls := polls s;
           trace := trace s ++ [EvFrameGet f] |}))
  /\ (forall exportedShapes frames,
        handledAfter instance actionsChain filters exportedShapes frames
        = handledAfter instance actionsChain filters exportedShapes
            (List.filter (fun g => negb (isDeleted instance g)) frames)
        /\ modifiedAfter instance filters frames
           = modifiedAfter instance filters
               (List.filter (fun g => negb (isDeleted instance g)) frames))
  /\ (forall st r s' c shape,
        runSingleFrameChain instance actionsChain actionParameters frameFrom
          frameTo filters cancelled (startOf st) = (r, s') ->
        In (EvImport c) (trace s') ->
        In shape (shapes (annotations st)) ->
        Number_isInteger (clientID shape) = true ->
        (forall g, frameFrom <= g <= frameTo -> g <> f ->
           isLive instance g = true ->
           includes (idsOnFrame instance filters g) (clientID shape) = false) ->
        In shape (shapes c)
        /\ In shape (carryOver (shapes (annotations st))
                       (modifiedAfter instance filters
                          (frameRange frameFrom frameTo)))).
Proof.
  intros Hdel. split; [| split].
  - intros exportedShapes handled modifiedIDs s.
    unfold isDeleted in Hdel. unfold processFrame, call, emit, liftResult, mbind, Run_bind.
    destruct (frames_get instance f) as [fd | e]; [| discriminate].
    rewrite Hdel. reflexivity.
  - intros exportedShapes frames. unfold handledAfter, modifiedAfter.
    rewrite filter_live_not_deleted. auto.
  - intros st r s' c shape H Hin Hs Hint Hother.
    apply (run_import _ _ _ _ _ _ _ _ _ _ _ H) in Hin. subst c. simpl.
    assert (Hc : In shape (carryOver (shapes (annotations st))
                   (modifiedAfter instance filters (frameRange frameFrom frameTo)))).
    { apply In_carryOver. split; [assumption |]. split; [assumption |].
      destruct (includes (modifiedAfter instance filters (frameRange frameFrom frameTo))
                  (clientID shape)) eqn:Hinc; [| reflexivity].
      apply includes_modifiedAfter in Hinc as (g & Hg & Hl & Hv).
      apply In_frameRange in Hg.
      rewrite Hother in Hv; [discriminate | assumption | | assumption].
      intros ->. rewrite (isDeleted_not_live _ _ Hdel) in Hl. discriminate. }
    split; [apply in_or_app; right |]; exact Hc.
Qed.

Lemma deleted_frame_is_skipped_witness :
  In shapeB
    (carryOver (shapes (annotations sampleStore))
       (modifiedAfter sampleSession [] (frameRange 0 2)))
  /\ modifiedAfter sampleSession [] [0; 1; 2] = modifiedAfter sampleSession [] [0; 2].
Proof.
  destruct (deleted_frame_is_skipped sampleSession [sampleAction] [∅] 0 2 []
              neverCancelled 1 eq_refl) as (_ & Hsame & Hcarried).
  split.
  - apply (Hcarried sampleStore _ _
             {| shapes := [omit_id shapeA; shapeB]; tracks := ["track"];
                tags := ["tag"] |} shapeB (surjective_pairing _)).
    + vm_compute. tauto.
    + simpl. auto.
    + reflexivity.
    + intros g Hg Hne Hlive.
      assert (Hcases : g = 0 \/ g = 2) by lia.
      destruct Hcases as [-> | ->]; vm_compute; reflexivity.
  - apply (Hsame [] [0; 1; 2]).
Defined.

(** C3, the counterexample: frame 1 is flagged deleted and [shapeB] lies on
    it, yet after a run that commits [shapeB] is in the committed
    collection. *)
Lemma shape_of_deleted_frame_survives :
  isDeleted sampleSession 1 = true
  /\ frame shapeB = 1
  /\ fst (runSingleFrameChain sampleSession [RemoveFilteredShapes] [] 0 2 []
            neverCancelled (startOf sampleStore)) = Normal tt
  /\ In shapeB
       (shapes (annotations (store (snd
          (runSingleFrameChain sampleSession [RemoveFilteredShapes] [] 0 2 []
             neverCancelled (startOf sampleStore)))))).
Proof.
  split; [reflexivity |]. split; [reflexivity |].
  split; [vm_compute; reflexivity |]. vm_compute. auto.
Qed.

(** ** The built-in removal *)

Lemma chainResult_remove frameData coll :
  chainResult [RemoveFilteredShapes] frameData coll = Ok [].
Proof. reflexivity. Qed.

Lemma handledAfter_remove instance filters exportedShapes frames :
  handledAfter instance [RemoveFilteredShapes] filters exportedShapes frames = [].
Proof.
  unfold handledAfter. induction (List.filter (isLive instance) frames) as [| f l IH];
    simpl; [reflexivity |].
  rewrite IH, app_nil_r. unfold frameOutput.
  destruct (frames_get instance f); reflexivity.
Qed.

(** C8 (as amended). The built-in action returns the empty collection for
    every input.  When it is the whole chain, a run that reaches
    [annotations.import] imports exactly the carried-over shapes, in the
    order of the snapshot and with the tracks and tags of the snapshot: no
    snapshot shape whose clientID the filter matched on a processed frame
    is imported, with or without its [id], and every snapshot shape with an
    integer clientID that was matched on no processed frame is imported
    unchanged, as often as it occurs in the snapshot. *)
Theorem remove_filtered_alone instance actionParameters frameFrom frameTo
    filters cancelled st r s' c :
  runSingleFrameChain instance [RemoveFilteredShapes] actionParameters
    frameFrom frameTo filters cancelled (startOf st) = (r, s') ->
  In (EvImport c) (trace s') ->
  let snapshot := shapes (annotations st) in
  let handledIDs := modifiedAfter instance filters (frameRange frameFrom frameTo) in
  (forall input, run RemoveFilteredShapes input = Ok [])
  /\ shapes c = carryOver snapshot handledIDs
  /\ tracks c = tracks (annotations st)
  /\ tags c = tags (annotations st)
  /\ (forall shape, In shape snapshot ->
        includes handledIDs (clientID shape) = true ->
        ~ In shape (shapes c) /\ ~ In (omit_id shape) (shapes c))
  /\ (forall shape, In shape snapshot ->
        includes handledIDs (clientID shape) = false ->
        Number_isInteger (clientID shape) = true ->
        In shape (shapes c)
        /\ count_occ shape_eq_dec (shapes c) shape
           = count_occ shape_eq_dec snapshot shape).
Proof.
  intros H Hin snapshot handledIDs.
  apply (run_import _ _ _ _ _ _ _ _ _ _ _ H) in Hin. subst c.
  unfold committedCollection, importedCollection. simpl.
  rewrite handledAfter_remove. simpl. fold snapshot handledIDs.
  split; [reflexivity |]. split; [reflexivity |]. split; [reflexivity |].
  split; [reflexivity |]. split.
  - intros shape Hs Hh. rewrite !In_carryOver. simpl.
    split; intros (_ & _ & Hn); congruence.
  - intros shape Hs Hh Hint. split.
    + apply In_carryOver. auto.
    + unfold carryOver. rewrite count_occ_filter, Hint, Hh. reflexivity.
Qed.

Lemma remove_filtered_alone_witness :
  shapes (annotations (store (snd
    (runSingleFrameChain sampleSession [RemoveFilteredShapes] [] 0 2 []
       neverCancelled (startOf sampleStore))))) = [shapeB]
  /\ count_occ shape_eq_dec [shapeB] shapeB
     = count_occ shape_eq_dec (shapes (annotations sampleStore)) shapeB
  /\ ~ In shapeA [shapeB].
Proof.
  split; [vm_compute; reflexivity |].
  destruct (remove_filtered_alone sampleSession [] 0 2 [] neverCancelled
              sampleStore _ _
              {| shapes := [shapeB]; tracks := ["track"]; tags := ["tag"] |}
              (surjective_pairing _))
    as (_ & _ & _ & _ & Hgone & Hkept).
  - vm_compute. tauto.
  - split.
    + destruct (Hkept shapeB) as (_ & Hcount);
        [simpl; auto | vm_compute; reflexivity | reflexivity | exact Hcount].
    + destruct (Hgone shapeA) as (Hn & _);
        [simpl; auto | vm_compute; reflexivity | exact Hn].
Defined.

(** C8, the counterexample: [shapeC] is matched by the filter on no frame,
    yet the run of the built-in removal alone, over a non-empty match,
    does not keep it, because it has no clientID. *)
Lemma unmatched_shape_without_clientID_is_dropped :
  fst (runSingleFrameChain sampleSession [RemoveFilteredShapes] [] 0 2 []
         neverCancelled (startOf sampleStore)) = Normal tt
  /\ workingCollection sampleSession [] (shapes (annotations sampleStore)) 0
     = [shapeA]
  /\ In shapeC (shapes (annotations sampleStore))
  /\ includes (modifiedAfter sampleSession [] (frameRange 0 2)) (clientID shapeC)
     = false
  /\ ~ In shapeC
       (shapes (annotations (store (snd
          (runSingleFrameChain sampleSession [RemoveFilteredShapes] [] 0 2 []
             neverCancelled (startOf sampleStore)))))).
Proof.
  split; [vm_compute; reflexivity |]. split; [vm_compute; reflexivity |].
  split; [simpl; auto |]. split; [vm_compute; reflexivity |].
  vm_compute. intros [H | []]. discriminate.
Qed.

(** ** The empty chain *)

Lemma flat_map_app_perm {F A} (h g : F -> list A) (fs : list F) :
  Permutation (flat_map (fun f => h f ++ g f) fs) (flat_map h fs ++ flat_map g fs).
Proof.
  induction fs as [| a fs IH]; simpl; [constructor |].
  rewrite IH, <- !app_assoc. apply Permutation_app_head.
  rewrite !app_assoc. apply Permutation_app_tail. apply Permutation_app_comm.
Qed.

Lemma flat_map_pointwise {F A} (h g : F -> list A) (fs : list F) :
  (forall f, h f = g f) -> flat_map h fs = flat_map g fs.
Proof.
  intros Heq. induction fs as [| a fs IH]; simpl; [reflexivity |].
  rewrite Heq, IH. reflexivity.
Qed.

Section Partition.

Context {F A : Type}.
Variable P : F -> A -> bool.

Lemma singles_repeat x fs : singles P x fs = repeat x (matches P x fs).
Proof.
  unfold singles, matches. induction fs as [| a fs IH]; simpl; [reflexivity |].
  destruct (P a x); simpl; rewrite IH; reflexivity.
Qed.

Lemma existsb_matches x fs :
  existsb (fun f => P f x) fs = (0 <? matches P x fs)%nat.
Proof.
  unfold matches. induction fs as [| a fs IH]; simpl; [reflexivity |].
  destruct (P a x); simpl; [reflexivity | exact IH].
Qed.

Lemma filter_cons_split f x l :
  List.filter (P f) (x :: l) = (if P f x then [x] else []) ++ List.filter (P f) l.
Proof. simpl. destruct (P f x); reflexivity. Qed.

(** Slicing a list by frames and keeping what no frame takes gives the
    list back, up to order, when no element is taken twice. *)
Lemma slices_and_rest_perm (fs : list F) (l : list A) :
  (forall x, In x l -> (matches P x fs <= 1)%nat) ->
  Permutation
    (flat_map (fun f => List.filter (P f) l) fs
       ++ List.filter (fun x => negb (existsb (fun f => P f x) fs)) l)
    l.
Proof.
  induction l as [| x l IH]; intros Hone.
  - simpl. rewrite app_nil_r.
    clear Hone. induction fs as [| a fs IHfs]; simpl; [apply perm_nil | exact IHfs].
  - assert (Hx : (matches P x fs <= 1)%nat) by (apply Hone; left; reflexivity).
    specialize (IH (fun y Hy => Hone y (or_intror Hy))).
    assert (E : flat_map (fun f => List.filter (P f) (x :: l)) fs
                = flat_map (fun f => (if P f x then [x] else [])
                                       ++ List.filter (P f) l) fs)
      by (apply flat_map_pointwise; intros f; apply filter_cons_split).
    rewrite E. clear E.
    eapply perm_trans; [apply Permutation_app_tail, flat_map_app_perm |].
    fold (singles P x fs). rewrite singles_repeat.
    simpl List.filter. rewrite existsb_matches.
    destruct (matches P x fs) as [| [| n]]; simpl; [| | lia].
    + eapply perm_trans; [apply Permutation_sym, Permutation_middle |].
      constructor. exact IH.
    + constructor. exact IH.
Qed.

End Partition.

Lemma omit_id_idempotent shape : omit_id (omit_id shape) = omit_id shape.
Proof. reflexivity. Qed.

Lemma omit_id_without_id shape : id shape = None -> omit_id shape = shape.
Proof. destruct shape as [i c f x]. simpl. intros ->. reflexivity. Qed.

Lemma map_omit_id_without_id l :
  (forall shape, In shape l -> id shape = None) -> map omit_id l = l.
Proof.
  induction l as [| x l IH]; intros H; simpl; [reflexivity |].
  rewrite omit_id_without_id by (apply H; left; reflexivity).
  rewrite IH by (intros y Hy; apply H; right; exact Hy). reflexivity.
Qed.

Lemma flat_map_map_omit_id {F} (g : F -> list SerializedShape) (fs : list F) :
  flat_map (fun f => map omit_id (g f)) fs = map omit_id (flat_map g fs).
Proof.
  induction fs as [| a fs IH]; simpl; [reflexivity |].
  rewrite IH, map_app. reflexivity.
Qed.

Lemma frameOutput_empty_chain instance filters exportedShapes f :
  isLive instance f = true ->
  frameOutput instance [] filters exportedShapes f
  = workingCollection instance filters exportedShapes f.
Proof.
  unfold isLive, frameOutput. destruct (frames_get instance f); [| discriminate].
  reflexivity.
Qed.

Lemma handledAfter_empty_chain instance filters exportedShapes frames :
  handledAfter instance [] filters exportedShapes frames
  = map omit_id
      (flat_map (workingCollection instance filters exportedShapes)
         (List.filter (isLive instance) frames)).
Proof.
  unfold handledAfter. rewrite <- flat_map_map_omit_id.
  assert (Hlive : forall f, In f (List.filter (isLive instance) frames) ->
                            isLive instance f = true)
    by (intros f Hf; apply filter_In in Hf; tauto).
  induction (List.filter (isLive instance) frames) as [| f l IH]; simpl; [reflexivity |].
  rewrite frameOutput_empty_chain by (apply Hlive; left; reflexivity).
  rewrite IH by (intros g Hg; apply Hlive; right; exact Hg). reflexivity.
Qed.

(** C7 (as amended). With a chain of no action the working collection of
    every processed frame comes out of the chain as it went in.  A run that
    reaches [annotations.import] then imports, with the tracks and tags of
    the snapshot, the working collections of the processed frames with the
    [id] field removed, followed by the carried-over shapes.  When every
    snapshot shape that no frame handled has an integer clientID and no
    clientID is matched on two processed frames, the imported shapes are
    the snapshot shapes up to order and up to the removal of [id]; they are
    the snapshot shapes up to order when no snapshot shape has an [id]. *)
Theorem empty_chain_passes_through instance actionParameters frameFrom frameTo
    filters cancelled st r s' c :
  runSingleFrameChain instance [] actionParameters frameFrom frameTo filters
    cancelled (startOf st) = (r, s') ->
  In (EvImport c) (trace s') ->
  let snapshot := shapes (annotations st) in
  let processed := List.filter (isLive instance) (frameRange frameFrom frameTo) in
  let handledIDs := modifiedAfter instance filters (frameRange frameFrom frameTo) in
  (forall frameData frameCollection,
     chainResult [] frameData frameCollection = Ok frameCollection)
  /\ (forall f, isLive instance f = true ->
        frameOutput instance [] filters snapshot f
        = workingCollection instance filters snapshot f)
  /\ shapes c
     = map omit_id (flat_map (workingCollection instance filters snapshot) processed)
         ++ carryOver snapshot handledIDs
  /\ tracks c = tracks (annotations st)
  /\ tags c = tags (annotations st)
  /\ ((forall shape, In shape snapshot ->
         includes handledIDs (clientID shape) = false ->
         Number_isInteger (clientID shape) = true) ->
      (forall shape, In shape snapshot ->
         (length (List.filter
                    (fun f => includes (idsOnFrame instance filters f) (clientID shape))
                    processed) <= 1)%nat) ->
      Permutation (map omit_id (shapes c)) (map omit_id snapshot)
      /\ ((forall shape, In shape snapshot -> id shape = None) ->
          Permutation (shapes c) snapshot)).
Proof.
  intros H Hin snapshot processed handledIDs.
  apply (run_import _ _ _ _ _ _ _ _ _ _ _ H) in Hin. subst c.
  unfold committedCollection, importedCollection. simpl.
  rewrite handledAfter_empty_chain. fold snapshot processed handledIDs.
  split; [reflexivity |].
  split; [intros f Hf; apply frameOutput_empty_chain; exact Hf |].
  split; [reflexivity |]. split; [reflexivity |]. split; [reflexivity |].
  intros Hint Hone.
  set (P := fun (f : Z) (shape : SerializedShape) =>
              includes (idsOnFrame instance filters f) (clientID shape)).
  assert (Hcarry : carryOver snapshot handledIDs
                   = List.filter (fun shape => negb (existsb (fun f => P f shape) processed))
                       snapshot).
  { unfold carryOver. apply filter_ext_in. intros shape Hs.
    assert (Hinc : includes handledIDs (clientID shape)
                   = existsb (fun f => P f shape) processed)
      by (unfold handledIDs, modifiedAfter; apply includes_flat_map).
    rewrite <- Hinc.
    destruct (includes handledIDs (clientID shape)) eqn:Hh;
      [apply andb_false_r | rewrite (Hint shape Hs Hh); reflexivity]. }
  assert (Hperm : Permutation
            (flat_map (workingCollection instance filters snapshot) processed
               ++ carryOver snapshot handledIDs) snapshot).
  { rewrite Hcarry. apply (slices_and_rest_perm P processed snapshot). exact Hone. }
  assert (Hfirst : Permutation
            (map omit_id
               (map omit_id (flat_map (workingCollection instance filters snapshot)
                               processed)
                  ++ carryOver snapshot handledIDs))
            (map omit_id snapshot)).
  { rewrite map_app, map_map.
    rewrite (map_ext _ omit_id omit_id_idempotent), <- map_app.
    apply Permutation_map. exact Hperm. }
  split; [exact Hfirst |].
  intros Hnoid.
  assert (Hall : forall shape,
            In shape (flat_map (workingCollection instance filters snapshot) processed
                        ++ carryOver snapshot handledIDs) -> id shape = None).
  { intros shape Hs. apply Hnoid. eapply Permutation_in; eassumption. }
  rewrite (map_omit_id_without_id
             (flat_map (workingCollection instance filters snapshot) processed)).
  - exact Hperm.
  - intros shape Hs. apply Hall. apply in_or_app. left. exact Hs.
Qed.

Lemma empty_chain_passes_through_witness :
  shapes (annotations (store (snd
    (runSingleFrameChain sampleSession [] [] 0 2 [] neverCancelled
       (startOf shapesOnlyStore))))) = [omit_id shapeA; shapeB]
  /\ Permutation (map omit_id [omit_id shapeA; shapeB])
       (map omit_id (shapes (annotations shapesOnlyStore))).
Proof.
  split; [vm_compute; reflexivity |].
  destruct (empty_chain_passes_through sampleSession [] 0 2 [] neverCancelled
              shapesOnlyStore _ _
              {| shapes := [omit_id shapeA; shapeB]; tracks := []; tags := [] |}
              (surjective_pairing _))
    as (_ & _ & _ & _ & _ & Hperm).
  - vm_compute. tauto.
  - destruct Hperm as (Hp & _); [| | exact Hp].
    + intros shape [<- | [<- | []]]; vm_compute; intros; try reflexivity; discriminate.
    + intros shape [<- | [<- | []]]; vm_compute; lia.
Defined.

(** C7, the counterexample: after a full run of the empty chain the
    committed collection does not contain [shapeA] as the snapshot has it
    (its [id] is gone), and it does not contain [shapeC] at all. *)
Lemma empty_chain_changes_the_collection :
  fst (runSingleFrameChain sampleSession [] [] 0 2 [] neverCancelled
         (startOf sampleStore)) = Normal tt
  /\ shapes (annotations sampleStore) = [shapeA; shapeB; shapeC]
  /\ shapes (annotations (store (snd
       (runSingleFrameChain sampleSession [] [] 0 2 [] neverCancelled
          (startOf sampleStore))))) = [omit_id shapeA; shapeB]
  /\ ~ In shapeA [omit_id shapeA; shapeB]
  /\ ~ In shapeC [omit_id shapeA; shapeB].
Proof.
  split; [vm_compute; reflexivity |]. split; [reflexivity |].
  split; [vm_compute; reflexivity |].
  split; intros [H | [H | []]]; discriminate.
Qed.

(** * Further properties *)

(** ** The registry over many calls *)

Lemma registerMany_accepted candidates : forall registry names,
  mapResult name registry = Ok names -> NoDup names ->
  registerMany candidates registry = registry ++ accepted candidates names
  /\ (length (accepted candidates names) <= length candidates)%nat
  /\ map ActionInstance (accepted candidates names) `sublist_of` candidates
  /\ exists addedNames,
       mapResult name (accepted candidates names) = Ok addedNames
       /\ mapResult name (registerMany candidates registry)
          = Ok (names ++ addedNames)
       /\ NoDup (names ++ addedNames)
       /\ forall a n, In (ActionInstance a) candidates -> name a = Ok n ->
                      In n (names ++ addedNames).
Proof.
  induction candidates as [| c cs IH]; intros registry names Hnames Hnd.
  - simpl. rewrite !app_nil_r. split; [reflexivity |]. split; [lia |].
    split; [constructor |]. exists []. rewrite app_nil_r.
    split; [reflexivity |]. split; [assumption |]. split; [assumption |].
    intros a n [].
  - assert (Hskip : snd (registerAction c registry) = registry ->
                    accepted (c :: cs) names = accepted cs names ->
                    (forall a n, c = ActionInstance a -> name a = Ok n ->
                                 In n names) ->
              registerMany (c :: cs) registry
              = registry ++ accepted (c :: cs) names
              /\ (length (accepted (c :: cs) names) <= length (c :: cs))%nat
              /\ map ActionInstance (accepted (c :: cs) names) `sublist_of` c :: cs
              /\ exists addedNames,
                   mapResult name (accepted (c :: cs) names) = Ok addedNames
                   /\ mapResult name (registerMany (c :: cs) registry)
                      = Ok (names ++ addedNames)
                   /\ NoDup (names ++ addedNames)
                   /\ forall a n, In (ActionInstance a) (c :: cs) ->
                                  name a = Ok n -> In n (names ++ addedNames)).
    { intros Hreg Hacc Hin. unfold registerMany. simpl fold_left. rewrite Hreg.
      fold (registerMany cs registry). rewrite Hacc.
      destruct (IH registry names Hnames Hnd)
        as (Heq & Hlen & Hsub & addedNames & Hadded & Hmap & Hnd' & Hall).
      split; [exact Heq |]. split; [simpl; lia |].
      split; [apply sublist_cons_r; left; exact Hsub |].
      exists addedNames. split; [exact Hadded |]. split; [exact Hmap |].
      split; [exact Hnd' |].
      intros a n [-> | Hcs] Hn; [| exact (Hall a n Hcs Hn)].
      apply in_or_app. left. exact (Hin a n eq_refl Hn). }
    destruct c as [a |]; [| apply Hskip; [reflexivity | reflexivity | discriminate]].
    destruct (name a) as [n | e] eqn:Hn.
    2:{ apply Hskip.
        - simpl. rewrite Hn. reflexivity.
        - simpl. rewrite Hn. reflexivity.
        - intros a0 n0 Heq Hn0. inversion Heq; subst a0. congruence. }
    destruct (includesName names n) eqn:Hinc.
    { apply Hskip.
      - simpl. rewrite Hn, Hnames, Hinc. reflexivity.
      - simpl. rewrite Hn, Hinc. reflexivity.
      - intros a0 n0 Heq Hn0. inversion Heq; subst a0.
        rewrite Hn in Hn0. inversion Hn0; subst n0.
        apply includesName_In. exact Hinc. }
    assert (Hnames' : mapResult name (registry ++ [a]) = Ok (names ++ [n])).
    { apply mapResult_app; [assumption |]. simpl. rewrite Hn. reflexivity. }
    assert (Hnd' : NoDup (names ++ [n])).
    { apply NoDup_app. split; [assumption |]. split; [| apply NoDup_singleton].
      intros x Hx Hx'. apply list_elem_of_In in Hx. apply list_elem_of_In in Hx'.
      destruct Hx' as [<- | []].
      apply includesName_In in Hx. congruence. }
    destruct (IH (registry ++ [a]) (names ++ [n]) Hnames' Hnd')
      as (Heq & Hlen & Hsub & addedNames & Hadded & Hmap & Hnd'' & Hall).
    assert (Hreg : registerMany (ActionInstance a :: cs) registry
                   = registerMany cs (registry ++ [a])).
    { unfold registerMany. simpl. rewrite Hn, Hnames, Hinc. reflexivity. }
    assert (Hacc : accepted (ActionInstance a :: cs) names
                   = a :: accepted cs (names ++ [n])).
    { simpl. rewrite Hn, Hinc. reflexivity. }
    rewrite Hreg, Hacc.
    split; [rewrite Heq, <- app_assoc; reflexivity |]. split; [simpl; lia |].
    split; [apply sublist_skip; exact Hsub |].
    exists (n :: addedNames).
    rewrite <- app_assoc in Hmap, Hnd'', Hall. simpl in Hmap, Hnd'', Hall.
    split; [simpl; rewrite Hn, Hadded; reflexivity |].
    split; [exact Hmap |]. split; [exact Hnd'' |].
    intros a0 n0 [Heq0 | Hcs] Hn0; [| exact (Hall a0 n0 Hcs Hn0)].
    inversion Heq0; subst a0. rewrite Hn in Hn0. inversion Hn0; subst n0.
    apply in_or_app. right. left. reflexivity.
Qed.

(** X1. Whatever is handed to [registerAction], in whatever
    order, the registry only grows at its end, and by the accepted
    candidates exactly: after any sequence of calls it is the initial
    registry, with the built-in action first, followed, in the order of
    the calls, by the instances whose name could be read and was not yet
    registered when they were handed in.  So the registry grows by at most
    one action per call, every registered name can be read, the names are
    pairwise distinct, and the name of every instance that was handed in
    and has a readable name is registered afterwards, by that instance or
    by an earlier action. *)
Theorem registry_only_grows (candidates : list Candidate) :
  listActions (registerMany candidates initialRegistry)
  = RemoveFilteredShapes :: accepted candidates ["Remove filtered shapes"]
  /\ (length (accepted candidates ["Remove filtered shapes"])
      <= length candidates)%nat
  /\ map ActionInstance (accepted candidates ["Remove filtered shapes"])
       `sublist_of` candidates
  /\ exists names,
       mapResult name (accepted candidates ["Remove filtered shapes"]) = Ok names
       /\ mapResult name (registerMany candidates initialRegistry)
          = Ok ("Remove filtered shapes" :: names)
       /\ NoDup ("Remove filtered shapes" :: names)
       /\ forall a n, In (ActionInstance a) candidates -> name a = Ok n ->
                      In n ("Remove filtered shapes" :: names).
Proof.
  destruct (registerMany_accepted candidates initialRegistry
              ["Remove filtered shapes"] eq_refl (NoDup_singleton _))
    as (Heq & Hlen & Hsub & names & Hadded & Hmap & Hnd & Hall).
  unfold listActions. split; [rewrite Heq; reflexivity |]. split; [exact Hlen |].
  split; [exact Hsub |]. exists names.
  split; [exact Hadded |]. split; [exact Hmap |]. split; [exact Hnd | exact Hall].
Qed.

(** Two instances of the same name, a value that is no action, and an
    action whose name cannot be read: only the first instance is added. *)
Example registry_after_four_calls :
  listActions
    (registerMany [ActionInstance sampleAction; NotAnAction;
                   ActionInstance sampleAction; ActionInstance BaseAction]
       initialRegistry)
  = [RemoveFilteredShapes; sampleAction].
Proof. reflexivity. Qed.

(** ** The ids of a frame *)

Lemma fold_collectIDs states : forall acc,
  fold_left collectIDs states acc
  = acc ++ map state_clientID (List.filter isShapeState states).
Proof.
  induction states as [| val states IH]; intros acc; simpl.
  - rewrite app_nil_r. reflexivity.
  - rewrite IH. unfold collectIDs, isShapeState.
    destruct (objectType val); simpl; [rewrite <- app_assoc |..]; reflexivity.
Qed.

(** X2. The ids collected on a frame are the clientIDs of its shape-typed
    object states, in the order of the states; track and tag states add
    nothing, and a shape of the exported collection enters the working
    collection exactly when its clientID is the same value (SameValueZero)
    as the clientID of one of these shape states. *)
Theorem frame_ids_are_shape_state_ids (states : list ObjectState)
    (exportedShapes : list SerializedShape) :
  frameCollectionIDsOf states
  = map state_clientID (List.filter isShapeState states)
  /\ forall shape,
       In shape (pickFrameCollection exportedShapes (frameCollectionIDsOf states))
       <-> In shape exportedShapes
           /\ exists val, In val states /\ objectType val = SHAPE
                          /\ sameValueZero (state_clientID val) (clientID shape) = true.
Proof.
  assert (Hids : frameCollectionIDsOf states
                 = map state_clientID (List.filter isShapeState states))
    by (unfold frameCollectionIDsOf; apply fold_collectIDs).
  split; [exact Hids |].
  intros shape. unfold pickFrameCollection. rewrite filter_In, Hids.
  unfold includes. rewrite existsb_exists. split.
  - intros (Hs & v & Hv & Heq). split; [assumption |].
    apply in_map_iff in Hv as (val & <- & Hval).
    apply filter_In in Hval as [Hval Hshape]. exists val.
    unfold isShapeState in Hshape. destruct (objectType val) eqn:Ht; try discriminate.
    auto.
  - intros (Hs & val & Hval & Ht & Heq). split; [assumption |].
    exists (state_clientID val). split; [| assumption].
    apply in_map. apply filter_In. split; [assumption |].
    unfold isShapeState. rewrite Ht. reflexivity.
Qed.

(** ** Composition of chains *)

Lemma chainResult_app actions1 actions2 frameData : forall frameCollection,
  chainResult (actions1 ++ actions2) frameData frameCollection
  = match chainResult actions1 frameData frameCollection with
    | Ok output => chainResult actions2 frameData output
    | Err e => Err e
    end.
Proof.
  induction actions1 as [| a actions1 IH]; intros coll; simpl; [reflexivity |].
  destruct (run a _); [apply IH | reflexivity].
Qed.

(** X3. Running a chain on a frame is running its first part and then its
    second part on what the first part returned: each action sees the
    output of the one before it.  An error of an action is the error of the
    whole chain, whatever follows, and a chain that ends with the built-in
    removal returns the empty collection whenever the actions before it
    succeed. *)
Theorem chain_composes (actions1 actions2 : list BaseSingleFrameAction)
    (frameData : FrameData) (frameCollection : list SerializedShape) :
  (forall output,
     chainResult actions1 frameData frameCollection = Ok output ->
     chainResult (actions1 ++ actions2) frameData frameCollection
     = chainResult actions2 frameData output)
  /\ (forall e,
        chainResult actions1 frameData frameCollection = Err e ->
        chainResult (actions1 ++ actions2) frameData frameCollection = Err e)
  /\ (forall output,
        chainResult actions1 frameData frameCollection = Ok output ->
        chainResult (actions1 ++ [RemoveFilteredShapes]) frameData frameCollection
        = Ok []).
Proof.
  split; [| split]; intros x Hx; rewrite chainResult_app, Hx; reflexivity.
Qed.

Lemma chain_composes_witness :
  chainResult ([sampleAction] ++ [RemoveFilteredShapes])
    {| width := 640; height := 480; number := 0; deleted := false |} [shapeA]
  = Ok [].
Proof.
  destruct (chain_composes [sampleAction] [RemoveFilteredShapes]
              {| width := 640; height := 480; number := 0; deleted := false |}
              [shapeA]) as (_ & _ & Hremove).
  apply (Hremove [shapeA]). reflexivity.
Defined.

Lemma handledAfter_removal_last instance actions filters exportedShapes frames :
  handledAfter instance (actions ++ [RemoveFilteredShapes]) filters exportedShapes
    frames = [].
Proof.
  unfold handledAfter.
  induction (List.filter (isLive instance) frames) as [| f l IH]; simpl; [reflexivity |].
  rewrite IH, app_nil_r. unfold frameOutput.
  destruct (frames_get instance f) as [fd | e]; [| reflexivity].
  rewrite chainResult_app.
  destruct (chainResult actions fd _); reflexivity.
Qed.

(** X4. When the chain ends with the built-in removal, whatever actions
    come before it, a run that reaches [annotations.import] imports the
    carried-over shapes and nothing else: the integer-clientID shapes of the
    snapshot that the filter matched on no processed frame, in snapshot
    order. *)
Theorem removal_last_commits_carry_over instance actions actionParameters
    frameFrom frameTo filters cancelled st r s' c :
  runSingleFrameChain instance (actions ++ [RemoveFilteredShapes])
    actionParameters frameFrom frameTo filters cancelled (startOf st) = (r, s') ->
  In (EvImport c) (trace s') ->
  shapes c
  = carryOver (shapes (annotations st))
      (modifiedAfter instance filters (frameRange frameFrom frameTo))
  /\ shapes c `sublist_of` shapes (annotations st).
Proof.
  intros H Hin. apply (run_import _ _ _ _ _ _ _ _ _ _ _ H) in Hin. subst c.
  unfold committedCollection, importedCollection. simpl.
  rewrite handledAfter_removal_last. simpl. split; [reflexivity |].
  unfold carryOver.
  induction (shapes (annotations st)) as [| x l IH]; simpl; [constructor |].
  destruct (_ && _); [apply sublist_skip | apply sublist_cons]; exact IH.
Qed.

Lemma removal_last_commits_carry_over_witness :
  [shapeB] `sublist_of` shapes (annotations sampleStore).
Proof.
  destruct (removal_last_commits_carry_over sampleSession [sampleAction] [∅]
              0 2 [] neverCancelled sampleStore _ _
              {| shapes := [shapeB]; tracks := ["track"]; tags := ["tag"] |}
              (surjective_pairing _)) as (_ & Hsub).
  - vm_compute. tauto.
  - exact Hsub.
Defined.

(** ** Layout of the imported collection *)

Lemma carryOver_sublist exportedShapes modifiedIDs :
  carryOver exportedShapes modifiedIDs `sublist_of` exportedShapes.
Proof.
  unfold carryOver. induction exportedShapes as [| x l IH]; simpl; [constructor |].
  destruct (_ && _); [apply sublist_skip | apply sublist_cons]; exact IH.
Qed.

(** X5. Whatever the chain does, the collection handed to
    [annotations.import] has the tracks and the tags of the exported
    collection; its shapes are first outputs of the chain, none of which
    has an [id], and then shapes of the exported collection in their
    original order, [id] included. *)
Theorem imported_collection_layout instance actionsChain actionParameters
    frameFrom frameTo filters cancelled st r s' c :
  runSingleFrameChain instance actionsChain actionParameters frameFrom frameTo
    filters cancelled (startOf st) = (r, s') ->
  In (EvImport c) (trace s') ->
  tracks c = tracks (annotations st)
  /\ tags c = tags (annotations st)
  /\ exists handled carried,
       shapes c = handled ++ carried
       /\ (forall shape, In shape handled ->
             id shape = None
             /\ exists f output,
                  frameFrom <= f <= frameTo /\ isLive instance f = true
                  /\ In output (frameOutput instance actionsChain filters
                                  (shapes (annotations st)) f)
                  /\ shape = omit_id output)
       /\ carried `sublist_of` shapes (annotations st).
Proof.
  intros H Hin. apply (run_import _ _ _ _ _ _ _ _ _ _ _ H) in Hin. subst c.
  unfold committedCollection, importedCollection. simpl.
  split; [reflexivity |]. split; [reflexivity |].
  eexists _, _. split; [reflexivity |]. split; [| apply carryOver_sublist].
  intros shape Hs. apply In_handledAfter in Hs as (f & x & Hf & Hl & Hx & ->).
  split; [reflexivity |]. exists f, x. apply In_frameRange in Hf. auto.
Qed.

Lemma imported_collection_layout_witness :
  tracks {| shapes := [omit_id shapeA; shapeB]; tracks := ["track"]; tags := ["tag"] |}
  = tracks (annotations sampleStore).
Proof.
  destruct (imported_collection_layout sampleSession [sampleAction] [∅]
              0 2 [] neverCancelled sampleStore _ _
              {| shapes := [omit_id shapeA; shapeB]; tracks := ["track"];
                 tags := ["tag"] |}
              (surjective_pairing _)) as (Htracks & _).
  - vm_compute. tauto.
  - exact Htracks.
Defined.

(** ** Exact forms of the loops *)

Lemma extend_nothing s : extend s 0 [] = s.
Proof. destruct s. unfold extend. simpl. rewrite Nat.add_0_r, app_nil_r. reflexivity. Qed.

Lemma extend_extend s a1 evs1 a2 evs2 :
  extend (extend s a1 evs1) a2 evs2 = extend s (a1 + a2) (evs1 ++ evs2).
Proof. unfold extend. simpl. rewrite Nat.add_assoc, app_assoc. reflexivity. Qed.

Lemma emit_exact ev s : emit ev s = (Normal tt, extend s 0 [ev]).
Proof. unfold emit, extend. rewrite Nat.add_0_r. reflexivity. Qed.

Lemma initActions_exact actionParameters actions : forall idx rejected s,
  initActions actionParameters idx actions rejected s
  = (initResult actionParameters idx actions rejected,
     extend s 0 (initEvents actionParameters idx actions)).
Proof.
  induction actions as [| a others IH]; intros idx rejected s; simpl.
  - rewrite extend_nothing. reflexivity.
  - unfold resolvedAt, mbind, Run_bind, liftResult.
    destruct (parameters a) as [declared | e]; [| rewrite extend_nothing; reflexivity].
    destruct (resolveParameters declared _) as [resolved | e];
      [| rewrite extend_nothing; reflexivity].
    rewrite emit_exact.
    destruct (init a resolved) as [e | [] | time e];
      [reflexivity | rewrite IH, extend_extend; reflexivity ..].
Qed.

Lemma runChain_exact actions frameData : forall idx frameCollection s,
  runChain idx actions frameData frameCollection s
  = (match chainResult actions frameData frameCollection with
     | Ok output => Normal output
     | Err e => Throw e
     end,
     extend s 0 (runEvents idx actions frameData frameCollection)).
Proof.
  induction actions as [| a others IH]; intros idx coll s; simpl.
  - rewrite extend_nothing. reflexivity.
  - unfold call, mbind, Run_bind, liftResult. rewrite emit_exact.
    destruct (run a _) as [output | e]; [| reflexivity].
    rewrite IH, extend_extend. reflexivity.
Qed.

Lemma checkpoint_exact cancelled s :
  checkpoint cancelled s
  = (if cancelled (polls s) then Return else Normal tt,
     extend s 1 [EvCancelled (cancelled (polls s))]).
Proof.
  unfold checkpoint, poll, returnEarly, mbind, mret, Run_bind, Run_ret, extend.
  rewrite Nat.add_1_r. destruct (cancelled (polls s)); reflexivity.
Qed.

Lemma call_exact {A} ev (x : Result A) s :
  call ev x s
  = (match x with Ok a => Normal a | Err e => Throw e end, extend s 0 [ev]).
Proof.
  unfold call, mbind, Run_bind, liftResult. rewrite emit_exact.
  destruct x; reflexivity.
Qed.

Lemma wrappedOnProgress_exact instance message progress s :
  wrappedOnProgress instance message progress s
  = (match onProgress instance (length (progressCalls (trace s))) message progress with
     | Ok _ => Normal tt
     | Err e => Throw e
     end,
     extend s 0 [EvProgress message progress]).
Proof.
  unfold wrappedOnProgress. rewrite call_exact.
  destruct (onProgress instance _ message progress) as [[] | e]; reflexivity.
Qed.

Lemma progressCalls_runEvents actions frameData : forall idx frameCollection,
  progressCalls (runEvents idx actions frameData frameCollection) = [].
Proof.
  induction actions as [| a others IH]; intros idx coll; simpl; [reflexivity |].
  destruct (run a _); [apply IH | reflexivity].
Qed.

Lemma processFrame_exact instance actionsChain frameFrom frameTo filters cancelled
    exportedShapes f handled modifiedIDs s :
  processFrame instance actionsChain frameFrom frameTo filters cancelled
    exportedShapes f handled modifiedIDs s
  = match frameError instance actionsChain filters exportedShapes f with
    | Some e =>
        (Throw e,
         extend s 0 (frameTrace instance actionsChain frameFrom frameTo filters
                       exportedShapes f false))
    | None =>
        if isLive instance f then
          match onProgress instance (length (progressCalls (trace s)))
                  "Actions are running" (progressAt frameFrom frameTo f) with
          | Err e =>
              (Throw e,
               extend s 0 (frameReport instance actionsChain frameFrom frameTo
                             filters exportedShapes f))
          | Ok _ =>
              (if cancelled (polls s) then Return
               else Normal (handled ++ map omit_id
                                         (frameOutput instance actionsChain filters
                                            exportedShapes f),
                            modifiedIDs ++ idsOnFrame instance filters f),
               extend s 1 (frameTrace instance actionsChain frameFrom frameTo
                             filters exportedShapes f (cancelled (polls s))))
          end
        else
          (Normal (handled, modifiedIDs),
           extend s 0 (frameTrace instance actionsChain frameFrom frameTo filters
                         exportedShapes f false))
    end.
Proof.
  unfold processFrame, frameError, frameTrace, frameReport, isLive,
    frameOutput, workingCollection, idsOnFrame.
  unfold mbind, Run_bind. rewrite call_exact.
  destruct (frames_get instance f) as [fd | e]; [| reflexivity].
  destruct (deleted fd); cbv beta iota; [reflexivity |].
  rewrite call_exact.
  destruct (getAnnotations instance f filters) as [states | e];
    [| rewrite extend_extend; reflexivity].
  rewrite runChain_exact.
  destruct (chainResult actionsChain fd _) as [output | e];
    [| rewrite !extend_extend, app_nil_r; reflexivity].
  rewrite wrappedOnProgress_exact, !extend_extend. cbn [trace extend].
  rewrite !progressCalls_app, progressCalls_runEvents. cbn [progressCalls].
  change (progressCalls [EvFrameGet f; EvGetAnnotations f]) with (@nil (string * Z)).
  rewrite !app_nil_r.
  destruct (onProgress instance _ _ _) as [[] | e];
    [| rewrite ?extend_extend, <- ?app_assoc; reflexivity].
  rewrite checkpoint_exact, !extend_extend. simpl.
  unfold mret, Run_ret.
  destruct (cancelled (polls s + 0)%nat) eqn:Hc; rewrite Nat.add_0_r in Hc; rewrite Hc;
    rewrite <- !app_assoc; reflexivity.
Qed.

Section LoopFacts.

Variable instance : Session.
Variable actionsChain : list BaseSingleFrameAction.
Variables frameFrom frameTo : Z.
Variable filters : list string.
Variable cancelled : nat -> bool.
Variable exportedShapes : list SerializedShape.

Lemma frameTrace_unpolled f answer :
  isPolled instance actionsChain filters exportedShapes f = false ->
  frameTrace instance actionsChain frameFrom frameTo filters exportedShapes f answer
  = frameTrace instance actionsChain frameFrom frameTo filters exportedShapes f false.
Proof.
  unfold isPolled, isLive, frameError, frameTrace.
  destruct (frames_get instance f) as [fd | e]; [| reflexivity].
  destruct (deleted fd); [reflexivity |].
  destruct (getAnnotations instance f filters) as [states | e]; [| reflexivity].
  destruct (chainResult actionsChain fd _); [discriminate | reflexivity].
Qed.

Lemma answers_runEvents actions frameData : forall idx frameCollection,
  answers (runEvents idx actions frameData frameCollection) = [].
Proof.
  induction actions as [| a others IH]; intros idx coll; simpl; [reflexivity |].
  destruct (run a _); [apply IH | reflexivity].
Qed.

Lemma answers_frameTrace f answer :
  answers (frameTrace instance actionsChain frameFrom frameTo filters
             exportedShapes f answer)
  = if isPolled instance actionsChain filters exportedShapes f then [answer] else [].
Proof.
  unfold isPolled, isLive, frameError, frameTrace.
  destruct (frames_get instance f) as [fd | e]; [| reflexivity].
  destruct (deleted fd); [reflexivity |].
  destruct (getAnnotations instance f filters) as [states | e]; [| reflexivity].
  rewrite !answers_app, answers_runEvents.
  destruct (chainResult actionsChain fd _); reflexivity.
Qed.

Lemma isPolled_error f e :
  frameError instance actionsChain filters exportedShapes f = Some e ->
  isPolled instance actionsChain filters exportedShapes f = false.
Proof. unfold isPolled. intros ->. apply andb_false_r. Qed.

Lemma isPolled_live f :
  frameError instance actionsChain filters exportedShapes f = None ->
  isPolled instance actionsChain filters exportedShapes f = isLive instance f.
Proof. unfold isPolled. intros ->. apply andb_true_r. Qed.

Lemma answers_frameReport f :
  answers (frameReport instance actionsChain frameFrom frameTo filters
             exportedShapes f) = [].
Proof.
  unfold frameReport.
  destruct (frames_get instance f) as [fd | e]; [| reflexivity].
  destruct (getAnnotations instance f filters) as [states | e]; [| reflexivity].
  rewrite !answers_app, answers_runEvents. reflexivity.
Qed.

Lemma LoopTrace_step f later handled modifiedIDs evs r :
  frameError instance actionsChain filters exportedShapes f = None ->
  LoopTrace instance actionsChain frameFrom frameTo filters cancelled exportedShapes
    later
    (handled ++ (if isLive instance f
                 then map omit_id (frameOutput instance actionsChain filters
                                     exportedShapes f)
                 else []))
    (modifiedIDs ++ (if isLive instance f then idsOnFrame instance filters f else []))
    evs r ->
  LoopTrace instance actionsChain frameFrom frameTo filters cancelled exportedShapes
    (f :: later) handled modifiedIDs
    (frameTrace instance actionsChain frameFrom frameTo filters exportedShapes f false
       ++ evs) r.
Proof.
  intros Hok H.
  destruct H as [evs r Hall -> -> | before g after p evs -> Hall Hp Hc ->
                 | before g after e evs -> Hall He ->
                 | before g after n e evs -> Hall Hp He ->].
  - apply LoopCompleted; [constructor; assumption | reflexivity |].
    rewrite handledAfter_cons, modifiedAfter_cons, <- !app_assoc. reflexivity.
  - apply (LoopCancelled _ _ _ _ _ _ _ _ _ _ (f :: before) g after p);
      [reflexivity | constructor; assumption | assumption | assumption |].
    unfold passes. simpl. rewrite <- app_assoc. reflexivity.
  - apply (LoopFailed _ _ _ _ _ _ _ _ _ _ (f :: before) g after e);
      [reflexivity | constructor; assumption | assumption |].
    unfold passes. simpl. rewrite <- app_assoc. reflexivity.
  - apply (LoopReportFails _ _ _ _ _ _ _ _ _ _ (f :: before) g after n e);
      [reflexivity | constructor; assumption | assumption | assumption |].
    unfold passes. simpl. rewrite <- app_assoc. reflexivity.
Qed.

Lemma iterateFrames_trace frames : forall handled modifiedIDs s r s',
  iterateFrames instance actionsChain frameFrom frameTo filters cancelled
    exportedShapes frames handled modifiedIDs s = (r, s') ->
  exists evs,
    s' = extend s (length (answers evs)) evs
    /\ LoopTrace instance actionsChain frameFrom frameTo filters cancelled
         exportedShapes frames handled modifiedIDs evs r.
Proof.
  induction frames as [| f later IH]; intros h i s r s' H; simpl in H.
  - inversion H; subst. exists []. simpl. rewrite extend_nothing.
    split; [reflexivity |].
    apply LoopCompleted; [constructor | reflexivity |].
    unfold handledAfter, modifiedAfter. simpl. rewrite !app_nil_r. reflexivity.
  - unfold mbind, Run_bind in H. rewrite processFrame_exact in H.
    destruct (frameError instance actionsChain filters exportedShapes f) as [e |]
      eqn:Herr.
    + inversion H; subst. clear H.
      eexists. split.
      * rewrite answers_frameTrace, (isPolled_error _ _ Herr). reflexivity.
      * apply (LoopFailed _ _ _ _ _ _ _ _ _ _ [] f later e);
          [reflexivity | constructor | assumption | reflexivity].
    + destruct (isLive instance f) eqn:Hlive.
      * assert (Hpolled : isPolled instance actionsChain filters exportedShapes f
                          = true)
          by (rewrite (isPolled_live _ Herr); assumption).
        destruct (onProgress instance (length (progressCalls (trace s)))
                    "Actions are running" (progressAt frameFrom frameTo f))
          as [[] | e] eqn:Hreport.
        2:{ inversion H; subst. clear H. eexists. split.
            - rewrite answers_frameReport. reflexivity.
            - apply (LoopReportFails _ _ _ _ _ _ _ _ _ _ [] f later
                     (length (progressCalls (trace s))) e);
                [reflexivity | constructor | assumption | exact Hreport
                 | reflexivity]. }
        destruct (cancelled (polls s)) eqn:Hcan.
        -- inversion H; subst. clear H. eexists. split.
           ++ rewrite answers_frameTrace, Hpolled. reflexivity.
           ++ apply (LoopCancelled _ _ _ _ _ _ _ _ _ _ [] f later (polls s));
                [reflexivity | constructor | assumption | assumption
                 | reflexivity].
        -- apply IH in H as (evs & -> & Htrace).
           exists (frameTrace instance actionsChain frameFrom frameTo filters
                     exportedShapes f false ++ evs).
           split.
           ++ rewrite extend_extend, answers_app, length_app, answers_frameTrace,
                Hpolled. reflexivity.
           ++ apply LoopTrace_step; [assumption |]. rewrite Hlive. exact Htrace.
      * assert (Hun : isPolled instance actionsChain filters exportedShapes f = false)
          by (rewrite (isPolled_live _ Herr); assumption).
        apply IH in H as (evs & -> & Htrace).
        exists (frameTrace instance actionsChain frameFrom frameTo filters
                  exportedShapes f false ++ evs).
        split.
        -- rewrite extend_extend, answers_app, length_app, answers_frameTrace, Hun.
           reflexivity.
        -- apply LoopTrace_step; [assumption |]. rewrite Hlive, !app_nil_r.
           exact Htrace.
Qed.

End LoopFacts.

(** ** Exact forms of the phases of a run *)

Lemma initResult_not_Return actionParameters actions : forall idx rejected,
  initResult actionParameters idx actions rejected <> Return.
Proof.
  induction actions as [| a others IH]; intros idx rejected; simpl; [discriminate |].
  destruct (resolvedAt actionParameters idx a) as [resolved | e]; [| discriminate].
  destruct (init a resolved); [discriminate | apply IH ..].
Qed.

Lemma initialization_report_fails instance actionsChain actionParameters cancelled
    s e :
  onProgress instance (length (progressCalls (trace s))) "Actions initialization" 0
  = Err e ->
  initialization instance actionsChain actionParameters cancelled s
  = (Throw e, extend s 0 [announceInit]).
Proof.
  intros H. unfold initialization, showMessageWithPause, mbind, Run_bind.
  rewrite wrappedOnProgress_exact, H. reflexivity.
Qed.

Lemma initialization_exact instance actionsChain actionParameters cancelled s :
  onProgress instance (length (progressCalls (trace s))) "Actions initialization" 0
  = Ok tt ->
  exists s',
    initialization instance actionsChain actionParameters cancelled s
    = (if cancelled (polls s) then Return
       else match initFailure actionParameters actionsChain with
            | Some e => Throw e
            | None => Normal tt
            end,
       s')
    /\ store s' = store s /\ polls s' = S (polls s)
    /\ trace s' = trace s
                    ++ (if cancelled (polls s)
                        then [announceInit; EvCancelled true]
                        else initPhase actionsChain actionParameters).
Proof.
  intros Hreport.
  unfold initialization, showMessageWithPause, mbind, Run_bind.
  rewrite wrappedOnProgress_exact, Hreport, checkpoint_exact. simpl polls.
  rewrite Nat.add_0_r.
  destruct (cancelled (polls s)) eqn:Hc.
  - eexists. split; [reflexivity |]. simpl. rewrite <- app_assoc.
    split; [reflexivity |]. split; [lia | reflexivity].
  - rewrite initActions_exact. unfold initFailure, awaitAll, throw, mret, Run_ret.
    pose proof (initResult_not_Return actionParameters actionsChain 0%nat None) as Hnr.
    destruct (initResult actionParameters 0 actionsChain None) as [[[t e] |] | | e];
      [| | contradiction |];
      (eexists; split; [reflexivity |]; simpl; rewrite <- !app_assoc;
       split; [reflexivity |]; split; [lia | reflexivity]).
Qed.

Lemma commit_report_fails instance cancelled exported handled modifiedIDs s e :
  onProgress instance (length (progressCalls (trace s)))
    "Commiting handled objects" 100 = Err e ->
  commit instance cancelled exported handled modifiedIDs s
  = (Throw e, extend s 0 [announceCommit]).
Proof.
  intros H. unfold commit, showMessageWithPause, mbind, Run_bind.
  rewrite wrappedOnProgress_exact, H. reflexivity.
Qed.

Lemma commit_exact instance cancelled exported handled modifiedIDs s :
  onProgress instance (length (progressCalls (trace s)))
    "Commiting handled objects" 100 = Ok tt ->
  exists s',
    commit instance cancelled exported handled modifiedIDs s
    = (if cancelled (polls s) then Return
       else snd (commitSteps instance
                   (importedCollection exported handled modifiedIDs)),
       s')
    /\ polls s' = S (polls s)
    /\ (cancelled (polls s) = true -> store s' = store s)
    /\ trace s' = trace s
                    ++ (if cancelled (polls s)
                        then [announceCommit; EvCancelled true]
                        else [announceCommit; EvCancelled false]
                               ++ fst (commitSteps instance
                                         (importedCollection exported handled
                                            modifiedIDs))).
Proof.
  intros Hreport.
  unfold commit, showMessageWithPause, commitSteps.
  fold (importedCollection exported handled modifiedIDs).
  set (imported := importedCollection exported handled modifiedIDs).
  unfold mbind, Run_bind.
  rewrite wrappedOnProgress_exact, Hreport, checkpoint_exact. simpl polls.
  rewrite Nat.add_0_r.
  destruct (cancelled (polls s)) eqn:Hc.
  { eexists. split; [reflexivity |]. simpl. rewrite <- app_assoc.
    split; [lia |]. split; reflexivity. }
  rewrite call_exact.
  destruct (annotations_clear instance) as [[] | e].
  2:{ eexists. split; [reflexivity |]. simpl. rewrite <- !app_assoc.
      split; [lia |]. split; [discriminate | reflexivity]. }
  unfold modifyStore at 1. rewrite call_exact.
  destruct (actions_clear instance) as [[] | e].
  2:{ eexists. split; [reflexivity |]. simpl. rewrite <- !app_assoc.
      split; [lia |]. split; [discriminate | reflexivity]. }
  unfold modifyStore at 1. rewrite call_exact.
  destruct (annotations_import instance imported) as [[] | e].
  2:{ eexists. split; [reflexivity |]. simpl. rewrite <- !app_assoc.
      split; [lia |]. split; [discriminate | reflexivity]. }
  unfold modifyStore at 1. rewrite call_exact.
  destruct (event_close instance) as [[] | e];
    (eexists; split; [reflexivity |]; simpl; rewrite <- !app_assoc;
     split; [lia |]; split; [discriminate | reflexivity]).
Qed.

Lemma destroyActions_exact actions : forall idx rejected s,
  destroyActions idx actions rejected s
  = (destroyResult actions rejected,
     extend s 0 (map EvDestroy (seq idx (destroyCalls actions)))).
Proof.
  induction actions as [| a others IH]; intros idx rejected s; simpl.
  - rewrite extend_nothing. reflexivity.
  - unfold mbind, Run_bind. rewrite emit_exact.
    destruct (destroy a) as [e | [] | time e];
      [reflexivity | rewrite IH, extend_extend; reflexivity ..].
Qed.

Lemma finallyBlock_exact instance actionsChain s :
  finallyBlock instance actionsChain s
  = (match cleanupFailure instance actionsChain (length (progressCalls (trace s)))
     with
     | Some e => Throw e
     | None => Normal tt
     end,
     extend s 0
       (announceFinal
        :: map EvDestroy
             (seq 0 (cleanupCalls instance actionsChain
                       (length (progressCalls (trace s))))))).
Proof.
  unfold finallyBlock, cleanupFailure, cleanupCalls, mbind, Run_bind.
  rewrite wrappedOnProgress_exact.
  destruct (onProgress instance _ "Finalizing" 100) as [[] | e]; [| reflexivity].
  rewrite destroyActions_exact, extend_extend.
  unfold awaitAll, destroyFailure, throw, mret, Run_ret.
  pose proof (destroyResult_not_Return actionsChain None) as Hnr.
  destruct (destroyResult actionsChain None) as [[[t e] |] | | e];
    [reflexivity | reflexivity | contradiction | reflexivity].
Qed.

Lemma answers_initEvents actionParameters actions : forall idx,
  answers (initEvents actionParameters idx actions) = [].
Proof.
  induction actions as [| a others IH]; intros idx; simpl; [reflexivity |].
  destruct (resolvedAt actionParameters idx a) as [resolved | e]; [| reflexivity].
  simpl. destruct (init a resolved); [reflexivity | apply IH ..].
Qed.

Lemma answers_initPhase actionsChain actionParameters :
  answers (initPhase actionsChain actionParameters) = [false].
Proof.
  unfold initPhase. rewrite answers_app, answers_initEvents. reflexivity.
Qed.

Lemma answers_commitSteps instance imported :
  answers (fst (commitSteps instance imported)) = [].
Proof.
  unfold commitSteps.
  destruct (annotations_clear instance); [| reflexivity].
  destruct (actions_clear instance); [| reflexivity].
  destruct (annotations_import instance imported); reflexivity.
Qed.

Lemma LoopTrace_completed instance actionsChain frameFrom frameTo filters cancelled
    exportedShapes frames handled modifiedIDs evs result :
  LoopTrace instance actionsChain frameFrom frameTo filters cancelled exportedShapes
    frames handled modifiedIDs evs (Normal result) ->
  List.Forall (fun f => frameError instance actionsChain filters exportedShapes f
                        = None) frames
  /\ evs = passes instance actionsChain frameFrom frameTo filters exportedShapes frames
  /\ result = (handled ++ handledAfter instance actionsChain filters exportedShapes
                            frames,
               modifiedIDs ++ modifiedAfter instance filters frames).
Proof.
  intros H. inversion H as [evs' r' Hall Hevs Hr | | |]; subst.
  inversion Hr. auto.
Qed.

Lemma eventsOf_app kinds evs1 evs2 :
  eventsOf kinds (evs1 ++ evs2) = eventsOf kinds evs1 ++ eventsOf kinds evs2.
Proof. unfold eventsOf. apply List.filter_app. Qed.

Lemma tryBlock_trace instance actionsChain actionParameters frameFrom frameTo
    filters cancelled s r s' :
  tryBlock instance actionsChain actionParameters frameFrom frameTo filters
    cancelled s = (r, s') ->
  exists evs,
    trace s' = trace s ++ evs
    /\ polls s' = (polls s + length (answers evs))%nat
    /\ (eventsOf [KCommit] evs = [] -> store s' = store s)
    /\ TryTrace instance actionsChain actionParameters frameFrom frameTo filters
         cancelled (store s) (polls s) (length (progressCalls (trace s))) evs r.
Proof.
  unfold tryBlock. intros H. unfold mbind, Run_bind in H.
  destruct (onProgress instance (length (progressCalls (trace s)))
              "Actions initialization" 0) as [[] | e] eqn:Hreport.
  2:{ rewrite (initialization_report_fails _ _ _ _ _ _ Hreport) in H.
      inversion H; subst. exists [announceInit].
      split; [reflexivity |]. split; [simpl; lia |].
      split; [intros _; reflexivity |].
      apply (TryAnnounceFails _ _ _ _ _ _ _ _ _ _ e); [exact Hreport | reflexivity]. }
  destruct (initialization_exact instance actionsChain actionParameters cancelled s
              Hreport) as (s1 & Heq & Hst1 & Hp1 & Htr1).
  rewrite Heq in H. clear Heq.
  destruct (cancelled (polls s)) eqn:Hc0.
  { inversion H; subst. eexists. split; [exact Htr1 |]. split; [simpl; lia |].
    split; [intros _; assumption |].
    apply TryCancelledAtStart; [exact Hc0 | reflexivity]. }
  destruct (initFailure actionParameters actionsChain) as [e |] eqn:Hinit.
  { inversion H; subst. eexists. split; [exact Htr1 |].
    split; [rewrite answers_initPhase; simpl; lia |].
    split; [intros _; assumption |].
    apply TryInitFails; [assumption | assumption | reflexivity]. }
  rewrite call_exact in H.
  destruct (collection_export instance) as [[] | e] eqn:Hexp.
  2:{ inversion H; subst. simpl. rewrite Htr1, <- app_assoc.
      eexists. split; [reflexivity |].
      split; [rewrite answers_app, answers_initPhase; simpl; lia |].
      split; [intros _; assumption |].
      apply TryExportFails; [assumption | assumption | assumption | reflexivity]. }
  unfold getStore in H. simpl store in H. rewrite Hst1 in H.
  match type of H with
  | context [iterateFrames ?i ?c ?a ?b ?f ?k ?x ?fr ?h ?m ?s0] =>
      destruct (iterateFrames i c a b f k x fr h m s0) as [rL s2] eqn:Hloop
  end.
  apply iterateFrames_trace in Hloop as (evsL & -> & HL).
  destruct rL as [[handled modifiedIDs] | | e].
  - apply LoopTrace_completed in HL as (Hall & -> & Hres).
    simpl in Hres. inversion Hres; subst handled modifiedIDs. clear Hres.
    match type of H with
    | context [commit ?i ?k ?x ?h ?m ?s0] =>
        destruct (onProgress i (length (progressCalls (trace s0)))
                    "Commiting handled objects" 100) as [[] | e] eqn:Hcommit;
          [destruct (commit_exact i k x h m s0 Hcommit)
             as (s3 & Heq & Hp3 & Hst3 & Htr3)
          | rewrite (commit_report_fails i k x h m s0 e Hcommit) in H]
    end.
    2:{ inversion H; subst. clear H. simpl. rewrite Htr1, <- !app_assoc.
        eexists. split; [reflexivity |]. split.
        - rewrite !answers_app, answers_initPhase, !length_app. simpl. lia.
        - split; [intros _; assumption |].
          eapply TryCommitAnnounceFails; try eassumption. reflexivity. }
    rewrite Heq in H. clear Heq. inversion H; subst. clear H.
    unfold extend in Hp3, Hst3, Htr3. cbn [trace polls store] in Hp3, Hst3, Htr3.
    rewrite Htr1, <- !app_assoc in Htr3. rewrite ?Hst1 in Htr3.
    fold (committedCollection instance actionsChain filters (annotations (store s))
            (frameRange frameFrom frameTo)) in *.
    match type of Htr3 with
    | context [cancelled ?p] => destruct (cancelled p) eqn:Hc1
    end.
    + eexists. split; [exact Htr3 |]. split.
      * rewrite Hp3, !answers_app, answers_initPhase, !length_app. simpl. lia.
      * split; [intros _; rewrite (Hst3 eq_refl); assumption |].
        eapply TryCancelledBeforeCommit; try eassumption. reflexivity.
    + eexists. split; [exact Htr3 |]. split.
      * rewrite Hp3, !answers_app, answers_initPhase, answers_commitSteps,
          !length_app. simpl. lia.
      * split.
        -- rewrite !eventsOf_app. intros Hnone. exfalso.
           apply app_eq_nil in Hnone as [_ Hnone].
           apply app_eq_nil in Hnone as [_ Hnone].
           apply app_eq_nil in Hnone as [_ Hnone].
           apply app_eq_nil in Hnone as [_ Hnone].
           revert Hnone. unfold commitSteps.
           destruct (annotations_clear instance); [| discriminate].
           destruct (actions_clear instance); [| discriminate].
           destruct (annotations_import instance _); discriminate.
        -- rewrite ?Hst1. apply TryCommits; try assumption; reflexivity.
  - inversion H; subst. clear H. simpl. rewrite Htr1, <- !app_assoc.
    eexists. split; [reflexivity |]. split.
    + rewrite !answers_app, answers_initPhase, !length_app. simpl. lia.
    + split; [intros _; assumption |].
      eapply TryCancelledInLoop; try eassumption. reflexivity.
  - inversion H; subst. clear H. simpl. rewrite Htr1, <- !app_assoc.
    eexists. split; [reflexivity |]. split.
    + rewrite !answers_app, answers_initPhase, !length_app. simpl. lia.
    + split; [intros _; assumption |].
      eapply TryFrameFails; try eassumption. reflexivity.
Qed.

(** The trace and the outcome of a whole run. *)
Lemma run_trace instance actionsChain actionParameters frameFrom frameTo
    filters cancelled st r s' :
  runSingleFrameChain instance actionsChain actionParameters frameFrom frameTo
    filters cancelled (startOf st) = (r, s') ->
  (exists e, chainNames actionsChain = Err e
             /\ r = Throw e /\ trace s' = [] /\ store s' = st)
  \/ (exists chain e,
        chainNames actionsChain = Ok chain
        /\ logger_log instance frameFrom frameTo chain = Err e
        /\ r = Throw e /\ trace s' = [EvLog frameFrom frameTo chain]
        /\ store s' = st)
  \/ (exists chain evs r1,
        chainNames actionsChain = Ok chain
        /\ logger_log instance frameFrom frameTo chain = Ok tt
        /\ TryTrace instance actionsChain actionParameters frameFrom frameTo
             filters cancelled st 0 0 evs r1
        /\ trace s' = EvLog frameFrom frameTo chain :: evs
                        ++ announceFinal
                        :: map EvDestroy
                             (seq 0 (cleanupCalls instance actionsChain
                                       (length (progressCalls evs))))
        /\ polls s' = length (answers evs)
        /\ (eventsOf [KCommit] evs = [] -> store s' = st)
        /\ r = match cleanupFailure instance actionsChain
                       (length (progressCalls evs)) with
               | Some e => Throw e
               | None => r1
               end).
Proof.
  unfold runSingleFrameChain. intros H. unfold mbind, Run_bind, liftResult in H.
  destruct (chainNames actionsChain) as [chain | e].
  2:{ left. inversion H; subst. eauto. }
  rewrite call_exact in H.
  destruct (logger_log instance frameFrom frameTo chain) as [[] | e] eqn:Hlog.
  2:{ right. left. inversion H; subst. exists chain, e. simpl. auto 6. }
  right. right. unfold tryFinally in H.
  match type of H with
  | context [tryBlock ?i ?c ?a ?x ?y ?f ?k ?s0] =>
      destruct (tryBlock i c a x y f k s0) as [r1 s1] eqn:Htry
  end.
  apply tryBlock_trace in Htry as (evs & Htr & Hp & Hst & Htrace).
  rewrite finallyBlock_exact in H. simpl in Htr, Hp, Hst. simpl in Htrace.
  rewrite Htr in H. cbn [progressCalls] in H.
  exists chain, evs, r1. split; [reflexivity |]. split; [exact Hlog |].
  split; [exact Htrace |].
  change (progressCalls (EvLog frameFrom frameTo chain :: evs))
    with (progressCalls evs) in H.
  destruct (cleanupFailure instance actionsChain (length (progressCalls evs)))
    as [e |];
    inversion H; subst; unfold extend; cbn [trace polls store];
    rewrite Htr, Nat.add_0_r; simpl; auto.
Qed.

(** ** Kinds of the events of the phases *)

Lemma kindIn_spec kinds ev : kindIn kinds ev = true <-> In (kindOf ev) kinds.
Proof.
  unfold kindIn. rewrite existsb_exists. split.
  - intros (k & Hk & Heq). destruct (EventKind_eq_dec k (kindOf ev)); [| discriminate].
    subst. assumption.
  - intros Hin. exists (kindOf ev). split; [assumption |].
    destruct (EventKind_eq_dec (kindOf ev) (kindOf ev)); [reflexivity | contradiction].
Qed.

Lemma eventsOf_none kinds within evs :
  kindsWithin within evs ->
  (forall k, In k within -> ~ In k kinds) ->
  eventsOf kinds evs = [].
Proof.
  unfold kindsWithin, eventsOf. intros H Hdis.
  induction H as [| ev evs Hev _ IH]; simpl; [reflexivity |].
  destruct (kindIn kinds ev) eqn:Hk; [| exact IH].
  apply kindIn_spec in Hk. exfalso. exact (Hdis _ Hev Hk).
Qed.

Lemma eventsOf_all kinds within evs :
  kindsWithin within evs ->
  (forall k, In k within -> In k kinds) ->
  eventsOf kinds evs = evs.
Proof.
  unfold kindsWithin, eventsOf. intros H Hsub.
  induction H as [| ev evs Hev _ IH]; simpl; [reflexivity |].
  rewrite (proj2 (kindIn_spec kinds ev) (Hsub _ Hev)), IH. reflexivity.
Qed.

Lemma initEvents_kinds actionParameters actions : forall idx,
  kindsWithin [KInit] (initEvents actionParameters idx actions).
Proof.
  induction actions as [| a others IH]; intros idx; simpl; [kinds_tac |].
  destruct (resolvedAt actionParameters idx a) as [resolved | e]; [| kinds_tac].
  apply kindsWithin_cons; [simpl; tauto |].
  destruct (init a resolved); [kinds_tac | apply IH ..].
Qed.

Lemma runEvents_kinds actions frameData : forall idx frameCollection,
  kindsWithin [KRun] (runEvents idx actions frameData frameCollection).
Proof.
  induction actions as [| a others IH]; intros idx coll; simpl; [kinds_tac |].
  apply kindsWithin_cons; [simpl; tauto |].
  destruct (run a _); [apply IH | kinds_tac].
Qed.

Lemma commitSteps_kinds instance imported :
  kindsWithin [KCommit; KClose] (fst (commitSteps instance imported)).
Proof.
  unfold commitSteps.
  destruct (annotations_clear instance); [| simpl; kinds_tac].
  destruct (actions_clear instance); [| simpl; kinds_tac].
  destruct (annotations_import instance imported); simpl; kinds_tac.
Qed.

Lemma frameTrace_kinds instance actionsChain frameFrom frameTo filters
    exportedShapes f answer :
  kindsWithin loopKinds
    (frameTrace instance actionsChain frameFrom frameTo filters exportedShapes
       f answer).
Proof.
  unfold frameTrace.
  destruct (frames_get instance f) as [fd | e]; [| kinds_tac].
  destruct (deleted fd); [kinds_tac |].
  destruct (getAnnotations instance f filters) as [states | e]; [| kinds_tac].
  pose proof (runEvents_kinds actionsChain fd 0
                (pickFrameCollection exportedShapes (frameCollectionIDsOf states)))
    as Hr.
  destruct (chainResult actionsChain fd _);
    (apply kindsWithin_cons; [simpl; tauto |]);
    (apply kindsWithin_cons; [simpl; tauto |]);
    (apply kindsWithin_app; [kinds_tac |]); kinds_tac.
Qed.

Lemma frameReport_kinds instance actionsChain frameFrom frameTo filters
    exportedShapes f :
  kindsWithin loopKinds
    (frameReport instance actionsChain frameFrom frameTo filters exportedShapes f).
Proof.
  unfold frameReport.
  destruct (frames_get instance f) as [fd | e]; [| kinds_tac].
  destruct (getAnnotations instance f filters) as [states | e]; [| kinds_tac].
  pose proof (runEvents_kinds actionsChain fd 0
                (pickFrameCollection exportedShapes (frameCollectionIDsOf states)))
    as Hr.
  apply kindsWithin_cons; [simpl; tauto |].
  apply kindsWithin_cons; [simpl; tauto |].
  apply kindsWithin_app; kinds_tac.
Qed.

Lemma passes_kinds instance actionsChain frameFrom frameTo filters
    exportedShapes frames :
  kindsWithin loopKinds
    (passes instance actionsChain frameFrom frameTo filters exportedShapes frames).
Proof.
  unfold passes. induction frames as [| f frames IH]; simpl; [kinds_tac |].
  apply kindsWithin_app; [apply frameTrace_kinds | exact IH].
Qed.

Lemma LoopTrace_kinds instance actionsChain frameFrom frameTo filters cancelled
    exportedShapes frames handled modifiedIDs evs r :
  LoopTrace instance actionsChain frameFrom frameTo filters cancelled exportedShapes
    frames handled modifiedIDs evs r ->
  kindsWithin loopKinds evs.
Proof.
  intros H. destruct H; subst;
    repeat first [apply passes_kinds | apply frameTrace_kinds
                  | apply frameReport_kinds | apply kindsWithin_app].
Qed.

(** ** Failures before the [try] block *)

Lemma mapResult_first_error {A B} (f : A -> Result B) before a after e :
  List.Forall (fun b => exists y, f b = Ok y) before ->
  f a = Err e ->
  mapResult f (before ++ a :: after) = Err e.
Proof.
  intros Hall Ha. induction Hall as [| b before [y Hy] _ IH]; simpl.
  - rewrite Ha. reflexivity.
  - rewrite Hy, IH. reflexivity.
Qed.

(** X6. When the name getter of an action of the chain throws, as that of
    the base class does, the run rejects with that error before anything
    else happens: nothing is logged, no progress is reported, no action is
    initialized or destroyed, and the store is untouched.  When the names
    can be read but [logger.log] rejects, the run rejects with the logger's
    error after that single call, again without cleanup. *)
Theorem run_fails_before_try instance actionsChain actionParameters
    frameFrom frameTo filters cancelled st r s' :
  runSingleFrameChain instance actionsChain actionParameters frameFrom frameTo
    filters cancelled (startOf st) = (r, s') ->
  (forall before a after e,
     actionsChain = before ++ a :: after ->
     List.Forall (fun b => exists n, name b = Ok n) before ->
     name a = Err e ->
     r = Throw e /\ trace s' = [] /\ store s' = st)
  /\ (forall chain e,
        chainNames actionsChain = Ok chain ->
        logger_log instance frameFrom frameTo chain = Err e ->
        r = Throw e /\ trace s' = [EvLog frameFrom frameTo chain] /\ store s' = st).
Proof.
  intros H. apply run_trace in H.
  split.
  - intros before a after e -> Hall Ha.
    assert (Hnames : chainNames (before ++ a :: after) = Err e).
    { unfold chainNames. rewrite (mapResult_first_error name _ _ _ e Hall Ha).
      reflexivity. }
    destruct H as [(e' & Hn & Hr & Ht & Hs) | [(c & e' & Hn & _) | (c & ? & ? & Hn & _)]];
      rewrite Hnames in Hn; inversion Hn; subst; auto.
  - intros chain e Hn Hlog.
    destruct H as [(e' & Hn' & _) | [(c & e' & Hn' & Hlog' & Hr & Ht & Hs)
                                    | (c & ? & ? & Hn' & Hlog' & _)]];
      rewrite Hn in Hn'; inversion Hn'; subst; rewrite Hlog in Hlog';
      inversion Hlog'; subst; auto.
Qed.

Lemma run_fails_before_try_witness :
  runSingleFrameChain sampleSession [RemoveFilteredShapes; BaseAction] [] 0 2 []
    neverCancelled (startOf sampleStore)
  = (Throw (JSError "Method not implemented"), startOf sampleStore).
Proof.
  destruct (runSingleFrameChain sampleSession [RemoveFilteredShapes; BaseAction] []
              0 2 [] neverCancelled (startOf sampleStore)) as [r s'] eqn:Hrun.
  destruct (run_fails_before_try _ _ _ _ _ _ _ _ _ _ Hrun) as (Hname & _).
  destruct (Hname [RemoveFilteredShapes] BaseAction []
              (JSError "Method not implemented") eq_refl) as (-> & Htr & Hst).
  - repeat constructor. exists "Remove filtered shapes". reflexivity.
  - reflexivity.
  - vm_compute in Hrun. inversion Hrun. reflexivity.
Defined.

(** ** A failing [destroy] *)

Lemma destroyResult_throw before a after e : forall rejected,
  List.Forall (fun b => forall e', destroy b <> Throws e') before ->
  destroy a = Throws e ->
  destroyResult (before ++ a :: after) rejected = Throw e
  /\ destroyCalls (before ++ a :: after) = S (length before).
Proof.
  intros rejected Hall Ha. revert rejected.
  induction Hall as [| b before Hb _ IH]; intros rejected; simpl.
  - rewrite Ha. auto.
  - destruct (destroy b) as [e' | [] | t e']; [exfalso; exact (Hb e' eq_refl) | |];
      (split; [apply (proj1 (IH _)) | rewrite (proj2 (IH None)); reflexivity]).
Qed.

Lemma destroyResult_keeps actions : forall time e,
  List.Forall (fun b => forall e', destroy b <> Throws e') actions ->
  List.Forall (fun b => forall t' e', destroy b = RejectsAt t' e' ->
                                      (time <= t')%nat) actions ->
  destroyResult actions (Some (time, e)) = Normal (Some (time, e)).
Proof.
  intros time e Hall. induction Hall as [| b actions Hb _ IH]; intros Hlate; simpl;
    [reflexivity |].
  inversion Hlate as [| ? ? Hb' Hlate']; subst.
  destruct (destroy b) as [e' | [] | t e'] eqn:Hd;
    [exfalso; exact (Hb e' eq_refl) | apply IH, Hlate' |].
  simpl. destruct (Nat.ltb_spec t time) as [Hlt | _].
  - specialize (Hb' t e' eq_refl). lia.
  - apply IH, Hlate'.
Qed.

Lemma destroyResult_earliest before a after time e : forall rejected,
  List.Forall (fun b => forall e', destroy b <> Throws e') (before ++ a :: after) ->
  destroy a = RejectsAt time e ->
  List.Forall (fun b => forall t' e', destroy b = RejectsAt t' e' ->
                                      (time < t')%nat) before ->
  List.Forall (fun b => forall t' e', destroy b = RejectsAt t' e' ->
                                      (time <= t')%nat) after ->
  (forall t0 e0, rejected = Some (t0, e0) -> (time < t0)%nat) ->
  destroyResult (before ++ a :: after) rejected = Normal (Some (time, e)).
Proof.
  induction before as [| b before IH]; intros rejected Hall Ha Hbefore Hafter Hrej;
    simpl in *.
  - inversion Hall as [| ? ? _ Hall']; subst. rewrite Ha. simpl.
    destruct rejected as [[t0 e0] |].
    + specialize (Hrej t0 e0 eq_refl).
      destruct (Nat.ltb_spec time t0) as [_ | Hge]; [| lia].
      apply destroyResult_keeps; assumption.
    + apply destroyResult_keeps; assumption.
  - inversion Hall as [| ? ? Hb Hall']; subst.
    inversion Hbefore as [| ? ? Hb' Hbefore']; subst.
    destruct (destroy b) as [e' | [] | t e'] eqn:Hd;
      [exfalso; exact (Hb e' eq_refl) | apply IH; assumption |].
    apply IH; try assumption.
    specialize (Hb' t e' eq_refl). simpl.
    destruct rejected as [[t1 e1] |].
    + specialize (Hrej t1 e1 eq_refl).
      destruct (Nat.ltb_spec t t1); intros t0 e0 Heq; inversion Heq; subst; lia.
    + intros t0 e0 Heq; inversion Heq; subst; lia.
Qed.

(** X7. The cleanup decides the outcome when a [destroy]
    fails.  Once the audit event is opened and the "Finalizing" message is
    delivered without a throw: when a [destroy] throws when it is called,
    the ones before it having returned their promises, the run rejects
    with what it threw and [destroy] is invoked on no later action; when
    every [destroy] returns a promise and one of them is rejected before
    any other is, the ones of the earlier actions being rejected strictly
    later if at all, the run rejects with that rejection and every
    [destroy] has been invoked.  This holds whatever happened in the [try]
    block, so that the error of the cleanup replaces an earlier error, a
    cancellation, or a commit that was completed. *)
Theorem rejecting_destroy_decides instance actionsChain actionParameters
    frameFrom frameTo filters cancelled st r s' :
  runSingleFrameChain instance actionsChain actionParameters frameFrom frameTo
    filters cancelled (startOf st) = (r, s') ->
  eventOpened instance actionsChain frameFrom frameTo = true ->
  (forall n, onProgress instance n "Finalizing" 100 = Ok tt) ->
  (forall before a after e,
     actionsChain = before ++ a :: after ->
     List.Forall (fun b => forall e', destroy b <> Throws e') before ->
     destroy a = Throws e ->
     r = Throw e
     /\ exists earlier,
          trace s' = earlier ++ announceFinal
                       :: map EvDestroy (seq 0 (S (length before))))
  /\ (forall before a after time e,
        actionsChain = before ++ a :: after ->
        List.Forall (fun b => forall e', destroy b <> Throws e') actionsChain ->
        destroy a = RejectsAt time e ->
        List.Forall (fun b => forall t' e', destroy b = RejectsAt t' e' ->
                                            (time < t')%nat) before ->
        List.Forall (fun b => forall t' e', destroy b = RejectsAt t' e' ->
                                            (time <= t')%nat) after ->
        r = Throw e
        /\ exists earlier,
             trace s' = earlier ++ announceFinal
                          :: map EvDestroy (seq 0 (length actionsChain))).
Proof.
  intros H Hopen Hfinal. unfold eventOpened in Hopen.
  apply run_trace in H
    as [(e' & Hn & _) | [(c & e' & Hn & Hlog & _)
                        | (c & evs & r1 & Hn & Hlog & _ & Htr & _ & _ & Hr)]].
  - rewrite Hn in Hopen. discriminate.
  - rewrite Hn, Hlog in Hopen. discriminate.
  - unfold cleanupFailure, destroyFailure in Hr. unfold cleanupCalls in Htr.
    rewrite Hfinal in Hr, Htr. split.
    + intros before a after e Hchain Hall Ha.
      destruct (destroyResult_throw before a after e None Hall Ha) as [Hres Hcalls].
      rewrite Hchain, Hres in Hr. rewrite Hchain, Hcalls in Htr.
      split; [exact Hr |]. exists (EvLog frameFrom frameTo c :: evs). exact Htr.
    + intros before a after time e Hchain Hall Ha Hbefore Hafter.
      rewrite (destroyCalls_all _ Hall) in Htr.
      rewrite Hchain in Hall.
      rewrite Hchain, (destroyResult_earliest before a after time e None Hall Ha
                         Hbefore Hafter) in Hr by discriminate.
      split; [exact Hr |]. exists (EvLog frameFrom frameTo c :: evs). exact Htr.
Qed.

Lemma rejecting_destroy_decides_witness :
  fst (runSingleFrameChain sampleSession [leakyAction] [] 0 2 [] neverCancelled
         (startOf sampleStore)) = Throw (DataError "cannot release")
  /\ In EvEventClose
       (trace (snd (runSingleFrameChain sampleSession [leakyAction] [] 0 2 []
                      neverCancelled (startOf sampleStore))))
  /\ fst (runSingleFrameChain sampleSession [abruptAction; leakyAction] [] 0 2 []
            neverCancelled (startOf sampleStore)) = Throw (DataError "cannot stop").
Proof.
  split; [| split].
  - apply (proj2 (rejecting_destroy_decides sampleSession [leakyAction] [] 0 2 []
                    neverCancelled sampleStore _ _ (surjective_pairing _) eq_refl
                    (fun _ => eq_refl))
             [] leakyAction [] 1%nat (DataError "cannot release"));
      [reflexivity | repeat constructor; discriminate | reflexivity
       | constructor | constructor].
  - vm_compute. tauto.
  - apply (proj1 (rejecting_destroy_decides sampleSession [abruptAction; leakyAction]
                    [] 0 2 [] neverCancelled sampleStore _ _ (surjective_pairing _)
                    eq_refl (fun _ => eq_refl))
             [] abruptAction [leakyAction] (DataError "cannot stop"));
      [reflexivity | constructor | reflexivity].
Defined.

(** ** The initialization *)

Lemma allStarted_tail actionParameters idx a others :
  allStarted actionParameters idx (a :: others) ->
  (exists resolved, resolvedAt actionParameters idx a = Ok resolved
                    /\ forall e, init a resolved <> Throws e)
  /\ allStarted actionParameters (S idx) others.
Proof.
  intros H. split.
  - destruct (H 0%nat a eq_refl) as [res Hres]. rewrite Nat.add_0_r in Hres. eauto.
  - intros j b Hb. destruct (H (S j) b Hb) as [res Hres].
    rewrite Nat.add_succ_r in Hres. eauto.
Qed.

Lemma allInitialized_tail actionParameters idx a others :
  allInitialized actionParameters idx (a :: others) ->
  (exists resolved, resolvedAt actionParameters idx a = Ok resolved
                    /\ init a resolved = Fulfils tt)
  /\ allInitialized actionParameters (S idx) others.
Proof.
  intros H. split.
  - destruct (H 0%nat a eq_refl) as [res Hres]. rewrite Nat.add_0_r in Hres. eauto.
  - intros j b Hb. destruct (H (S j) b Hb) as [res Hres].
    rewrite Nat.add_succ_r in Hres. eauto.
Qed.

Lemma allInitialized_started actionParameters idx actions :
  allInitialized actionParameters idx actions ->
  allStarted actionParameters idx actions.
Proof.
  intros H j a Ha. destruct (H j a Ha) as (res & Hres & Hinit).
  exists res. split; [exact Hres |]. intros e. rewrite Hinit. discriminate.
Qed.

Lemma initResult_keeps actionParameters actions : forall idx t e,
  allStarted actionParameters idx actions ->
  exists t' e',
    initResult actionParameters idx actions (Some (t, e)) = Normal (Some (t', e')).
Proof.
  induction actions as [| a others IH]; intros idx t e Hall; simpl; [eauto |].
  apply allStarted_tail in Hall as [(res & Hres & Hsync) Hall]. rewrite Hres.
  destruct (init a res) as [e0 | [] | t0 e0];
    [exfalso; exact (Hsync e0 eq_refl) | apply IH, Hall |].
  simpl. destruct (t0 <? t)%nat; apply IH, Hall.
Qed.

Lemma initResult_initialized actionParameters actions : forall idx,
  allInitialized actionParameters idx actions ->
  initResult actionParameters idx actions None = Normal None.
Proof.
  induction actions as [| a others IH]; intros idx Hall; simpl; [reflexivity |].
  apply allInitialized_tail in Hall as [(res & Hres & Hinit) Hall].
  rewrite Hres, Hinit. simpl. apply IH, Hall.
Qed.

Lemma initResult_Normal_None actionParameters actions : forall idx rejected,
  initResult actionParameters idx actions rejected = Normal None ->
  rejected = None /\ allInitialized actionParameters idx actions.
Proof.
  induction actions as [| a others IH]; intros idx rejected H; simpl in H.
  - inversion H. split; [reflexivity |]. intros j a Hj. discriminate.
  - destruct (resolvedAt actionParameters idx a) as [res |] eqn:Hres; [| discriminate].
    destruct (init a res) as [e | [] | t e] eqn:Hinit; [discriminate | |].
    + apply IH in H as [Hrej Hall].
      split; [exact Hrej |]. intros [| j] b Hb.
      * inversion Hb; subst. rewrite Nat.add_0_r. eauto.
      * rewrite Nat.add_succ_r. apply (Hall j b Hb).
    + apply IH in H as [Hrej _]. exfalso. revert Hrej. simpl.
      destruct rejected as [[t0 e0] |]; [destruct (t <? t0)%nat |]; discriminate.
Qed.

Lemma initEvents_resolved actionParameters actions : forall idx,
  allStarted actionParameters idx actions ->
  length (initEvents actionParameters idx actions) = length actions
  /\ forall j a resolved,
       actions !! j = Some a ->
       resolvedAt actionParameters (idx + j) a = Ok resolved ->
       initEvents actionParameters idx actions !! j = Some (EvInit (idx + j) resolved).
Proof.
  induction actions as [| a others IH]; intros idx Hall; simpl.
  - split; [reflexivity |]. intros j a res Hj. discriminate.
  - apply allStarted_tail in Hall as [(res & Hres & Hsync) Hall]. rewrite Hres.
    destruct (IH _ Hall) as [Hlen Hat].
    assert (Hev : match init a res with
                  | Throws _ => []
                  | _ => initEvents actionParameters (S idx) others
                  end = initEvents actionParameters (S idx) others).
    { destruct (init a res) as [e | |]; [exfalso; exact (Hsync e eq_refl) | |];
        reflexivity. }
    rewrite Hev. simpl. split; [rewrite Hlen; reflexivity |].
    intros [| j] b resolved Hb Hr.
    + inversion Hb; subst. rewrite Nat.add_0_r in *. rewrite Hres in Hr.
      inversion Hr. reflexivity.
    + rewrite Nat.add_succ_r in *. simpl. apply (Hat j b resolved); assumption.
Qed.

(** A rejected [init] makes [Promise.all] reject, and with its rejection
    when none comes before it. *)
Lemma initResult_rejection actionParameters actions :
  forall idx k a resolved time e rejected,
  allStarted actionParameters idx actions ->
  actions !! k = Some a ->
  resolvedAt actionParameters (idx + k) a = Ok resolved ->
  init a resolved = RejectsAt time e ->
  exists t' e',
    initResult actionParameters idx actions rejected = Normal (Some (t', e'))
    /\ ((forall t0 e0, rejected = Some (t0, e0) -> (time < t0)%nat) ->
        (forall j b res t0 e0,
           actions !! j = Some b ->
           resolvedAt actionParameters (idx + j) b = Ok res ->
           init b res = RejectsAt t0 e0 ->
           ((j < k)%nat -> (time < t0)%nat) /\ ((k < j)%nat -> (time <= t0)%nat)) ->
        e' = e).
Proof.
  induction actions as [| a others IH];
    intros idx k b resolved time e rejected Hall Hk Hr Hi; [discriminate |].
  simpl. pose proof Hall as Hall0.
  apply allStarted_tail in Hall as [(res & Hres & Hsync) Hall]. rewrite Hres.
  destruct k as [| k].
  - inversion Hk; subst. rewrite Nat.add_0_r in Hr. rewrite Hres in Hr.
    inversion Hr; subst. rewrite Hi. simpl.
    assert (Hlater : (forall t0 e0, rejected = Some (t0, e0) -> (time < t0)%nat) ->
                     firstRejection rejected (@RejectsAt unit time e)
                     = Some (time, e)).
    { intros Hrej. simpl. destruct rejected as [[t0 e0] |]; [| reflexivity].
      specialize (Hrej t0 e0 eq_refl).
      destruct (Nat.ltb_spec time t0); [reflexivity | lia]. }
    destruct (firstRejection rejected (@RejectsAt unit time e)) as [[t1 e1] |] eqn:Hfirst.
    2:{ exfalso. revert Hfirst. simpl.
        destruct rejected as [[t0 e0] |]; [destruct (time <? t0)%nat |];
          discriminate. }
    simpl in Hfirst. rewrite Hfirst. clear IH.
    assert (Hkeep : forall others idx t1 e1,
              allStarted actionParameters idx others ->
              exists t' e',
                initResult actionParameters idx others (Some (t1, e1))
                = Normal (Some (t', e'))
                /\ ((forall j b0 res0 t0 e0,
                       others !! j = Some b0 ->
                       resolvedAt actionParameters (idx + j) b0 = Ok res0 ->
                       init b0 res0 = RejectsAt t0 e0 -> (t1 <= t0)%nat) ->
                    t' = t1 /\ e' = e1)).
    { clear. induction others as [| a others IH]; intros idx t1 e1 Hall; simpl.
      - exists t1, e1. auto.
      - apply allStarted_tail in Hall as [(res & Hres & Hsync) Hall]. rewrite Hres.
        destruct (init a res) as [e0 | [] | t0 e0] eqn:Hinit;
          [exfalso; exact (Hsync e0 eq_refl) | |].
        + destruct (IH (S idx) t1 e1 Hall) as (t' & e' & Heq & Hfirst).
          exists t', e'. split; [exact Heq |]. intros Hlate. apply Hfirst.
          intros j b0 res0 t0 e0 Hj Hr0 Hi0.
          apply (Hlate (S j) b0 res0 t0 e0 Hj); [| exact Hi0].
          rewrite Nat.add_succ_r. exact Hr0.
        + simpl. destruct (Nat.ltb_spec t0 t1) as [Hlt | Hge].
          * destruct (IH (S idx) t0 e0 Hall) as (t' & e' & Heq & _).
            exists t', e'. split; [exact Heq |]. intros Hlate. exfalso.
            specialize (Hlate 0%nat a res t0 e0 eq_refl).
            rewrite Nat.add_0_r in Hlate. specialize (Hlate Hres Hinit). lia.
          * destruct (IH (S idx) t1 e1 Hall) as (t' & e' & Heq & Hfirst).
            exists t', e'. split; [exact Heq |]. intros Hlate. apply Hfirst.
            intros j b0 res0 t2 e2 Hj Hr0 Hi0.
            apply (Hlate (S j) b0 res0 t2 e2 Hj); [| exact Hi0].
            rewrite Nat.add_succ_r. exact Hr0. }
    destruct (Hkeep others (S idx) t1 e1 Hall) as (t' & e' & Heq & Hsame).
    exists t', e'. split; [exact Heq |]. intros Hrej Hothers.
    specialize (Hlater Hrej). inversion Hlater; subst t1 e1.
    apply Hsame. intros j b0 res0 t0 e0 Hj Hr0 Hi0.
    apply (Hothers (S j) b0 res0 t0 e0 Hj); [| exact Hi0 | lia].
    rewrite Nat.add_succ_r. exact Hr0.
  - rewrite Nat.add_succ_r in Hr.
    destruct (init a res) as [e0 | [] | t0 e0] eqn:Hinit;
      [exfalso; exact (Hsync e0 eq_refl) | |].
    + destruct (IH (S idx) k b resolved time e rejected Hall Hk Hr Hi)
        as (t' & e' & Heq & Hfirst).
      exists t', e'. split; [exact Heq |]. intros Hrej Hothers. apply Hfirst;
        [exact Hrej |].
      intros j b0 res0 t1 e1 Hj Hr0 Hi0.
      destruct (Hothers (S j) b0 res0 t1 e1 Hj) as [H1 H2]; [| exact Hi0 |].
      * rewrite Nat.add_succ_r. exact Hr0.
      * split; intros; [apply H1 | apply H2]; lia.
    + destruct (IH (S idx) k b resolved time e
                  (firstRejection rejected (@RejectsAt unit t0 e0)) Hall Hk Hr Hi)
        as (t' & e' & Heq & Hfirst).
      exists t', e'. split; [exact Heq |]. intros Hrej Hothers. apply Hfirst.
      * destruct (Hothers 0%nat a res t0 e0 eq_refl) as [Hlt _]; [| exact Hinit |].
        { rewrite Nat.add_0_r. exact Hres. }
        specialize (Hlt ltac:(lia)). simpl.
        destruct rejected as [[t1 e1] |].
        -- specialize (Hrej t1 e1 eq_refl).
           destruct (t0 <? t1)%nat; intros t2 e2 Heq2; inversion Heq2; subst; lia.
        -- intros t2 e2 Heq2; inversion Heq2; subst; lia.
      * intros j b0 res0 t1 e1 Hj Hr0 Hi0.
        destruct (Hothers (S j) b0 res0 t1 e1 Hj) as [H1 H2]; [| exact Hi0 |].
        -- rewrite Nat.add_succ_r. exact Hr0.
        -- split; intros; [apply H1 | apply H2]; lia.
Qed.

Lemma init_stops_at_throw actionParameters before a after e : forall idx rejected,
  allStarted actionParameters idx before ->
  resolvedAt actionParameters (idx + length before) a = Err e ->
  initResult actionParameters idx (before ++ a :: after) rejected = Throw e
  /\ initEvents actionParameters idx (before ++ a :: after)
     = initEvents actionParameters idx before.
Proof.
  induction before as [| b before IH]; intros idx rejected Hall He; simpl in *.
  - rewrite Nat.add_0_r in He. rewrite He. auto.
  - apply allStarted_tail in Hall as [(res & Hres & Hsync) Hall]. rewrite Hres.
    rewrite Nat.add_succ_r in He.
    destruct (init b res) as [e0 | [] | t0 e0];
      [exfalso; exact (Hsync e0 eq_refl) | |];
      (split; [apply (proj1 (IH (S idx) _ Hall He))
              | rewrite (proj2 (IH (S idx) None Hall He)); reflexivity]).
Qed.

Lemma initFailure_None actionParameters actionsChain :
  initFailure actionParameters actionsChain = None
  <-> allInitialized actionParameters 0 actionsChain.
Proof.
  unfold initFailure. split.
  - pose proof (initResult_not_Return actionParameters actionsChain 0%nat None) as Hnr.
    destruct (initResult actionParameters 0 actionsChain None) as [[[t e] |] | | e]
      eqn:Hres; [discriminate | | contradiction | discriminate].
    intros _. apply initResult_Normal_None in Hres. tauto.
  - intros Hall. rewrite (initResult_initialized _ _ _ Hall). reflexivity.
Qed.

Lemma eventsOf_commit_initPhase actionsChain actionParameters :
  eventsOf [KCommit] (initPhase actionsChain actionParameters) = [].
Proof.
  unfold initPhase. rewrite eventsOf_app.
  rewrite (eventsOf_none _ _ _ (initEvents_kinds actionParameters actionsChain 0%nat));
    [reflexivity |].
  simpl. intuition congruence.
Qed.

Lemma progressCalls_initPhase actionsChain actionParameters :
  progressCalls (initPhase actionsChain actionParameters)
  = [("Actions initialization", 0)].
Proof.
  unfold initPhase. rewrite progressCalls_app.
  rewrite (kindsWithin_progressCalls [KInit] _ (initEvents_kinds _ _ _))
    by (simpl; intuition discriminate).
  reflexivity.
Qed.

(** A run whose initialization fails after its checkpoint. *)
Lemma run_with_failed_init instance actionsChain actionParameters frameFrom
    frameTo filters cancelled st r s' e :
  runSingleFrameChain instance actionsChain actionParameters frameFrom frameTo
    filters cancelled (startOf st) = (r, s') ->
  eventOpened instance actionsChain frameFrom frameTo = true ->
  onProgress instance 0 "Actions initialization" 0 = Ok tt ->
  cancelled 0%nat = false ->
  initFailure actionParameters actionsChain = Some e ->
  exists chain,
    trace s' = EvLog frameFrom frameTo chain
                 :: initPhase actionsChain actionParameters
                 ++ announceFinal
                 :: map EvDestroy (seq 0 (cleanupCalls instance actionsChain 1))
    /\ store s' = st
    /\ r = Throw (match cleanupFailure instance actionsChain 1 with
                  | Some e' => e'
                  | None => e
                  end).
Proof.
  intros H Hopen Hreport Hc0 Hinit. unfold eventOpened in Hopen.
  apply run_trace in H
    as [(e' & Hn & _) | [(c & e' & Hn & Hlog & _)
                        | (c & evs & r1 & Hn & Hlog & Htry & Htr & _ & Hst & Hr)]].
  - rewrite Hn in Hopen. discriminate.
  - rewrite Hn, Hlog in Hopen. discriminate.
  - exists c.
    destruct Htry as [e0 evs Hrep _ | evs Hc Hevs | e0 evs _ Hf Hevs | e0 evs _ Hf _ _
                      | evsL evs _ Hf _ _ _ | evsL e0 evs _ Hf _ _ _
                      | n e0 evs _ Hf _ _ _ _
                      | p evs _ Hf _ _ _ _ | evs r1 _ Hf _ _ _ _];
      try congruence.
    rewrite Hinit in Hf. inversion Hf; subst e0 evs.
    rewrite progressCalls_initPhase in Htr, Hr. simpl length in Htr, Hr.
    split; [exact Htr |]. split; [apply Hst, eventsOf_commit_initPhase |].
    rewrite Hr. destruct (cleanupFailure instance actionsChain 1); reflexivity.
Qed.

Lemma resolveDeclared_without_map declared acc e :
  fold_left (resolveStep None) declared (Err e) = Err e
  /\ (declared <> [] ->
      fold_left (resolveStep None) declared (Ok acc)
      = Err (TypeError "Cannot convert undefined or null to object")).
Proof.
  assert (Herr : forall l e0, fold_left (resolveStep None) l (Err e0) = Err e0)
    by (induction l as [| d l IH]; intros e0; simpl; [reflexivity | apply IH]).
  split; [apply Herr |].
  destruct declared as [| d ds]; [contradiction |]. intros _. simpl. apply Herr.
Qed.

(** X8. Initialization stops where the caller gave no
    parameter map.  In a run whose audit event is opened, whose first
    message is delivered without a throw and that is not cancelled at its
    first checkpoint: when the chain position of an action that declares at
    least one parameter has no entry in [actionParameters], and the
    callback gets past the actions before it (their parameters are
    resolved and their [init] returns a promise), the callback throws a
    TypeError there.  So [init] is invoked on the actions before it and
    neither on that action nor on the ones after it, nothing is exported
    or processed, the store is untouched, and the cleanup follows: the run
    rejects with the error of the cleanup if it has one and with the
    TypeError otherwise, whether or not an [init] before was rejected; and
    [destroy] is invoked on every action of the chain, initialized or not,
    when the last message is delivered and no [destroy] throws when
    called.  An action with a null or an empty schema needs no parameter
    map. *)
Theorem missing_parameter_map_stops_initialization instance actionsChain
    actionParameters frameFrom frameTo filters cancelled st r s'
    before a after declaration declarations :
  runSingleFrameChain instance actionsChain actionParameters frameFrom frameTo
    filters cancelled (startOf st) = (r, s') ->
  eventOpened instance actionsChain frameFrom frameTo = true ->
  onProgress instance 0 "Actions initialization" 0 = Ok tt ->
  cancelled 0%nat = false ->
  actionsChain = before ++ a :: after ->
  allStarted actionParameters 0 before ->
  parameters a = Ok (Some (declaration :: declarations)) ->
  actionParameters !! length before = None ->
  (exists chain,
     trace s' = EvLog frameFrom frameTo chain
                  :: announceInit :: EvCancelled false
                  :: initEvents actionParameters 0 before
                  ++ announceFinal
                  :: map EvDestroy (seq 0 (cleanupCalls instance actionsChain 1)))
  /\ length (initEvents actionParameters 0 before) = length before
  /\ store s' = st
  /\ r = Throw (match cleanupFailure instance actionsChain 1 with
                | Some e => e
                | None => TypeError "Cannot convert undefined or null to object"
                end)
  /\ (onProgress instance 1 "Finalizing" 100 = Ok tt ->
      List.Forall (fun b => forall e, destroy b <> Throws e) actionsChain ->
      cleanupCalls instance actionsChain 1 = length actionsChain)
  /\ (onProgress instance 1 "Finalizing" 100 = Ok tt ->
      List.Forall (fun b => destroy b = Fulfils tt) actionsChain ->
      r = Throw (TypeError "Cannot convert undefined or null to object"))
  /\ resolveParameters None None = Ok ∅
  /\ resolveParameters (Some []) None = Ok ∅.
Proof.
  intros H Hopen Hreport Hc0 Hchain Hbefore Hdecl Hmap.
  assert (Hthrow : resolvedAt actionParameters (0 + length before) a
                   = Err (TypeError "Cannot convert undefined or null to object")).
  { unfold resolvedAt. rewrite Hdecl. simpl. rewrite Hmap.
    unfold resolveDeclared.
    apply (resolveDeclared_without_map (declaration :: declarations) ∅
             (TypeError "Cannot convert undefined or null to object")).
    discriminate. }
  destruct (init_stops_at_throw actionParameters before a after _ 0%nat None
              Hbefore Hthrow) as [Hres Hevs].
  assert (Hfail : initFailure actionParameters actionsChain
                  = Some (TypeError "Cannot convert undefined or null to object"))
    by (unfold initFailure; rewrite Hchain, Hres; reflexivity).
  destruct (run_with_failed_init _ _ _ _ _ _ _ _ _ _ _ H Hopen Hreport Hc0 Hfail)
    as (chain & Htr & Hst & Hr).
  split; [| split; [| split; [| split; [| split; [| split; [| split]]]]]].
  - exists chain. rewrite Htr. unfold initPhase. rewrite Hchain at 1. rewrite Hevs.
    rewrite <- app_assoc. reflexivity.
  - apply (initEvents_resolved _ _ _ Hbefore).
  - exact Hst.
  - exact Hr.
  - intros Hfinal Hd. unfold cleanupCalls. rewrite Hfinal.
    apply destroyCalls_all, Hd.
  - intros Hfinal Hd. rewrite Hr.
    rewrite (proj1 (cleanup_ok _ _ _ Hfinal Hd)). reflexivity.
  - reflexivity.
  - reflexivity.
Qed.

Lemma missing_parameter_map_stops_initialization_witness :
  eventsOf [KInit; KRun; KExport; KDestroy]
    (trace (snd (runSingleFrameChain sampleSession
                   [RemoveFilteredShapes; sampleAction; RemoveFilteredShapes] []
                   0 2 [] neverCancelled (startOf sampleStore))))
  = [EvInit 0 ∅; EvDestroy 0; EvDestroy 1; EvDestroy 2]
  /\ fst (runSingleFrameChain sampleSession
            [RemoveFilteredShapes; sampleAction; RemoveFilteredShapes] []
            0 2 [] neverCancelled (startOf sampleStore))
     = Throw (TypeError "Cannot convert undefined or null to object").
Proof.
  split; [vm_compute; reflexivity |].
  destruct (missing_parameter_map_stops_initialization sampleSession
              [RemoveFilteredShapes; sampleAction; RemoveFilteredShapes] []
              0 2 [] neverCancelled sampleStore _ _
              [RemoveFilteredShapes] sampleAction [RemoveFilteredShapes]
              ("factor", {| type := NUMBER; values := []; defaultValue := "5" |})
              [("mode", {| type := SELECT; values := ["fast"; "slow"];
                           defaultValue := "fast" |})]
              (surjective_pairing _) eq_refl eq_refl eq_refl eq_refl)
    as (_ & _ & _ & _ & _ & Hr & _).
  - intros [| j] b Hb; inversion Hb; subst. exists ∅.
    split; [reflexivity | discriminate].
  - reflexivity.
  - reflexivity.
  - apply Hr; [reflexivity | repeat constructor].
Defined.

(** X9. A rejected [init] does not keep the other actions
    from being initialized.  In a run whose audit event is opened, whose
    first message is delivered without a throw and that is not cancelled
    at its first checkpoint: when the callback gets past every action of
    the chain (the parameters are resolved and every [init] returns a
    promise), [init] is invoked on every action, once and in chain order,
    even though the promise of one of them is rejected; the run then
    rejects without exporting or processing anything, and the store is
    untouched.  It rejects with the error of the cleanup if it has one, and
    otherwise with the rejection of an [init]: with the one considered
    when no other [init] is rejected before it in time, those of the
    earlier actions being rejected strictly later if at all. *)
Theorem init_rejection_lets_the_others_start instance actionsChain
    actionParameters frameFrom frameTo filters cancelled st r s' k a resolved
    time e :
  runSingleFrameChain instance actionsChain actionParameters frameFrom frameTo
    filters cancelled (startOf st) = (r, s') ->
  eventOpened instance actionsChain frameFrom frameTo = true ->
  onProgress instance 0 "Actions initialization" 0 = Ok tt ->
  cancelled 0%nat = false ->
  allStarted actionParameters 0 actionsChain ->
  actionsChain !! k = Some a ->
  resolvedAt actionParameters k a = Ok resolved ->
  init a resolved = RejectsAt time e ->
  (exists chain,
     trace s' = EvLog frameFrom frameTo chain
                  :: announceInit :: EvCancelled false
                  :: initEvents actionParameters 0 actionsChain
                  ++ announceFinal
                  :: map EvDestroy (seq 0 (cleanupCalls instance actionsChain 1)))
  /\ length (initEvents actionParameters 0 actionsChain) = length actionsChain
  /\ (forall j b res,
        actionsChain !! j = Some b ->
        resolvedAt actionParameters j b = Ok res ->
        initEvents actionParameters 0 actionsChain !! j = Some (EvInit j res))
  /\ store s' = st
  /\ exists e',
       initFailure actionParameters actionsChain = Some e'
       /\ r = Throw (match cleanupFailure instance actionsChain 1 with
                     | Some e2 => e2
                     | None => e'
                     end)
       /\ ((forall j b res t0 e0,
              actionsChain !! j = Some b ->
              resolvedAt actionParameters j b = Ok res ->
              init b res = RejectsAt t0 e0 ->
              ((j < k)%nat -> (time < t0)%nat) /\ ((k < j)%nat -> (time <= t0)%nat)) ->
           e' = e).
Proof.
  intros H Hopen Hreport Hc0 Hall Hk Hres Hinit.
  destruct (initResult_rejection actionParameters actionsChain 0%nat k a resolved
              time e None Hall Hk Hres Hinit) as (t1 & e1 & He1 & Hfirst).
  assert (Hfail : initFailure actionParameters actionsChain = Some e1)
    by (unfold initFailure; rewrite He1; reflexivity).
  destruct (run_with_failed_init _ _ _ _ _ _ _ _ _ _ _ H Hopen Hreport Hc0 Hfail)
    as (chain & Htr & Hst & Hr).
  destruct (initEvents_resolved _ _ _ Hall) as [Hlen Hat].
  split; [exists chain; exact Htr |]. split; [exact Hlen |].
  split; [exact Hat |]. split; [exact Hst |].
  exists e1. split; [exact Hfail |]. split; [exact Hr |].
  intros Hothers. apply Hfirst; [discriminate | exact Hothers].
Qed.

Lemma init_rejection_lets_the_others_start_witness :
  eventsOf [KInit; KExport]
    (trace (snd (runSingleFrameChain sampleSession
                   [failingAction; RemoveFilteredShapes] [] 0 2 []
                   neverCancelled (startOf sampleStore))))
  = [EvInit 0 ∅; EvInit 1 ∅]
  /\ length (initEvents [] 0 [failingAction; RemoveFilteredShapes]) = 2%nat
  /\ fst (runSingleFrameChain sampleSession
            [failingAction; RemoveFilteredShapes] [] 0 2 []
            neverCancelled (startOf sampleStore))
     = Throw (DataError "cannot initialize").
Proof.
  split; [vm_compute; reflexivity |].
  destruct (init_rejection_lets_the_others_start sampleSession
              [failingAction; RemoveFilteredShapes] [] 0 2 [] neverCancelled
              sampleStore _ _ 0%nat failingAction ∅ 1%nat
              (DataError "cannot initialize")
              (surjective_pairing _) eq_refl eq_refl eq_refl)
    as (_ & Hlen & _ & _ & e' & _ & Hr & He).
  - intros [| [| j]] b Hb; inversion Hb; subst; exists ∅;
      (split; [reflexivity | discriminate]).
  - reflexivity.
  - reflexivity.
  - reflexivity.
  - split; [exact Hlen |]. rewrite Hr, He; [reflexivity |].
    intros [| [| j]] b res t0 e0 Hb Hres Hi; inversion Hb; subst;
      [split; lia |]. 
    vm_compute in Hres. inversion Hres; subst. discriminate.
Defined.

Lemma TryTrace_export instance actionsChain actionParameters frameFrom frameTo
    filters cancelled st asked reported evs r :
  TryTrace instance actionsChain actionParameters frameFrom frameTo filters
    cancelled st asked reported evs r ->
  In EvExport evs ->
  initFailure actionParameters actionsChain = None
  /\ exists after,
       evs = initPhase actionsChain actionParameters ++ EvExport :: after
       /\ kindsWithin [KFrame; KRun; KProgress; KPoll; KCommit; KClose] after.
Proof.
  intros H Hin.
  assert (Hno : ~ In EvExport (initPhase actionsChain actionParameters)).
  { unfold initPhase.
    apply (kindsWithin_not_In [KProgress; KPoll; KInit]).
    - pose proof (initEvents_kinds actionParameters actionsChain 0%nat). kinds_tac.
    - simpl. intuition discriminate. }
  destruct H as [e0 evs _ -> | evs Hc -> | e0 evs _ Hf -> | e0 evs _ Hf _ ->
                 | evsL evs _ Hf _ HL -> | evsL e0 evs _ Hf _ HL ->
                 | n e0 evs _ Hf _ _ _ ->
                 | p evs _ Hf _ _ _ -> | evs r1 _ Hf _ _ -> _].
  - exfalso. simpl in Hin. intuition discriminate.
  - exfalso. simpl in Hin. intuition discriminate.
  - contradiction.
  - split; [assumption |]. exists []. split; [reflexivity | kinds_tac].
  - split; [assumption |]. exists evsL. split; [reflexivity |].
    apply LoopTrace_kinds in HL. kinds_tac.
  - split; [assumption |]. exists evsL. split; [reflexivity |].
    apply LoopTrace_kinds in HL. kinds_tac.
  - split; [assumption |]. eexists. split; [reflexivity |].
    pose proof (passes_kinds instance actionsChain frameFrom frameTo filters
                  (shapes (annotations st)) (frameRange frameFrom frameTo)).
    unfold announceCommit. kinds_tac.
  - split; [assumption |]. eexists. split; [reflexivity |].
    pose proof (passes_kinds instance actionsChain frameFrom frameTo filters
                  (shapes (annotations st)) (frameRange frameFrom frameTo)).
    unfold announceCommit. kinds_tac.
  - split; [assumption |]. eexists. split; [reflexivity |].
    pose proof (passes_kinds instance actionsChain frameFrom frameTo filters
                  (shapes (annotations st)) (frameRange frameFrom frameTo)).
    pose proof (commitSteps_kinds instance
                  (committedCollection instance actionsChain filters
                     (annotations st) (frameRange frameFrom frameTo))).
    unfold announceCommit. kinds_tac.
Qed.

(** X10. Nothing is exported before every action is initialized: in a run
    in which the collection is exported, [init] was invoked on every action
    of the chain, once and in chain order, with the parameters resolved for
    its position, every [init] resolved, and all of that came before the
    export; after the export no [init] and no further export occurs. *)
Theorem export_follows_every_init instance actionsChain actionParameters
    frameFrom frameTo filters cancelled st r s' :
  runSingleFrameChain instance actionsChain actionParameters frameFrom frameTo
    filters cancelled (startOf st) = (r, s') ->
  In EvExport (trace s') ->
  allInitialized actionParameters 0 actionsChain
  /\ length (initEvents actionParameters 0 actionsChain) = length actionsChain
  /\ (forall j b res,
        actionsChain !! j = Some b ->
        resolvedAt actionParameters j b = Ok res ->
        initEvents actionParameters 0 actionsChain !! j = Some (EvInit j res))
  /\ exists chain after,
       trace s' = EvLog frameFrom frameTo chain
                    :: announceInit :: EvCancelled false
                    :: initEvents actionParameters 0 actionsChain
                    ++ EvExport :: after
       /\ eventsOf [KInit; KExport] after = [].
Proof.
  intros H Hin.
  apply run_trace in H
    as [(e' & _ & _ & Htr & _) | [(c & e' & _ & _ & _ & Htr & _)
                                 | (c & evs & r1 & _ & _ & Htry & Htr & _)]].
  - rewrite Htr in Hin. destruct Hin.
  - rewrite Htr in Hin. simpl in Hin. intuition discriminate.
  - rewrite Htr in Hin. simpl in Hin. destruct Hin as [Hin | Hin]; [discriminate |].
    apply in_app_or in Hin as [Hin | Hin].
    2:{ exfalso. simpl in Hin. destruct Hin as [Hin | Hin]; [discriminate |].
        revert Hin. apply (kindsWithin_not_In [KDestroy]);
          [apply destroy_events_kinds | simpl; intuition discriminate]. }
    apply (TryTrace_export _ _ _ _ _ _ _ _ _ _ _ _ Htry) in Hin
      as (Hinit & after & -> & Hk).
    apply initFailure_None in Hinit.
    destruct (initEvents_resolved _ _ _ (allInitialized_started _ _ _ Hinit))
      as [Hlen Hat].
    split; [exact Hinit |]. split; [exact Hlen |]. split; [exact Hat |].
    exists c. eexists. split.
    + rewrite Htr. unfold initPhase. simpl. rewrite <- !app_assoc. simpl. reflexivity.
    + rewrite eventsOf_app.
      rewrite (eventsOf_none _ _ _ Hk) by (simpl; intuition congruence).
      rewrite (eventsOf_none _ [KProgress; KDestroy]);
        [reflexivity | | simpl; intuition congruence].
      match goal with
      | |- kindsWithin _ (_ :: map EvDestroy ?l) =>
          pose proof (destroy_events_kinds l)
      end.
      unfold announceFinal. kinds_tac.
Qed.

Lemma export_follows_every_init_witness :
  allInitialized [∅] 0 [sampleAction]
  /\ length (initEvents [∅] 0 [sampleAction]) = 1%nat.
Proof.
  destruct (export_follows_every_init sampleSession [sampleAction] [∅] 0 2 []
              neverCancelled sampleStore _ _ (surjective_pairing _))
    as (Hall & Hlen & _).
  - vm_compute. tauto.
  - split; assumption.
Defined.

(** ** Views of the loop and of the [try] block *)

Section LoopViews.

Variable instance : Session.
Variable actionsChain : list BaseSingleFrameAction.
Variables frameFrom frameTo : Z.
Variable filters : list string.
Variable cancelled : nat -> bool.
Variable exportedShapes : list SerializedShape.

Lemma frameTrace_frame_calls f answer :
  eventsOf [KFrame]
    (frameTrace instance actionsChain frameFrom frameTo filters exportedShapes
       f answer)
  = frameCalls instance f.
Proof.
  unfold frameTrace, frameCalls, isLive.
  destruct (frames_get instance f) as [fd | e]; [| reflexivity].
  destruct (deleted fd); [reflexivity |].
  destruct (getAnnotations instance f filters) as [states | e]; [| reflexivity].
  cbv zeta. rewrite !eventsOf_app.
  rewrite (eventsOf_none [KFrame] [KRun] _ (runEvents_kinds actionsChain fd 0%nat _))
    by (simpl; intuition congruence).
  destruct (chainResult actionsChain fd _); reflexivity.
Qed.

Lemma frameTrace_runs f answer :
  eventsOf [KRun]
    (frameTrace instance actionsChain frameFrom frameTo filters exportedShapes
       f answer)
  = runsOn instance actionsChain frameFrom frameTo filters exportedShapes f.
Proof.
  unfold runsOn, frameTrace.
  destruct (frames_get instance f) as [fd | e]; [| reflexivity].
  destruct (deleted fd); [reflexivity |].
  destruct (getAnnotations instance f filters) as [states | e]; [| reflexivity].
  cbv zeta. rewrite !eventsOf_app.
  destruct (chainResult actionsChain fd _); reflexivity.
Qed.

Lemma frameTrace_progress f answer :
  progressCalls
    (frameTrace instance actionsChain frameFrom frameTo filters exportedShapes
       f answer)
  = if isPolled instance actionsChain filters exportedShapes f
    then [runningCall frameFrom frameTo f] else [].
Proof.
  unfold isPolled, isLive, frameError, frameTrace, runningCall.
  destruct (frames_get instance f) as [fd | e]; [| reflexivity].
  destruct (deleted fd); [reflexivity |].
  destruct (getAnnotations instance f filters) as [states | e]; [| reflexivity].
  rewrite !progressCalls_app, progressCalls_runEvents.
  destruct (chainResult actionsChain fd _); reflexivity.
Qed.

Lemma passes_frame_calls frames :
  eventsOf [KFrame]
    (passes instance actionsChain frameFrom frameTo filters exportedShapes frames)
  = flat_map (frameCalls instance) frames.
Proof.
  unfold passes. induction frames as [| f frames IH]; simpl; [reflexivity |].
  rewrite eventsOf_app, frameTrace_frame_calls, IH. reflexivity.
Qed.

Lemma passes_runs frames :
  eventsOf [KRun]
    (passes instance actionsChain frameFrom frameTo filters exportedShapes frames)
  = flat_map (runsOn instance actionsChain frameFrom frameTo filters exportedShapes)
      frames.
Proof.
  unfold passes. induction frames as [| f frames IH]; simpl; [reflexivity |].
  rewrite eventsOf_app, frameTrace_runs, IH. reflexivity.
Qed.

Lemma passes_progress frames :
  progressCalls
    (passes instance actionsChain frameFrom frameTo filters exportedShapes frames)
  = map (runningCall frameFrom frameTo)
      (List.filter (isPolled instance actionsChain filters exportedShapes) frames).
Proof.
  unfold passes. induction frames as [| f frames IH]; simpl; [reflexivity |].
  rewrite progressCalls_app, frameTrace_progress, IH.
  destruct (isPolled instance actionsChain filters exportedShapes f); reflexivity.
Qed.

Lemma passes_answers frames :
  answers
    (passes instance actionsChain frameFrom frameTo filters exportedShapes frames)
  = repeat false
      (length (List.filter (isPolled instance actionsChain filters exportedShapes)
                 frames)).
Proof.
  unfold passes. induction frames as [| f frames IH]; simpl; [reflexivity |].
  rewrite answers_app, answers_frameTrace, IH.
  destruct (isPolled instance actionsChain filters exportedShapes f); reflexivity.
Qed.

Lemma flat_map_snoc {A B} (g : A -> list B) l x :
  flat_map g (l ++ [x]) = flat_map g l ++ g x.
Proof. rewrite flat_map_app. simpl. rewrite app_nil_r. reflexivity. Qed.

Lemma frameTrace_polled f answer :
  isPolled instance actionsChain filters exportedShapes f = true ->
  frameTrace instance actionsChain frameFrom frameTo filters exportedShapes f answer
  = frameReport instance actionsChain frameFrom frameTo filters exportedShapes f
      ++ [EvCancelled answer].
Proof.
  unfold isPolled, isLive, frameError, frameTrace, frameReport.
  destruct (frames_get instance f) as [fd | e]; [| discriminate].
  destruct (deleted fd); [discriminate |].
  destruct (getAnnotations instance f filters) as [states | e]; [| discriminate].
  destruct (chainResult actionsChain fd _); [| discriminate].
  intros _. cbv zeta. rewrite <- !app_assoc. reflexivity.
Qed.

Lemma frameReport_views f :
  isPolled instance actionsChain filters exportedShapes f = true ->
  eventsOf [KFrame]
    (frameReport instance actionsChain frameFrom frameTo filters exportedShapes f)
  = frameCalls instance f
  /\ eventsOf [KRun]
       (frameReport instance actionsChain frameFrom frameTo filters exportedShapes f)
     = runsOn instance actionsChain frameFrom frameTo filters exportedShapes f
  /\ progressCalls
       (frameReport instance actionsChain frameFrom frameTo filters exportedShapes f)
     = [runningCall frameFrom frameTo f].
Proof.
  intros Hp. pose proof (frameTrace_polled f false Hp) as Heq.
  pose proof (frameTrace_frame_calls f false) as Hf.
  pose proof (frameTrace_runs f false) as Hr.
  pose proof (frameTrace_progress f false) as Hpr.
  rewrite Heq in Hf, Hr, Hpr. rewrite eventsOf_app in Hf, Hr.
  rewrite progressCalls_app, Hp in Hpr. simpl in Hf, Hr, Hpr.
  rewrite app_nil_r in Hf, Hr, Hpr. auto.
Qed.

Lemma LoopTrace_views frames handled modifiedIDs evs r :
  LoopTrace instance actionsChain frameFrom frameTo filters cancelled exportedShapes
    frames handled modifiedIDs evs r ->
  exists visited rest asked tail,
    frames = visited ++ rest
    /\ eventsOf [KFrame] evs = flat_map (frameCalls instance) visited
    /\ eventsOf [KRun] evs
       = flat_map (runsOn instance actionsChain frameFrom frameTo filters
                     exportedShapes) visited
    /\ progressCalls evs
       = map (runningCall frameFrom frameTo)
           (List.filter (isPolled instance actionsChain filters exportedShapes)
              visited)
    /\ answers evs = repeat false asked ++ tail
    /\ (asked + length tail
        <= length (List.filter (isPolled instance actionsChain filters
                                  exportedShapes) visited))%nat
    /\ ((tail = [] /\ r <> Return) \/ (tail = [true] /\ r = Return))
    /\ (forall result, r = Normal result -> rest = []).
Proof.
  intros H.
  destruct H as [evs r Hall -> -> | before g after p evs -> Hall Hp Hc ->
                 | before g after e evs -> Hall He ->
                 | before g after n e evs -> Hall Hp He ->].
  - exists frames, [], (length (List.filter (isPolled instance actionsChain filters
                                             exportedShapes) frames)), [].
    rewrite !app_nil_r. simpl.
    split; [reflexivity |]. split; [apply passes_frame_calls |].
    split; [apply passes_runs |]. split; [apply passes_progress |].
    split; [apply passes_answers |]. split; [lia |].
    split; [left; split; [reflexivity | discriminate] | reflexivity].
  - exists (before ++ [g]), after,
      (length (List.filter (isPolled instance actionsChain filters exportedShapes)
                 before)), [true].
    split; [rewrite <- app_assoc; reflexivity |].
    split; [rewrite eventsOf_app, passes_frame_calls, frameTrace_frame_calls,
              flat_map_snoc; reflexivity |].
    split; [rewrite eventsOf_app, passes_runs, frameTrace_runs, flat_map_snoc;
            reflexivity |].
    split; [rewrite progressCalls_app, passes_progress, frameTrace_progress,
              List.filter_app, map_app; simpl; rewrite Hp; reflexivity |].
    split; [rewrite answers_app, passes_answers, answers_frameTrace, Hp;
            reflexivity |].
    split; [rewrite List.filter_app, length_app; simpl; rewrite Hp; simpl; lia |].
    split; [right; auto | discriminate].
  - assert (Hun : isPolled instance actionsChain filters exportedShapes g = false)
      by (unfold isPolled; rewrite He; apply andb_false_r).
    exists (before ++ [g]), after,
      (length (List.filter (isPolled instance actionsChain filters exportedShapes)
                 before)), [].
    split; [rewrite <- app_assoc; reflexivity |].
    split; [rewrite eventsOf_app, passes_frame_calls, frameTrace_frame_calls,
              flat_map_snoc; reflexivity |].
    split; [rewrite eventsOf_app, passes_runs, frameTrace_runs, flat_map_snoc;
            reflexivity |].
    split; [rewrite progressCalls_app, passes_progress, frameTrace_progress,
              List.filter_app, map_app; simpl; rewrite Hun, !app_nil_r;
            reflexivity |].
    split; [rewrite answers_app, passes_answers, answers_frameTrace, Hun;
            reflexivity |].
    split; [rewrite List.filter_app, length_app; simpl; rewrite Hun; simpl; lia |].
    split; [left; split; [reflexivity | discriminate] | discriminate].
  - destruct (frameReport_views g Hp) as (Hf & Hr & Hpr).
    exists (before ++ [g]), after,
      (length (List.filter (isPolled instance actionsChain filters exportedShapes)
                 before)), [].
    split; [rewrite <- app_assoc; reflexivity |].
    split; [rewrite eventsOf_app, passes_frame_calls, Hf, flat_map_snoc;
            reflexivity |].
    split; [rewrite eventsOf_app, passes_runs, Hr, flat_map_snoc; reflexivity |].
    split; [rewrite progressCalls_app, passes_progress, Hpr,
              List.filter_app, map_app; simpl; rewrite Hp; reflexivity |].
    split; [rewrite answers_app, passes_answers, answers_frameReport;
            reflexivity |].
    split; [rewrite List.filter_app, length_app; simpl; lia |].
    split; [left; split; [reflexivity | discriminate] | discriminate].
Qed.

End LoopViews.

Lemma initPhase_kinds actionsChain actionParameters :
  kindsWithin [KProgress; KPoll; KInit] (initPhase actionsChain actionParameters).
Proof.
  unfold initPhase, announceInit.
  apply kindsWithin_app; [kinds_tac |].
  eapply kindsWithin_weaken; [| apply initEvents_kinds].
  intros k [<- | []]. simpl. tauto.
Qed.

Lemma eventsOf_initPhase kinds actionsChain actionParameters :
  ~ In KProgress kinds -> ~ In KPoll kinds -> ~ In KInit kinds ->
  eventsOf kinds (initPhase actionsChain actionParameters) = [].
Proof.
  intros H1 H2 H3. apply (eventsOf_none _ _ _ (initPhase_kinds _ _)).
  simpl. intros k [<- | [<- | [<- | []]]]; assumption.
Qed.

Lemma progressCalls_commitSteps instance imported :
  progressCalls (fst (commitSteps instance imported)) = [].
Proof.
  apply (kindsWithin_progressCalls _ _ (commitSteps_kinds _ _)).
  simpl; intuition discriminate.
Qed.

Lemma eventsOf_commitSteps kinds instance imported :
  ~ In KCommit kinds -> ~ In KClose kinds ->
  eventsOf kinds (fst (commitSteps instance imported)) = [].
Proof.
  intros H1 H2. apply (eventsOf_none _ _ _ (commitSteps_kinds _ _)).
  simpl. intros k [<- | [<- | []]]; assumption.
Qed.

Lemma commitSteps_not_Return instance imported :
  snd (commitSteps instance imported) <> Return.
Proof.
  unfold commitSteps.
  destruct (annotations_clear instance); [| discriminate].
  destruct (actions_clear instance); [| discriminate].
  destruct (annotations_import instance imported); [| discriminate].
  simpl. destruct (event_close instance); discriminate.
Qed.

Lemma not_In_kinds (k : EventKind) kinds :
  forallb (fun k' => if EventKind_eq_dec k' k then false else true) kinds = true ->
  ~ In k kinds.
Proof.
  rewrite forallb_forall. intros H Hin. specialize (H _ Hin).
  destruct (EventKind_eq_dec k k); [discriminate | contradiction].
Qed.

Ltac no_kind := apply not_In_kinds; reflexivity.

Ltac view_tac :=
  rewrite ?eventsOf_app, ?progressCalls_app, ?answers_app;
  rewrite ?answers_initPhase, ?answers_commitSteps, ?progressCalls_initPhase,
    ?progressCalls_commitSteps, ?passes_frame_calls, ?passes_runs,
    ?passes_progress, ?passes_answers;
  rewrite ?eventsOf_initPhase by no_kind;
  rewrite ?eventsOf_commitSteps by no_kind.

(** The store calls of a [try] block. *)
Lemma TryTrace_commit instance actionsChain actionParameters frameFrom frameTo
    filters cancelled st asked reported evs r :
  TryTrace instance actionsChain actionParameters frameFrom frameTo filters
    cancelled st asked reported evs r ->
  eventsOf [KCommit; KClose] evs = []
  \/ (eventsOf [KCommit; KClose] evs
      = fst (commitSteps instance
               (committedCollection instance actionsChain filters
                  (annotations st) (frameRange frameFrom frameTo)))
      /\ r = snd (commitSteps instance
                    (committedCollection instance actionsChain filters
                       (annotations st) (frameRange frameFrom frameTo)))
      /\ ~ In true (answers evs)
      /\ initFailure actionParameters actionsChain = None
      /\ collection_export instance = Ok tt
      /\ List.Forall (fun f => frameError instance actionsChain filters
                                 (shapes (annotations st)) f = None)
           (frameRange frameFrom frameTo)).
Proof.
  intros H.
  destruct H as [e evs Hrep -> | evs Hc -> | e evs Hc Hi -> | e evs Hc Hi He ->
                 | evsL evs Hc Hi He HL -> | evsL e evs Hc Hi He HL ->
                 | n e evs Hc Hi He Hall Hrep ->
                 | p evs Hc Hi He Hall Hp -> | evs r Hc Hi He Hall -> ->].
  - left. reflexivity.
  - left. reflexivity.
  - left. apply eventsOf_initPhase; no_kind.
  - left. view_tac. reflexivity.
  - left. view_tac. apply LoopTrace_kinds in HL.
    rewrite (eventsOf_none _ _ _ HL); [reflexivity |].
    simpl. intuition congruence.
  - left. view_tac. apply LoopTrace_kinds in HL.
    rewrite (eventsOf_none _ _ _ HL); [reflexivity |].
    simpl. intuition congruence.
  - left. view_tac.
    rewrite (eventsOf_none _ _ _ (passes_kinds _ _ _ _ _ _ _)); [reflexivity |].
    simpl. intuition congruence.
  - left. view_tac.
    rewrite (eventsOf_none _ _ _ (passes_kinds _ _ _ _ _ _ _)); [reflexivity |].
    simpl. intuition congruence.
  - right. view_tac.
    rewrite (eventsOf_none [KCommit; KClose] _ _ (passes_kinds _ _ _ _ _ _ _))
      by (simpl; intuition congruence).
    rewrite (eventsOf_all _ _ _ (commitSteps_kinds _ _)) by (simpl; tauto).
    split; [reflexivity |]. split; [reflexivity |].
    split; [| auto].
    intros Hin. simpl in Hin. destruct Hin as [Hin | Hin]; [discriminate |].
    apply in_app_iff in Hin as [Hin | Hin];
      [apply repeat_spec in Hin; discriminate |].
    simpl in Hin. destruct Hin as [Hin | []]. discriminate.
Qed.

(** The calls of a [try] block: the frames it visits, the calls of [run],
    the progress calls and the answers of the cancellation predicate. *)
Lemma TryTrace_views instance actionsChain actionParameters frameFrom frameTo
    filters cancelled st asked reported evs r :
  TryTrace instance actionsChain actionParameters frameFrom frameTo filters
    cancelled st asked reported evs r ->
  exists visited rest falses tail ptail,
    frameRange frameFrom frameTo = visited ++ rest
    /\ eventsOf [KFrame] evs = flat_map (frameCalls instance) visited
    /\ eventsOf [KRun] evs
       = flat_map (runsOn instance actionsChain frameFrom frameTo filters
                     (shapes (annotations st))) visited
    /\ progressCalls evs
       = ("Actions initialization", 0)
         :: map (runningCall frameFrom frameTo)
              (List.filter (isPolled instance actionsChain filters
                              (shapes (annotations st))) visited)
         ++ ptail
    /\ (ptail = [] \/ (ptail = [("Commiting handled objects", 100)] /\ rest = []))
    /\ answers evs = repeat false falses ++ tail
    /\ ((tail = [] /\ r <> Return) \/ (tail = [true] /\ r = Return))
    /\ (falses + length tail
        <= 2 + length (List.filter (isPolled instance actionsChain filters
                                      (shapes (annotations st))) visited))%nat
    /\ (eventsOf [KCommit; KClose] evs <> [] -> rest = []).
Proof.
  intros H.
  destruct H as [e evs Hrep -> | evs Hc -> | e evs Hc Hi -> | e evs Hc Hi He ->
                 | evsL evs Hc Hi He HL -> | evsL e evs Hc Hi He HL ->
                 | n e evs Hc Hi He Hall Hrep ->
                 | p evs Hc Hi He Hall Hp -> | evs r Hc Hi He Hall -> ->].
  - exists [], (frameRange frameFrom frameTo), 0%nat, [], [].
    repeat split; try reflexivity; simpl; auto; try lia.
    intros Hne. exfalso. apply Hne. reflexivity.
  - exists [], (frameRange frameFrom frameTo), 0%nat, [true], [].
    repeat split; try reflexivity; simpl; auto; try lia.
    intros Hne. exfalso. apply Hne. reflexivity.
  - exists [], (frameRange frameFrom frameTo), 1%nat, [], [].
    view_tac.
    repeat split; try reflexivity; simpl; auto; try lia.
    intros Hne. exfalso. apply Hne. reflexivity.
  - exists [], (frameRange frameFrom frameTo), 1%nat, [], [].
    view_tac.
    repeat split; try reflexivity; simpl; auto; try lia.
    intros Hne. exfalso. apply Hne. reflexivity.
  - pose proof (LoopTrace_kinds _ _ _ _ _ _ _ _ _ _ _ _ HL) as Hk.
    apply LoopTrace_views in HL
      as (visited & rest & k & tail & Hfr & Hf & Hr & Hpr & Ha & Hlen & Ht & Hn).
    exists visited, rest, (S k), tail, [].
    view_tac. rewrite Hf, Hr, Hpr, Ha, app_nil_r.
    repeat split; try reflexivity; simpl; auto; try lia.
    + destruct Ht as [[-> Hx] | [-> Hx]]; [left | right]; split;
        try reflexivity; congruence.
    + intros Hne. exfalso. apply Hne.
      rewrite (eventsOf_none _ _ _ Hk); [reflexivity |].
      simpl. intuition congruence.
  - pose proof (LoopTrace_kinds _ _ _ _ _ _ _ _ _ _ _ _ HL) as Hk.
    apply LoopTrace_views in HL
      as (visited & rest & k & tail & Hfr & Hf & Hr & Hpr & Ha & Hlen & Ht & Hn).
    exists visited, rest, (S k), tail, [].
    view_tac. rewrite Hf, Hr, Hpr, Ha, app_nil_r.
    repeat split; try reflexivity; simpl; auto; try lia.
    + destruct Ht as [[-> Hx] | [-> Hx]]; [left | right]; split;
        try reflexivity; congruence.
    + intros Hne. exfalso. apply Hne.
      rewrite (eventsOf_none _ _ _ Hk); [reflexivity |].
      simpl. intuition congruence.
  - exists (frameRange frameFrom frameTo), [],
      (S (length (List.filter (isPolled instance actionsChain filters
                                 (shapes (annotations st)))
                    (frameRange frameFrom frameTo)))), [],
      [("Commiting handled objects", 100)].
    view_tac. rewrite !app_nil_r.
    split; [reflexivity |]. split; [reflexivity |]. split; [reflexivity |].
    split; [reflexivity |]. split; [auto |].
    split; [reflexivity |].
    split; [left; split; [reflexivity | discriminate] |].
    split; [simpl; lia | reflexivity].
  - exists (frameRange frameFrom frameTo), [],
      (S (length (List.filter (isPolled instance actionsChain filters
                                 (shapes (annotations st)))
                    (frameRange frameFrom frameTo)))), [true],
      [("Commiting handled objects", 100)].
    view_tac. rewrite !app_nil_r.
    repeat split; try reflexivity; simpl; auto; try lia.
  - exists (frameRange frameFrom frameTo), [],
      (S (S (length (List.filter (isPolled instance actionsChain filters
                                    (shapes (annotations st)))
                       (frameRange frameFrom frameTo))))), [],
      [("Commiting handled objects", 100)].
    view_tac. rewrite !app_nil_r.
    split; [reflexivity |]. split; [reflexivity |]. split; [reflexivity |].
    split; [reflexivity |]. split; [auto |].
    split; [simpl; rewrite (repeat_cons _ false); reflexivity |].
    split; [left; split; [reflexivity | apply commitSteps_not_Return] |].
    split; [simpl; lia | reflexivity].
Qed.

(** ** Views of a whole run *)

Lemma eventsOf_run kinds frameFrom frameTo chain evs n :
  ~ In KLog kinds -> ~ In KProgress kinds -> ~ In KDestroy kinds ->
  eventsOf kinds
    (EvLog frameFrom frameTo chain :: evs
       ++ announceFinal :: map EvDestroy (seq 0 n))
  = eventsOf kinds evs.
Proof.
  intros H1 H2 H3.
  change (EvLog frameFrom frameTo chain :: evs
            ++ announceFinal :: map EvDestroy (seq 0 n))
    with ([EvLog frameFrom frameTo chain] ++ evs
            ++ [announceFinal] ++ map EvDestroy (seq 0 n)).
  rewrite !eventsOf_app.
  rewrite (eventsOf_none kinds [KLog] [EvLog frameFrom frameTo chain]);
    [| kinds_tac | intros k [<- | []]; assumption].
  rewrite (eventsOf_none kinds [KProgress] [announceFinal]);
    [| unfold announceFinal; kinds_tac | intros k [<- | []]; assumption].
  rewrite (eventsOf_none kinds [KDestroy] (map EvDestroy (seq 0 n)));
    [| apply destroy_events_kinds | intros k [<- | []]; assumption].
  simpl. rewrite ?app_nil_r. reflexivity.
Qed.

Lemma answers_run frameFrom frameTo chain evs n :
  answers
    (EvLog frameFrom frameTo chain :: evs
       ++ announceFinal :: map EvDestroy (seq 0 n))
  = answers evs.
Proof.
  change (EvLog frameFrom frameTo chain :: evs
            ++ announceFinal :: map EvDestroy (seq 0 n))
    with ([EvLog frameFrom frameTo chain] ++ evs
            ++ [announceFinal] ++ map EvDestroy (seq 0 n)).
  rewrite !answers_app.
  rewrite (kindsWithin_answers [KDestroy] _ (destroy_events_kinds _))
    by (intros [H | []]; discriminate).
  simpl. rewrite ?app_nil_r. reflexivity.
Qed.


Lemma In_eventsOf kinds ev evs :
  In ev (eventsOf kinds evs) <-> In ev evs /\ In (kindOf ev) kinds.
Proof. unfold eventsOf. rewrite filter_In, kindIn_spec. reflexivity. Qed.

(** X11. The frames are visited in ascending order from [frameFrom], none
    skipped and none twice, up to the frame at which the run stops: the
    calls to the frame provider and to [getAnnotations] are those of a
    prefix of the range, one request of the frame data per frame, followed
    by one call of [getAnnotations] when the frame is delivered and not
    flagged deleted.  A run that calls [annotations.import] has visited
    the whole range. *)
Theorem frames_are_visited_in_order instance actionsChain actionParameters
    frameFrom frameTo filters cancelled st r s' :
  runSingleFrameChain instance actionsChain actionParameters frameFrom frameTo
    filters cancelled (startOf st) = (r, s') ->
  exists visited rest,
    frameRange frameFrom frameTo = visited ++ rest
    /\ eventsOf [KFrame] (trace s') = flat_map (frameCalls instance) visited
    /\ (forall c, In (EvImport c) (trace s') -> rest = []).
Proof.
  intros H.
  apply run_trace in H
    as [(e' & _ & _ & Htr & _) | [(c & e' & _ & _ & _ & Htr & _)
                                 | (c & evs & r1 & _ & _ & Htry & Htr & _)]].
  - exists [], (frameRange frameFrom frameTo). rewrite Htr.
    split; [reflexivity |]. split; [reflexivity |]. intros c [].
  - exists [], (frameRange frameFrom frameTo). rewrite Htr.
    split; [reflexivity |]. split; [reflexivity |].
    intros c0 [Hc | []]. discriminate.
  - apply TryTrace_views in Htry
      as (visited & rest & k & tail & ptail & Hfr & Hf & _ & _ & _ & _ & _ & _ & Hcm).
    exists visited, rest. split; [exact Hfr |]. rewrite Htr. split.
    + rewrite eventsOf_run by no_kind. exact Hf.
    + intros c0 Hin. apply Hcm. intros Hnil.
      assert (Hin' : In (EvImport c0)
                       (eventsOf [KCommit; KClose]
                          (EvLog frameFrom frameTo c :: evs
                             ++ announceFinal
                             :: map EvDestroy
                                  (seq 0 (cleanupCalls instance actionsChain
                                            (length (progressCalls evs))))))).
      { apply In_eventsOf. split; [exact Hin | simpl; tauto]. }
      rewrite eventsOf_run in Hin' by no_kind. rewrite Hnil in Hin'. destruct Hin'.
Qed.

Lemma frames_are_visited_in_order_witness :
  exists visited rest,
    frameRange 0 2 = visited ++ rest
    /\ eventsOf [KFrame]
         (trace (snd (runSingleFrameChain sampleSession [sampleAction] [∅] 0 2 []
                        neverCancelled (startOf sampleStore))))
       = flat_map (frameCalls sampleSession) visited.
Proof.
  destruct (frames_are_visited_in_order sampleSession [sampleAction] [∅] 0 2 []
              neverCancelled sampleStore _ _ (surjective_pairing _))
    as (visited & rest & Hfr & Hf & _).
  exists visited, rest. split; assumption.
Defined.

Lemma runEvents_ok actions frameData : forall idx frameCollection output,
  chainResult actions frameData frameCollection = Ok output ->
  runEvents idx actions frameData frameCollection
  = map (fun i => EvRun i (number frameData)) (seq idx (length actions)).
Proof.
  induction actions as [| a others IH]; intros idx coll output H; simpl in *;
    [reflexivity |].
  destruct (run a _) as [out | e]; [| discriminate].
  rewrite (IH (S idx) out output H). reflexivity.
Qed.

Lemma runsOn_ok instance actionsChain frameFrom frameTo filters exportedShapes f :
  frameError instance actionsChain filters exportedShapes f = None ->
  runsOn instance actionsChain frameFrom frameTo filters exportedShapes f
  = if isLive instance f then frameRuns instance actionsChain f else [].
Proof.
  unfold frameError, runsOn, frameTrace, isLive, frameRuns.
  destruct (frames_get instance f) as [fd | e]; [| discriminate].
  destruct (deleted fd); [reflexivity |].
  destruct (getAnnotations instance f filters) as [states | e]; [| discriminate].
  destruct (chainResult actionsChain fd _) as [output |] eqn:Hres; [| discriminate].
  intros _. cbv zeta. rewrite !eventsOf_app.
  rewrite (eventsOf_all [KRun] [KRun] _ (runEvents_kinds _ _ _ _))
    by (intros k Hk; exact Hk).
  rewrite (runEvents_ok _ _ _ _ _ Hres). simpl. rewrite app_nil_r. reflexivity.
Qed.

Lemma runsOn_all instance actionsChain frameFrom frameTo filters exportedShapes
    frames :
  List.Forall (fun f => frameError instance actionsChain filters exportedShapes f
                        = None) frames ->
  flat_map (runsOn instance actionsChain frameFrom frameTo filters exportedShapes)
    frames
  = flat_map (frameRuns instance actionsChain)
      (List.filter (isLive instance) frames).
Proof.
  intros Hall. induction Hall as [| f frames Hf _ IH]; simpl; [reflexivity |].
  rewrite (runsOn_ok _ _ _ _ _ _ _ Hf), IH.
  destruct (isLive instance f); reflexivity.
Qed.

(** X12. In a run that calls [annotations.import], every action of the
    chain has been run exactly once on every frame of the range that is
    not flagged deleted, and on no other frame: frame after frame in
    ascending order and, on a frame, in chain order, each call with the
    number the frame provider gave for the frame. *)
Theorem actions_run_once_on_every_live_frame instance actionsChain
    actionParameters frameFrom frameTo filters cancelled st r s' c :
  runSingleFrameChain instance actionsChain actionParameters frameFrom frameTo
    filters cancelled (startOf st) = (r, s') ->
  In (EvImport c) (trace s') ->
  eventsOf [KRun] (trace s')
  = flat_map (frameRuns instance actionsChain)
      (List.filter (isLive instance) (frameRange frameFrom frameTo)).
Proof.
  intros H Hin.
  apply run_trace in H
    as [(e' & _ & _ & Htr & _) | [(ch & e' & _ & _ & _ & Htr & _)
                                 | (ch & evs & r1 & _ & _ & Htry & Htr & _)]].
  - rewrite Htr in Hin. destruct Hin.
  - rewrite Htr in Hin. destruct Hin as [Hin | []]. discriminate.
  - assert (Hin' : In (EvImport c) (eventsOf [KCommit; KClose] evs)).
    { rewrite <- (eventsOf_run _ frameFrom frameTo ch evs
                    (cleanupCalls instance actionsChain (length (progressCalls evs))))
        by no_kind.
      apply In_eventsOf. rewrite <- Htr. split; [exact Hin | simpl; tauto]. }
    pose proof (TryTrace_commit _ _ _ _ _ _ _ _ _ _ _ _ Htry) as [Hnil | Hcm].
    { rewrite Hnil in Hin'. destruct Hin'. }
    destruct Hcm as (_ & _ & _ & _ & _ & Hall).
    apply TryTrace_views in Htry
      as (visited & rest & k & tail & ptail & Hfr & _ & Hr & _ & _ & _ & _ & _ & Hrest).
    rewrite Hrest in Hfr by (intros Hnil; rewrite Hnil in Hin'; destruct Hin').
    rewrite app_nil_r in Hfr. subst visited.
    rewrite Htr, eventsOf_run by no_kind. rewrite Hr. apply runsOn_all, Hall.
Qed.

Lemma actions_run_once_on_every_live_frame_witness :
  eventsOf [KRun]
    (trace (snd (runSingleFrameChain sampleSession [sampleAction; sampleAction]
                   [∅; ∅] 0 2 [] neverCancelled (startOf sampleStore))))
  = [EvRun 0 0; EvRun 1 0; EvRun 0 2; EvRun 1 2].
Proof.
  rewrite (actions_run_once_on_every_live_frame sampleSession
             [sampleAction; sampleAction] [∅; ∅] 0 2 [] neverCancelled sampleStore
             _ _ (committedCollection sampleSession [sampleAction; sampleAction] []
                    (annotations sampleStore) (frameRange 0 2))
             (surjective_pairing _)).
  - reflexivity.
  - vm_compute. tauto.
Defined.

Lemma isPolled_isLive instance actionsChain filters exportedShapes f :
  isPolled instance actionsChain filters exportedShapes f = true ->
  isLive instance f = true.
Proof. unfold isPolled. intros H. apply andb_true_iff in H. tauto. Qed.

Lemma polled_among_live instance actionsChain filters exportedShapes visited rest :
  (length (List.filter (isPolled instance actionsChain filters exportedShapes)
             visited)
   <= length (List.filter (isLive instance) (visited ++ rest)))%nat.
Proof.
  rewrite List.filter_app, length_app.
  induction visited as [| f visited IH]; simpl; [lia |].
  destruct (isPolled instance actionsChain filters exportedShapes f) eqn:Hp.
  - rewrite (isPolled_isLive _ _ _ _ _ Hp). simpl. lia.
  - destruct (isLive instance f); simpl; lia.
Qed.

(** X13. The cancellation predicate is asked until it answers true and not
    again: the answers a run receives are a row of [false] followed by at
    most one [true].  It is asked at most once before the initialization,
    once after the chain of each frame that is not flagged deleted and
    once before the commit. *)
Theorem cancellation_is_polled_until_true instance actionsChain actionParameters
    frameFrom frameTo filters cancelled st r s' :
  runSingleFrameChain instance actionsChain actionParameters frameFrom frameTo
    filters cancelled (startOf st) = (r, s') ->
  (exists falses tail,
     answers (trace s') = repeat false falses ++ tail
     /\ (tail = [] \/ tail = [true]))
  /\ (length (answers (trace s'))
      <= 2 + length (List.filter (isLive instance)
                       (frameRange frameFrom frameTo)))%nat.
Proof.
  intros H.
  apply run_trace in H
    as [(e' & _ & _ & Htr & _) | [(c & e' & _ & _ & _ & Htr & _)
                                 | (c & evs & r1 & _ & _ & Htry & Htr & Hp & _)]].
  - rewrite Htr. split; [exists 0%nat, []; auto | simpl; lia].
  - rewrite Htr. split; [exists 0%nat, []; auto | simpl; lia].
  - apply TryTrace_views in Htry
      as (visited & rest & k & tail & ptail & Hfr & _ & _ & _ & _ & Ha & Ht & Hle & _).
    rewrite Htr, answers_run. split.
    + exists k, tail. split; [exact Ha | tauto].
    + rewrite Ha, length_app, repeat_length, Hfr.
      pose proof (polled_among_live instance actionsChain filters
                    (shapes (annotations st)) visited rest).
      lia.
Qed.

Lemma cancellation_is_polled_until_true_witness :
  (exists falses tail,
     answers (trace (snd (runSingleFrameChain sampleSession [sampleAction] [∅] 0 2
                            [] (fun p => Nat.eqb p 1) (startOf sampleStore))))
     = repeat false falses ++ tail
     /\ (tail = [] \/ tail = [true])).
Proof.
  exact (proj1 (cancellation_is_polled_until_true sampleSession [sampleAction] [∅]
                  0 2 [] (fun p => Nat.eqb p 1) sampleStore _ _
                  (surjective_pairing _))).
Defined.

(** X14. The store is called in one order only: [annotations.clear], then
    [actions.clear], then [annotations.import] with the committed
    collection, then [event.close], each one only when the one before it
    resolved.  A run makes none of these calls, or makes them up to the
    first that rejects; and it makes them only when every [init] resolved,
    the collection was exported, no frame of the range failed and the
    cancellation predicate never answered true. *)
Theorem store_calls_in_order instance actionsChain actionParameters
    frameFrom frameTo filters cancelled st r s' :
  runSingleFrameChain instance actionsChain actionParameters frameFrom frameTo
    filters cancelled (startOf st) = (r, s') ->
  eventsOf [KCommit; KClose] (trace s') = []
  \/ (eventsOf [KCommit; KClose] (trace s')
      = fst (commitSteps instance
               (committedCollection instance actionsChain filters
                  (annotations st) (frameRange frameFrom frameTo)))
      /\ ~ In true (answers (trace s'))
      /\ allInitialized actionParameters 0 actionsChain
      /\ collection_export instance = Ok tt
      /\ List.Forall (fun f => frameError instance actionsChain filters
                                 (shapes (annotations st)) f = None)
           (frameRange frameFrom frameTo)).
Proof.
  intros H.
  apply run_trace in H
    as [(e' & _ & _ & Htr & _) | [(c & e' & _ & _ & _ & Htr & _)
                                 | (c & evs & r1 & _ & _ & Htry & Htr & _)]].
  - left. rewrite Htr. reflexivity.
  - left. rewrite Htr. reflexivity.
  - rewrite Htr, eventsOf_run, answers_run by no_kind.
    destruct (TryTrace_commit _ _ _ _ _ _ _ _ _ _ _ _ Htry)
      as [Hnil | (Hcm & _ & Hno & Hi & He & Hall)]; [left; exact Hnil | right].
    apply initFailure_None in Hi. auto 6.
Qed.

Lemma store_calls_in_order_witness :
  eventsOf [KCommit; KClose]
    (trace (snd (runSingleFrameChain sampleSession [sampleAction] [∅] 0 2 []
                   neverCancelled (startOf sampleStore))))
  = [EvAnnotationsClear; EvActionsClear;
     EvImport (committedCollection sampleSession [sampleAction] []
                 (annotations sampleStore) (frameRange 0 2));
     EvEventClose].
Proof.
  destruct (store_calls_in_order sampleSession [sampleAction] [∅] 0 2 []
              neverCancelled sampleStore _ _ (surjective_pairing _))
    as [Hnil | (Hcm & _)].
  - vm_compute in Hnil. discriminate.
  - rewrite Hcm. reflexivity.
Defined.




Lemma LoopTrace_not_Return instance actionsChain frameFrom frameTo filters
    cancelled exportedShapes frames handled modifiedIDs evs :
  (forall p, cancelled p = false) ->
  ~ LoopTrace instance actionsChain frameFrom frameTo filters cancelled
      exportedShapes frames handled modifiedIDs evs Return.
Proof.
  intros Hnever H.
  inversion H as [evs' r' _ _ Hr | before f after p evs' _ _ _ Hp _ | |]; subst.
  - discriminate.
  - rewrite Hnever in Hp. discriminate.
Qed.

Lemma LoopTrace_not_Throw instance actionsChain frameFrom frameTo filters
    cancelled exportedShapes frames handled modifiedIDs evs e :
  (forall n message progress, onProgress instance n message progress = Ok tt) ->
  List.Forall (fun f => frameError instance actionsChain filters exportedShapes f
                        = None) frames ->
  ~ LoopTrace instance actionsChain frameFrom frameTo filters cancelled
      exportedShapes frames handled modifiedIDs evs (Throw e).
Proof.
  intros Hquiet Hall H.
  inversion H as [evs' r' _ _ Hr | | before f after e' evs' Hfr _ He _
                  | before f after n e' evs' Hfr _ _ Hrep _]; subst.
  - discriminate.
  - rewrite List.Forall_forall in Hall.
    rewrite Hall in He by (apply in_elt). discriminate.
  - rewrite Hquiet in Hrep. discriminate.
Qed.

(** X16. A run in which nothing fails and nothing is
    cancelled goes through every stage and resolves: when the names of the
    chain can be read, the logger accepts the event, the progress callback
    never throws, the cancellation predicate never answers true, every
    [init] returns a promise that is fulfilled, the export, the frame data,
    the annotations and the chain of every frame of the range, the three
    store calls and [event.close] succeed and every [destroy] returns a
    promise that is fulfilled, then the run completes normally and its
    calls are, in this order: the log, the initialization message and a
    poll, one [init] per action, the export, the passes over all frames
    (each with its progress report, whose percentage is the one the code
    computes in binary64), the commit message and a poll,
    [annotations.clear], [actions.clear], [annotations.import] of the
    committed collection, [event.close], the finalizing message and one
    [destroy] per action. *)
Theorem run_commits_when_nothing_fails instance actionsChain actionParameters
    frameFrom frameTo filters cancelled st chain :
  chainNames actionsChain = Ok chain ->
  logger_log instance frameFrom frameTo chain = Ok tt ->
  (forall n message progress, onProgress instance n message progress = Ok tt) ->
  (forall p, cancelled p = false) ->
  allInitialized actionParameters 0 actionsChain ->
  collection_export instance = Ok tt ->
  List.Forall (fun f => frameError instance actionsChain filters
                          (shapes (annotations st)) f = None)
    (frameRange frameFrom frameTo) ->
  annotations_clear instance = Ok tt ->
  actions_clear instance = Ok tt ->
  annotations_import instance
    (committedCollection instance actionsChain filters (annotations st)
       (frameRange frameFrom frameTo)) = Ok tt ->
  event_close instance = Ok tt ->
  List.Forall (fun a => destroy a = Fulfils tt) actionsChain ->
  let result :=
    runSingleFrameChain instance actionsChain actionParameters frameFrom frameTo
      filters cancelled (startOf st) in
  fst result = Normal tt
  /\ trace (snd result)
     = EvLog frameFrom frameTo chain
       :: announceInit :: EvCancelled false
       :: initEvents actionParameters 0 actionsChain
       ++ EvExport
       :: passes instance actionsChain frameFrom frameTo filters
            (shapes (annotations st)) (frameRange frameFrom frameTo)
       ++ [announceCommit; EvCancelled false;
           EvAnnotationsClear; EvActionsClear;
           EvImport (committedCollection instance actionsChain filters
                       (annotations st) (frameRange frameFrom frameTo));
           EvEventClose; announceFinal]
       ++ map EvDestroy (seq 0 (length actionsChain)).
Proof.
  intros Hn Hlog Hquiet Hnever Hinit Hexp Hall Hclear Hacl Himp Hclose Hdes result.
  destruct result as [r s'] eqn:Hrun. subst result. simpl.
  apply run_trace in Hrun
    as [(e' & Hn' & _) | [(c & e' & Hn' & Hlog' & _)
                         | (c & evs & r1 & Hn' & _ & Htry & Htr & _ & _ & Hr)]].
  - rewrite Hn in Hn'. discriminate.
  - rewrite Hn in Hn'. inversion Hn'; subst c. rewrite Hlog in Hlog'. discriminate.
  - rewrite Hn in Hn'. inversion Hn'; subst c. clear Hn'.
    destruct (cleanup_ok instance actionsChain (length (progressCalls evs))
                (Hquiet _ _ _) Hdes) as [Hnone Hcalls].
    rewrite Hnone in Hr. rewrite Hcalls in Htr. subst r1.
    apply initFailure_None in Hinit.
    destruct Htry as [e evs Hrep -> | evs Hc -> | e evs Hc Hi -> | e evs Hc Hi He ->
                      | evsL evs Hc Hi He HL -> | evsL e evs Hc Hi He HL ->
                      | n e evs Hc Hi He _ Hrep ->
                      | p evs Hc Hi He _ Hp -> | evs r Hc Hi He _ -> ->].
    + rewrite Hquiet in Hrep. discriminate.
    + rewrite Hnever in Hc. discriminate.
    + rewrite Hinit in Hi. discriminate.
    + rewrite Hexp in He. discriminate.
    + exfalso. exact (LoopTrace_not_Return _ _ _ _ _ _ _ _ _ _ _ Hnever HL).
    + exfalso. exact (LoopTrace_not_Throw _ _ _ _ _ _ _ _ _ _ _ _ Hquiet Hall HL).
    + rewrite Hquiet in Hrep. discriminate.
    + rewrite Hnever in Hp. discriminate.
    + rewrite Htr. unfold commitSteps. rewrite Hclear, Hacl, Himp, Hclose.
      split; [reflexivity |].
      unfold initPhase. simpl. repeat (rewrite <- app_assoc; simpl). reflexivity.
Qed.

Lemma run_commits_when_nothing_fails_witness :
  fst (runSingleFrameChain sampleSession [sampleAction] [∅] 0 2 []
         neverCancelled (startOf sampleStore)) = Normal tt.
Proof.
  refine (proj1 (run_commits_when_nothing_fails sampleSession [sampleAction] [∅]
                   0 2 [] neverCancelled sampleStore "Scale"
                   eq_refl eq_refl (fun _ _ _ => eq_refl) (fun _ => eq_refl) _
                   eq_refl _ eq_refl eq_refl eq_refl eq_refl _)).
  - intros [| j] a Ha; [| destruct j; discriminate].
    inversion Ha; subst a. eexists. split; reflexivity.
  - vm_compute. repeat constructor.
  - repeat constructor.
Defined.

Lemma TryTrace_Normal instance actionsChain actionParameters frameFrom frameTo
    filters cancelled st asked reported evs :
  TryTrace instance actionsChain actionParameters frameFrom frameTo filters
    cancelled st asked reported evs (Normal tt) ->
  eventsOf [KCommit; KClose] evs
  = [EvAnnotationsClear; EvActionsClear;
     EvImport (committedCollection instance actionsChain filters (annotations st)
                 (frameRange frameFrom frameTo));
     EvEventClose].
Proof.
  intros H.
  pose proof (TryTrace_commit _ _ _ _ _ _ _ _ _ _ _ _ H) as Hcm.
  inversion H as [| | | | | | | | evs' r' Hc Hi He Hall Hevs Hr]; subst.
  destruct Hcm as [Hnil | (Hcm & _)].
  - exfalso. revert Hnil. view_tac.
    rewrite (eventsOf_none [KCommit; KClose] _ _ (passes_kinds _ _ _ _ _ _ _))
      by (simpl; intuition congruence).
    rewrite (eventsOf_all _ _ _ (commitSteps_kinds _ _)) by (simpl; tauto).
    simpl. revert Hr. unfold commitSteps.
    destruct (annotations_clear instance); [| discriminate].
    destruct (actions_clear instance); [| discriminate].
    destruct (annotations_import instance _); discriminate.
  - rewrite Hcm. revert Hr. unfold commitSteps.
    destruct (annotations_clear instance); [| discriminate].
    destruct (actions_clear instance); [| discriminate].
    destruct (annotations_import instance _); [reflexivity | discriminate].
Qed.

(** X17. A run ends without an error and without a true answer of the
    cancellation predicate only by committing: it has then called
    [annotations.clear], [actions.clear], [annotations.import] with the
    committed collection and [event.close], once each and in this order. *)
Theorem resolved_uncancelled_run_has_committed instance actionsChain
    actionParameters frameFrom frameTo filters cancelled st r s' :
  runSingleFrameChain instance actionsChain actionParameters frameFrom frameTo
    filters cancelled (startOf st) = (r, s') ->
  (forall e, r <> Throw e) ->
  ~ In true (answers (trace s')) ->
  r = Normal tt
  /\ eventsOf [KCommit; KClose] (trace s')
     = [EvAnnotationsClear; EvActionsClear;
        EvImport (committedCollection instance actionsChain filters
                    (annotations st) (frameRange frameFrom frameTo));
        EvEventClose].
Proof.
  intros H Hok Hno.
  apply run_trace in H
    as [(e' & _ & Hr & _) | [(c & e' & _ & _ & Hr & _)
                            | (c & evs & r1 & _ & _ & Htry & Htr & _ & _ & Hr)]].
  - exfalso. exact (Hok _ Hr).
  - exfalso. exact (Hok _ Hr).
  - destruct (cleanupFailure instance actionsChain (length (progressCalls evs)))
      as [e |]; [exfalso; exact (Hok _ Hr) |].
    subst r1. rewrite Htr, answers_run in Hno. rewrite Htr, eventsOf_run by no_kind.
    pose proof (TryTrace_views _ _ _ _ _ _ _ _ _ _ _ _ Htry)
      as (visited & rest & k & tail & ptail & _ & _ & _ & _ & _ & Ha & Ht & _).
    destruct Ht as [[-> Hnr] | [-> _]].
    2:{ exfalso. apply Hno. rewrite Ha. apply in_or_app. right. left. reflexivity. }
    destruct r as [[] | | e]; [| contradiction | exfalso; exact (Hok e eq_refl)].
    split; [reflexivity |]. exact (TryTrace_Normal _ _ _ _ _ _ _ _ _ _ _ Htry).
Qed.

Lemma resolved_uncancelled_run_has_committed_witness :
  eventsOf [KCommit; KClose]
    (trace (snd (runSingleFrameChain sampleSession [sampleAction] [∅] 0 2 []
                   neverCancelled (startOf sampleStore))))
  = [EvAnnotationsClear; EvActionsClear;
     EvImport (committedCollection sampleSession [sampleAction] []
                 (annotations sampleStore) (frameRange 0 2));
     EvEventClose].
Proof.
  refine (proj2 (resolved_uncancelled_run_has_committed sampleSession
                   [sampleAction] [∅] 0 2 [] neverCancelled sampleStore _ _
                   (surjective_pairing _) _ _)).
  - intros e. vm_compute. discriminate.
  - vm_compute. intuition discriminate.
Defined.
